(** * Overfitting and regularization: a softmax classifier trained by SGD

    A shallow embedding of the code cells of
    [P02-C05-regularization-scratch.ipynb] and the properties its
    specification states about them.

    Numeric model.  The notebook computes on MXNet [NDArray]s of rank 1 and
    2, in single precision.  They are embedded as lists (rank 1) and lists
    of rows (rank 2) of real numbers, and the arithmetic of the notebook is
    read in real arithmetic ([Stdlib.Reals]): rounding and overflow are
    outside this model.  Underflow of the exponentials of [nd.softmax] is
    inside it ([exp32] below), because it decides whether a predicted
    probability is zero.  The logarithm of zero and what follows from it
    (infinite values and not-a-number) are outside the model: [ln] is total
    on the reals, and the properties that depend on the value of a
    logarithm assume that its argument is positive.  Arrays that only ever
    hold whole numbers (class labels, [argmax] results, element counts) are
    embedded as [nat].  An operation the library rejects (a shape or rank
    mismatch) returns [Raise MXNetError].

    Randomness.  The order in which [NDArrayIter] presents the samples is
    drawn by the library.  An iterator is embedded together with the
    batches of every pass it will present ([iter_pass]), so that a run is a
    function of these passes; whether two passes differ (the library
    reshuffles in [reset()]) or not is left to the iterator at hand. *)

From Stdlib Require Import Reals Lra Lia List Arith Bool Permutation.
Import ListNotations.
Open Scope R_scope.

(** ** Results of fallible operations *)

Inductive exn : Type :=
| MXNetError          (* raised by the array library: shapes or ranks do not fit *)
| ValueError          (* raised when the shape asked of [reshape] cannot be inferred *)
| ZeroDivisionError.  (* raised by Python's float division *)

Inductive result (A : Type) : Type :=
| Ok (a : A)
| Raise (e : exn).

Arguments Ok {A} a.
Arguments Raise {A} e.

Definition rbind {A B : Type} (r : result A) (f : A -> result B) : result B :=
  match r with
  | Ok a => f a
  | Raise e => Raise e
  end.

Definition rmap {A B : Type} (f : A -> B) (r : result A) : result B :=
  rbind r (fun a => Ok (f a)).

Declare Scope result_scope.
Delimit Scope result_scope with result.
Notation "x <- c ;; k" := (rbind c (fun x => k))
  (at level 61, c at next level, right associativity) : result_scope.
Notation "' pat <- c ;; k" := (rbind c (fun x => match x with pat => k end))
  (at level 61, pat pattern, c at next level, right associativity) : result_scope.
Open Scope result_scope.

(** ** Arrays *)

Definition vec : Type := list R.
Definition mat : Type := list (list R).

Inductive NDArray : Type :=
| Vec (v : vec)
| Mat (m : mat).

Definition flatten (a : NDArray) : list R :=
  match a with
  | Vec v => v
  | Mat m => concat m
  end.

Definition nd_map (f : R -> R) (a : NDArray) : NDArray :=
  match a with
  | Vec v => Vec (map f v)
  | Mat m => Mat (map (map f) m)
  end.

Fixpoint zipWith {A B C : Type} (f : A -> B -> C) (u : list A) (v : list B) : list C :=
  match u, v with
  | x :: u', y :: v' => f x y :: zipWith f u' v'
  | _, _ => []
  end.

Definition vsum (v : vec) : R := fold_right Rplus 0 v.
Definition vscale (c : R) (v : vec) : vec := map (Rmult c) v.
Definition vadd (u v : vec) : vec := zipWith Rplus u v.
Definition inner (u v : vec) : R := vsum (zipWith Rmult u v).

(** Element-wise binary operations insist on equal shapes. *)

Fixpoint vzip (f : R -> R -> R) (u v : vec) : result vec :=
  match u, v with
  | [], [] => Ok []
  | x :: u', y :: v' => w <- vzip f u' v' ;; Ok (f x y :: w)
  | _, _ => Raise MXNetError
  end.

Fixpoint mzip (f : R -> R -> R) (a b : mat) : result mat :=
  match a, b with
  | [], [] => Ok []
  | r :: a', s :: b' => t <- vzip f r s ;; m <- mzip f a' b' ;; Ok (t :: m)
  | _, _ => Raise MXNetError
  end.

(** [rows_zip f A v]: [f] between every row of [A] and the vector [v]
    (broadcasting [v] along axis 0). *)

Fixpoint rows_zip (f : R -> R -> R) (a : mat) (v : vec) : result mat :=
  match a with
  | [] => Ok []
  | r :: a' => t <- vzip f r v ;; m <- rows_zip f a' v ;; Ok (t :: m)
  end.

Definition ncols (m : mat) : nat :=
  match m with
  | [] => O
  | r :: _ => length r
  end.

Definition rect (c : nat) (m : mat) : bool :=
  forallb (fun r => Nat.eqb (length r) c) m.

(** [vecmat c x B] is the row vector [x . B] for a matrix [B] of [c]
    columns. *)

Fixpoint vecmat (c : nat) (x : vec) (B : mat) : vec :=
  match x, B with
  | xk :: x', row :: B' => vadd (vscale xk row) (vecmat c x' B')
  | _, _ => repeat 0 c
  end.

(** *** The operations of [mxnet.nd] the notebook calls, on values *)

(** [nd.dot] on two matrices: the inner dimensions must agree. *)
Definition val_dot (a b : NDArray) : result NDArray :=
  match a, b with
  | Mat A, Mat B =>
      if rect (length B) A && rect (ncols B) B
      then Ok (Mat (map (fun x => vecmat (ncols B) x B) A))
      else Raise MXNetError
  | _, _ => Raise MXNetError
  end.

(** [+] between arrays of one shape, and between a matrix and a vector with
    the vector broadcast along the rows of the matrix. *)
Definition val_add (a b : NDArray) : result NDArray :=
  match a, b with
  | Vec u, Vec v => w <- vzip Rplus u v ;; Ok (Vec w)
  | Mat A, Mat B => m <- mzip Rplus A B ;; Ok (Mat m)
  | Mat A, Vec v => m <- rows_zip Rplus A v ;; Ok (Mat m)
  | Vec u, Mat B => m <- rows_zip (fun x y => y + x) B u ;; Ok (Mat m)
  end.

(** [-] between arrays of one shape (as [SGD] uses it). *)
Definition val_sub (a b : NDArray) : result NDArray :=
  match a, b with
  | Vec u, Vec v => w <- vzip Rminus u v ;; Ok (Vec w)
  | Mat A, Mat B => m <- mzip Rminus A B ;; Ok (Mat m)
  | _, _ => Raise MXNetError
  end.

(** [*] between arrays of one shape. *)
Definition val_mul (a b : NDArray) : result NDArray :=
  match a, b with
  | Vec u, Vec v => w <- vzip Rmult u v ;; Ok (Vec w)
  | Mat A, Mat B => m <- mzip Rmult A B ;; Ok (Mat m)
  | _, _ => Raise MXNetError
  end.

(** The exponential in single precision, as far as this model goes:
    [exp x] below half the smallest positive single-precision number
    (2^-150, and e^-104 is below it) is returned as 0.  Above the threshold
    the value is the real one. *)
Definition exp32 (x : R) : R := if Rlt_dec x (- 104) then 0 else exp x.

(** The largest entry of a row. *)
Definition vmax (r : vec) : R :=
  match r with
  | [] => 0
  | x :: l => fold_right Rmax x l
  end.

(** One row of [nd.softmax]: the library subtracts the largest entry of the
    row before it exponentiates, so the largest entry contributes [exp 0]
    and the divisor is at least 1. *)
Definition softmax_row (r : vec) : vec :=
  let m := vmax r in
  let e := map (fun x => exp32 (x - m)) r in
  map (fun x => x / vsum e) e.

(** [nd.softmax(_, axis=1)]: there is no axis 1 on a vector. *)
Definition val_softmax (a : NDArray) : result NDArray :=
  match a with
  | Mat A => Ok (Mat (map softmax_row A))
  | Vec _ => Raise MXNetError
  end.

Definition val_log (a : NDArray) : NDArray := nd_map ln a.
Definition val_neg (a : NDArray) : NDArray := nd_map Ropp a.
Definition val_pow2 (a : NDArray) : NDArray := nd_map (fun x => x ^ 2) a.
Definition val_smul (c : R) (a : NDArray) : NDArray := nd_map (Rmult c) a.

(** [nd.sum(_, axis=0, exclude=True)]: sums over every axis but the first. *)
Definition val_sum_exclude0 (a : NDArray) : NDArray :=
  match a with
  | Mat A => Vec (map vsum A)
  | Vec v => Vec v
  end.

(** [nd.sum(_)]: the sum of all elements, as an array of shape (1,). *)
Definition val_sum (a : NDArray) : NDArray := Vec [vsum (flatten a)].

(** [nd.zeros(shape=1)]. *)
Definition val_zeros1 : NDArray := Vec [0].

(** [nd.mean(_).asscalar()]. *)
Definition mean_asscalar (a : NDArray) : R :=
  vsum (flatten a) / INR (length (flatten a)).

(** ** The array interface, shared by values and recorded graphs

    Inside [autograd.record()] the very same Python code builds a graph
    instead of only computing values.  The notebook's functions are therefore
    written once, over this interface, and instantiated twice. *)

Class NDOps (T : Type) : Type := {
  nd_dot : T -> T -> T;
  nd_add : T -> T -> T;
  nd_softmax : T -> T;
  nd_log : T -> T;
  nd_mul : T -> T -> T;
  nd_sum_exclude0 : T -> T;
  nd_neg : T -> T;
  nd_sum : T -> T;
  nd_zeros1 : T;
  nd_pow2 : T -> T;
  nd_smul : R -> T -> T
}.

Definition lift1 (f : NDArray -> NDArray) (a : result NDArray) : result NDArray :=
  x <- a ;; Ok (f x).
Definition bind1 (f : NDArray -> result NDArray) (a : result NDArray) : result NDArray :=
  x <- a ;; f x.
Definition bind2 (f : NDArray -> NDArray -> result NDArray)
    (a b : result NDArray) : result NDArray :=
  x <- a ;; y <- b ;; f x y.

#[export] Instance value_ops : NDOps (result NDArray) := {
  nd_dot := bind2 val_dot;
  nd_add := bind2 val_add;
  nd_softmax := bind1 val_softmax;
  nd_log := lift1 val_log;
  nd_mul := bind2 val_mul;
  nd_sum_exclude0 := lift1 val_sum_exclude0;
  nd_neg := lift1 val_neg;
  nd_sum := lift1 val_sum;
  nd_zeros1 := Ok val_zeros1;
  nd_pow2 := lift1 val_pow2;
  nd_smul := fun c => lift1 (val_smul c)
}.

(** ** The notebook's model, loss and penalty *)

Section Notebook.
Context {T : Type} `{NDOps T}.

(** [net] reads the globals [W] and [b]; here they are arguments. *)
Definition net (W b X : T) : T :=
  let y_linear := nd_add (nd_dot X W) b in
  let yhat := nd_softmax y_linear in
  yhat.

Definition cross_entropy (yhat y : T) : T :=
  nd_neg (nd_sum_exclude0 (nd_mul y (nd_log yhat))).

Definition l2_penalty (params : list T) : T :=
  fold_left (fun penalty param => nd_add penalty (nd_sum (nd_pow2 param)))
    params nd_zeros1.
End Notebook.

(** ** Recorded graphs and reverse-mode differentiation

    [autograd.record()] records the operations applied to arrays;
    [backward()] walks the record from the loss to the leaves, handing every
    operation the gradient of its output (its adjoint) and accumulating what
    reaches each parameter.  Leaves are the parameter objects (by location in
    the store) and constant arrays (data and labels). *)

Definition loc : Type := nat.

Inductive expr : Type :=
| EParam (p : loc)
| EConst (a : NDArray)
| EDot (a b : expr)
| EAdd (a b : expr)
| ESoftmax (a : expr)
| ELog (a : expr)
| EMul (a b : expr)
| ESumExclude0 (a : expr)
| ENeg (a : expr)
| ESum (a : expr)
| EPow2 (a : expr)
| ESmul (c : R) (a : expr).

#[export] Instance graph_ops : NDOps expr := {
  nd_dot := EDot;
  nd_add := EAdd;
  nd_softmax := ESoftmax;
  nd_log := ELog;
  nd_mul := EMul;
  nd_sum_exclude0 := ESumExclude0;
  nd_neg := ENeg;
  nd_sum := ESum;
  nd_zeros1 := EConst val_zeros1;
  nd_pow2 := EPow2;
  nd_smul := ESmul
}.

(** The value a recorded graph computes, given the parameters' data. *)
Fixpoint eval (env : loc -> result NDArray) (e : expr) : result NDArray :=
  match e with
  | EParam p => env p
  | EConst a => Ok a
  | EDot a b => nd_dot (eval env a) (eval env b)
  | EAdd a b => nd_add (eval env a) (eval env b)
  | ESoftmax a => nd_softmax (eval env a)
  | ELog a => nd_log (eval env a)
  | EMul a b => nd_mul (eval env a) (eval env b)
  | ESumExclude0 a => nd_sum_exclude0 (eval env a)
  | ENeg a => nd_neg (eval env a)
  | ESum a => nd_sum (eval env a)
  | EPow2 a => nd_pow2 (eval env a)
  | ESmul c a => nd_smul c (eval env a)
  end.

(** *** Adjoints of the recorded operations

    On the shapes a successful forward pass guarantees, these are the
    vector-Jacobian products of the operations. *)

Definition nd_zipWith (f : R -> R -> R) (a b : NDArray) : NDArray :=
  match a, b with
  | Vec u, Vec v => Vec (zipWith f u v)
  | Mat A, Mat B => Mat (zipWith (zipWith f) A B)
  | _, _ => a
  end.

Definition matmul (A B : mat) : mat := map (fun x => vecmat (ncols B) x B) A.

Definition transpose (m : mat) : mat :=
  map (fun k => map (fun row => nth k row 0) m) (seq 0 (ncols m)).

Definition colsum (G : mat) : vec := fold_right vadd (repeat 0 (ncols G)) G.

(** dot(A, B): the adjoint of [A] is [G . B^T], that of [B] is [A^T . G]. *)
Definition dot_adj_left (g vb : NDArray) : NDArray :=
  match g, vb with
  | Mat G, Mat B => Mat (matmul G (transpose B))
  | _, _ => g
  end.

Definition dot_adj_right (va g : NDArray) : NDArray :=
  match va, g with
  | Mat A, Mat G => Mat (matmul (transpose A) G)
  | _, _ => g
  end.

(** [x + y]: the adjoint passes through; to an operand that was broadcast
    along the rows it is summed over the rows. *)
Definition add_adj (operand other g : NDArray) : NDArray :=
  match operand, other, g with
  | Vec _, Mat _, Mat G => Vec (colsum G)
  | _, _, _ => g
  end.

Definition softmax_adj_row (s g : vec) : vec :=
  let d := inner g s in
  zipWith (fun sj gj => sj * (gj - d)) s g.

Definition softmax_adj (out g : NDArray) : NDArray :=
  match out, g with
  | Mat Y, Mat G => Mat (zipWith softmax_adj_row Y G)
  | _, _ => g
  end.

Definition log_adj (va g : NDArray) : NDArray := nd_zipWith (fun gi x => gi / x) g va.
Definition mul_adj (other g : NDArray) : NDArray := nd_zipWith Rmult g other.
Definition pow2_adj (va g : NDArray) : NDArray :=
  nd_zipWith (fun x gi => 2 * x * gi) va g.

Definition sum_exclude0_adj (va g : NDArray) : NDArray :=
  match va, g with
  | Mat A, Vec gs => Mat (zipWith (fun gi row => map (fun _ => gi) row) gs A)
  | _, _ => g
  end.

Definition sum_adj (va g : NDArray) : NDArray :=
  nd_map (fun _ => hd 0 (flatten g)) va.

Fixpoint backward_from (env : loc -> result NDArray) (e : expr) (g : NDArray)
    : result (list (loc * NDArray)) :=
  match e with
  | EParam p => Ok [(p, g)]
  | EConst _ => Ok []
  | EDot a b =>
      va <- eval env a ;; vb <- eval env b ;;
      ga <- backward_from env a (dot_adj_left g vb) ;;
      gb <- backward_from env b (dot_adj_right va g) ;;
      Ok (ga ++ gb)
  | EAdd a b =>
      va <- eval env a ;; vb <- eval env b ;;
      ga <- backward_from env a (add_adj va vb g) ;;
      gb <- backward_from env b (add_adj vb va g) ;;
      Ok (ga ++ gb)
  | ESoftmax a =>
      out <- eval env (ESoftmax a) ;;
      backward_from env a (softmax_adj out g)
  | ELog a =>
      va <- eval env a ;;
      backward_from env a (log_adj va g)
  | EMul a b =>
      va <- eval env a ;; vb <- eval env b ;;
      ga <- backward_from env a (mul_adj vb g) ;;
      gb <- backward_from env b (mul_adj va g) ;;
      Ok (ga ++ gb)
  | ESumExclude0 a =>
      va <- eval env a ;;
      backward_from env a (sum_exclude0_adj va g)
  | ENeg a => backward_from env a (val_neg g)
  | ESum a =>
      va <- eval env a ;;
      backward_from env a (sum_adj va g)
  | EPow2 a =>
      va <- eval env a ;;
      backward_from env a (pow2_adj va g)
  | ESmul c a => backward_from env a (val_smul c g)
  end.

(** The gradient of one parameter: the sum of all adjoints that reached it. *)
Fixpoint grad_of (p : loc) (contribs : list (loc * NDArray)) : option NDArray :=
  match contribs with
  | [] => None
  | (q, g) :: rest =>
      if Nat.eqb q p
      then Some (match grad_of p rest with
                 | None => g
                 | Some g' => nd_zipWith Rplus g g'
                 end)
      else grad_of p rest
  end.

(** ** The notebook's state

    [W] and [b] are array objects with an attached gradient buffer; the list
    [params] and the function [net] refer to the same two objects.  The store
    holds the objects, [params] their locations. *)

Record Param : Type := { data : NDArray; grad : NDArray }.

Definition heap : Type := list Param.

Definition W_loc : loc := 0%nat.
Definition b_loc : loc := 1%nat.
Definition params : list loc := [W_loc; b_loc].

Fixpoint update {A : Type} (i : nat) (x : A) (l : list A) : list A :=
  match l, i with
  | [], _ => []
  | _ :: l', O => x :: l'
  | y :: l', S i' => y :: update i' x l'
  end.

Definition load (h : heap) (p : loc) : result Param :=
  match nth_error h p with
  | Some q => Ok q
  | None => Raise MXNetError
  end.

Definition param_data (h : heap) (p : loc) : result NDArray := rmap data (load h p).

(** [net] as the notebook defines it: a callable that works on the store. *)
Definition net_global (X : NDArray) (h : heap) : result (NDArray * heap) :=
  yhat <- net (param_data h W_loc) (param_data h b_loc) (Ok X) ;;
  Ok (yhat, h).

(** [loss.backward()]: the head gradient is all ones, and every parameter the
    loss depends on gets its gradient buffer overwritten. *)
Definition ones_like (a : NDArray) : NDArray := nd_map (fun _ => 1) a.

Fixpoint write_grads (contribs : list (loc * NDArray)) (p : loc) (h : heap) : heap :=
  match h with
  | [] => []
  | q :: h' =>
      match grad_of p contribs with
      | Some g => {| data := data q; grad := g |}
      | None => q
      end :: write_grads contribs (S p) h'
  end.

Definition backward (graph : expr) (loss : NDArray) (h : heap) : result heap :=
  contribs <- backward_from (param_data h) graph (ones_like loss) ;;
  Ok (write_grads contribs 0%nat h).

(** [SGD]: [param[:] = param - lr * param.grad], one object after the other,
    written into the store. *)
Fixpoint SGD (params : list loc) (lr : R) (h : heap) : result heap :=
  match params with
  | [] => Ok h
  | param :: rest =>
      p <- load h param ;;
      v <- val_sub (data p) (val_smul lr (grad p)) ;;
      SGD rest lr (update param {| data := v; grad := grad p |} h)
  end.

(** ** Batches and iterators

    A batch carries the images of its samples and their class labels.  An
    [NDArrayIter] holds its data in some order, cut into batches (the last
    one padded), and a cursor; a [for] loop consumes the batches from the
    cursor to the end.  The notebook builds both iterators with
    [shuffle=True]: [reset()] rewinds the cursor and, in the library
    versions that reshuffle there, puts the data in a new order, which also
    changes the samples that pad the last batch.  The orders are drawn by
    the library; the iterator carries them as the passes it will present:
    [iter_pass it k] are the batches that the reset number [k] of its life
    puts in place.  For an iterator that does not reshuffle, all passes are
    the same. *)

Record Batch : Type := { batch_data : NDArray; batch_label : list nat }.

Record DataIter : Type := {
  iter_pass : nat -> list Batch;   (* the batches of every pass to come *)
  iter_count : nat;                (* the number of the pass the next reset starts *)
  iter_current : list Batch;       (* the batches of the pass in progress *)
  cursor : nat                     (* how many of them have been consumed *)
}.

(** The batches the next [reset()] puts in place. *)
Definition iter_batches (it : DataIter) : list Batch := iter_pass it (iter_count it).

Definition iter_reset (it : DataIter) : DataIter :=
  {| iter_pass := iter_pass it; iter_count := S (iter_count it);
     iter_current := iter_batches it; cursor := 0 |}.

Definition iter_remaining (it : DataIter) : list Batch :=
  skipn (cursor it) (iter_current it).

Definition iter_exhaust (it : DataIter) : DataIter :=
  {| iter_pass := iter_pass it; iter_count := iter_count it;
     iter_current := iter_current it; cursor := length (iter_current it) |}.

(** An iterator whose [reset()] only rewinds: every pass presents the same
    batches. *)
Definition steady_iter (batches : list Batch) : DataIter :=
  {| iter_pass := fun _ => batches; iter_count := 0;
     iter_current := batches; cursor := 0 |}.

Record World : Type := {
  store : heap;
  train_data : DataIter;
  test_data : DataIter;
  moving_loss : R
}.

Inductive iter_ref : Type := TrainData | TestData.

Definition get_iter (r : iter_ref) (w : World) : DataIter :=
  match r with
  | TrainData => train_data w
  | TestData => test_data w
  end.

Definition set_iter (r : iter_ref) (it : DataIter) (w : World) : World :=
  match r with
  | TrainData =>
      {| store := store w; train_data := it; test_data := test_data w;
         moving_loss := moving_loss w |}
  | TestData =>
      {| store := store w; train_data := train_data w; test_data := it;
         moving_loss := moving_loss w |}
  end.

Definition set_store (h : heap) (w : World) : World :=
  {| store := h; train_data := train_data w; test_data := test_data w;
     moving_loss := moving_loss w |}.

Definition set_moving_loss (l : R) (w : World) : World :=
  {| store := store w; train_data := train_data w; test_data := test_data w;
     moving_loss := l |}.

(** [data_iterator.reset()] *)
Definition reset (r : iter_ref) (w : World) : World :=
  set_iter r (iter_reset (get_iter r w)) w.

(** The batches a [for] loop over the iterator sees, and the world once the
    loop has run the iterator to its end. *)
Definition iterate (r : iter_ref) (w : World) : list Batch * World :=
  (iter_remaining (get_iter r w), set_iter r (iter_exhaust (get_iter r w)) w).

(** [_.reshape((-1, k))]: the elements in row-major order, cut into rows of
    [k].  The library has no arrays without elements.  When the number of
    elements is no multiple of [k] the call does not return; which error
    ends it depends on the version of the library ([ValueError] in recent
    ones). *)
Fixpoint chunks (fuel k : nat) (l : list R) : mat :=
  match fuel with
  | O => []
  | S fuel' =>
      match l with
      | [] => []
      | _ :: _ => firstn k l :: chunks fuel' k (skipn k l)
      end
  end.

Definition reshape_rows (k : nat) (a : NDArray) : result NDArray :=
  let l := flatten a in
  if Nat.eqb (length l) 0 || negb (Nat.eqb (length l mod k) 0)
  then Raise ValueError
  else Ok (Mat (chunks (length l) k l)).

(** [_.shape[0]] *)
Definition shape0 (a : NDArray) : nat :=
  match a with
  | Vec v => length v
  | Mat m => length m
  end.

(** [nd.one_hot(label, depth)] *)
Definition one_hot_row (depth l : nat) : vec :=
  map (fun j => if Nat.eqb j l then 1 else 0) (seq 0 depth).

Definition one_hot (label : list nat) (depth : nat) : NDArray :=
  Mat (map (one_hot_row depth) label).

(** [nd.argmax(_, axis=1)]: the first position of the largest entry. *)
Fixpoint argmax_from (best_i : nat) (best : R) (i : nat) (l : vec) : nat :=
  match l with
  | [] => best_i
  | x :: l' =>
      if Rlt_dec best x
      then argmax_from i x (S i) l'
      else argmax_from best_i best (S i) l'
  end.

Definition argmax_row (r : vec) : nat :=
  match r with
  | [] => O
  | x :: l => argmax_from 0 x 1 l
  end.

Definition val_argmax (a : NDArray) : result (list nat) :=
  match a with
  | Mat A => Ok (map argmax_row A)
  | Vec _ => Raise MXNetError
  end.

(** [nd.sum(predictions == label)]: [==] compares element by element and
    broadcasts an operand of length 1. *)
Definition count_equal (predictions label : list nat) : result nat :=
  if Nat.eqb (length predictions) (length label)
  then Ok (length (filter (fun pl => Nat.eqb (fst pl) (snd pl))
                     (combine predictions label)))
  else match predictions, label with
       | _, [l] => Ok (length (filter (fun p => Nat.eqb p l) predictions))
       | [p], _ => Ok (length (filter (fun l => Nat.eqb p l) label))
       | _, _ => Raise MXNetError
       end.

(** ** Evaluation *)

(** The model handed to [evaluate_accuracy] is a callable with access to the
    parameter objects: it may read and write the store. *)
Definition callable : Type := NDArray -> heap -> result (NDArray * heap).

Fixpoint accuracy_loop (net : callable) (batches : list Batch)
    (numerator denominator : nat) (h : heap) : result (nat * nat * heap) :=
  match batches with
  | [] => Ok (numerator, denominator, h)
  | batch :: rest =>
      data <- reshape_rows 784 (batch_data batch) ;;
      let label := batch_label batch in
      let label_one_hot := one_hot label 10 in
      '(output, h') <- net data h ;;
      predictions <- val_argmax output ;;
      correct <- count_equal predictions label ;;
      accuracy_loop net rest (numerator + correct) (denominator + shape0 data) h'
  end.

(** [numerator] and [denominator] only ever hold whole numbers and are kept
    as counts.  When the loop body never ran, both are still the Python
    floats [0.] at the final division, which then raises. *)
Definition evaluate_accuracy (data_iterator : iter_ref) (net : callable) (w : World)
    : result (R * World) :=
  let numerator := O in
  let denominator := O in
  let w := reset data_iterator w in
  let '(batches, w) := iterate data_iterator w in
  '(numerator, denominator, h) <-
     accuracy_loop net batches numerator denominator (store w) ;;
  if Nat.eqb denominator 0
  then Raise ZeroDivisionError
  else Ok (INR numerator / INR denominator, set_store h w).

(** ** The two training loops *)

Inductive objective : Type :=
| Unregularized
| Regularized (l2_strength : R).

(** What is recorded between [autograd.record()] and [loss.backward()]. *)
Definition loss_graph (o : objective) (data label_one_hot : NDArray) : expr :=
  let output := net (EParam W_loc) (EParam b_loc) (EConst data) in
  match o with
  | Unregularized => cross_entropy output (EConst label_one_hot)
  | Regularized l2_strength =>
      nd_add (nd_sum (cross_entropy output (EConst label_one_hot)))
             (nd_smul l2_strength (l2_penalty (map EParam params)))
  end.

(** The body of the inner loop, for batch number [i] of an epoch. *)
Definition train_batch (o : objective) (i : nat) (batch : Batch) (w : World)
    : result World :=
  data <- reshape_rows 784 (batch_data batch) ;;
  let label := batch_label batch in
  let label_one_hot := one_hot label 10 in
  let graph := loss_graph o data label_one_hot in
  loss <- eval (param_data (store w)) graph ;;
  h <- backward graph loss (store w) ;;
  h <- SGD params (1 / 1000) h ;;
  let moving_loss :=
    if Nat.eqb i 0
    then mean_asscalar loss
    else 99 / 100 * moving_loss w + 1 / 100 * mean_asscalar loss in
  Ok (set_moving_loss moving_loss (set_store h w)).

Fixpoint train_batches (o : objective) (i : nat) (batches : list Batch) (w : World)
    : result World :=
  match batches with
  | [] => Ok w
  | batch :: rest =>
      w <- train_batch o i batch w ;;
      train_batches o (S i) rest w
  end.

(** One line of the notebook's output. *)
Record report : Type := {
  epoch : nat;
  loss_shown : R;
  train_acc : R;
  test_acc : R
}.

(** The body of the outer loop, for epoch number [e]. *)
Definition train_epoch (o : objective) (e : nat) (w : World)
    : result (list report * World) :=
  let w := reset TrainData w in
  let '(batches, w) := iterate TrainData w in
  w <- train_batches o 0 batches w ;;
  '(test_accuracy, w) <- evaluate_accuracy TestData net_global w ;;
  '(train_accuracy, w) <- evaluate_accuracy TrainData net_global w ;;
  Ok (if Nat.eqb (e mod 100) 99
      then [{| epoch := e + 1; loss_shown := moving_loss w;
               train_acc := train_accuracy; test_acc := test_accuracy |}]
      else [],
      w).

Fixpoint train_epochs (o : objective) (e count : nat) (w : World)
    : result (list report * World) :=
  match count with
  | O => Ok ([], w)
  | S count' =>
      '(shown, w) <- train_epoch o e w ;;
      '(later, w) <- train_epochs o (S e) count' w ;;
      Ok (shown ++ later, w)
  end.

(** A training cell: [moving_loss = 0.] and then [for e in range(epochs)]. *)
Definition train (o : objective) (epochs : nat) (w : World)
    : result (list report * World) :=
  train_epochs o 0 epochs (set_moving_loss 0 w).

Definition train_unregularized : World -> result (list report * World) :=
  train Unregularized 1000.

Definition train_regularized : World -> result (list report * World) :=
  train (Regularized (1 / 10)) 1000.

(** * Vocabulary of the properties

    Quantities the statements below speak about. *)

(** ** Indexing, sums and shapes *)

Definition Rsum (n : nat) (f : nat -> R) : R := vsum (map f (seq 0 n)).

Definition entry (m : mat) (i j : nat) : R := nth j (nth i m []) 0.

(** [m] has [n] rows of [c] entries each. *)
Definition is_mat (n c : nat) (m : mat) : Prop := length m = n /\ rect c m = true.

(** Two arrays of one rank whose rows have pairwise equal lengths. *)
Definition same_shape (a g : NDArray) : Prop :=
  match a, g with
  | Vec u, Vec v => length u = length v
  | Mat A, Mat G => Forall2 (fun r s => length r = length s) A G
  | _, _ => False
  end.

(** ** The model *)


Definition net_rows (X W : mat) (b : vec) : mat :=
  map (fun x => softmax_row (vadd (vecmat (length b) x W) b)) X.


(** The class the model predicts for one flattened sample. *)
Definition predict (W : mat) (b : vec) (x : vec) : nat :=
  argmax_row (softmax_row (vadd (vecmat (length b) x W) b)).

(** The shape invariant of the parameters: [W] is 784 x 10 and [b] has
    length 10. *)
Definition params_shaped (h : heap) (W : mat) (b : vec) : Prop :=
  param_data h W_loc = Ok (Mat W) /\ param_data h b_loc = Ok (Vec b) /\
  is_mat 784 10 W /\ length b = 10%nat.

Definition shaped (h : heap) : Prop := exists W b, params_shaped h W b.

(** ** Labels and the penalty *)

(** Row [row] is the one-hot encoding of class [l] among [depth] classes. *)
Definition one_hot_at (depth : nat) (row : vec) (l : nat) : Prop :=
  length row = depth /\ (l < depth)%nat /\
  forall j, (j < depth)%nat -> nth j row 0 = if Nat.eqb j l then 1 else 0.

(** Every element of every array of a parameter set. *)
Definition elements (ps : list NDArray) : list R := concat (map flatten ps).

Definition sum_of_squares (l : list R) : R := vsum (map (fun x => x ^ 2) l).

(** ** Batches, iterators and worlds *)

(** A batch is well formed when its data can be cut into rows of 784 and it
    has one label per row. *)
Definition batch_ok (batch : Batch) : bool :=
  match reshape_rows 784 (batch_data batch) with
  | Ok a => Nat.eqb (shape0 a) (length (batch_label batch))
  | Raise _ => false
  end.

(** The samples a batch presents: the rows of its reshaped data, each with
    its label. *)
Definition batch_samples (batch : Batch) : list (vec * nat) :=
  match reshape_rows 784 (batch_data batch) with
  | Ok (Mat X) => combine X (batch_label batch)
  | _ => []
  end.

Definition samples_seen (batches : list Batch) : list (vec * nat) :=
  concat (map batch_samples batches).

Definition correctly_classified (W : mat) (b : vec) (s : list (vec * nat)) : nat :=
  length (filter (fun xl => Nat.eqb (predict W b (fst xl)) (snd xl)) s).

(** The iterator of a world moved to position [c] of the pass in progress. *)
Definition seek (r : iter_ref) (c : nat) (w : World) : World :=
  set_iter r {| iter_pass := iter_pass (get_iter r w);
                iter_count := iter_count (get_iter r w);
                iter_current := iter_current (get_iter r w);
                cursor := c |} w.

(** The iterator once a pass has been started by [reset()] and run to its
    end by a [for] loop. *)
Definition iter_after (it : DataIter) : DataIter := iter_exhaust (iter_reset it).

(** The next pass presents at least one batch, and only well-formed ones. *)
Definition iter_ok (it : DataIter) : Prop :=
  iter_batches it <> [] /\ forallb batch_ok (iter_batches it) = true.

(** So does every pass to come. *)
Definition iter_sound (it : DataIter) : Prop :=
  forall k, (iter_count it <= k)%nat ->
    iter_pass it k <> [] /\ forallb batch_ok (iter_pass it k) = true.

(** Parameters of the right shapes and two iterators that present at least
    one batch each, all batches well formed. *)
Definition world_ok (w : World) : Prop :=
  shaped (store w) /\ iter_ok (train_data w) /\ iter_ok (test_data w).

(** The same for every pass to come of both iterators. *)
Definition world_sound (w : World) : Prop :=
  shaped (store w) /\ iter_sound (train_data w) /\ iter_sound (test_data w).

(** The world in which the inner loop of an epoch starts: the training
    iterator has been reset and handed to the [for] loop. *)
Definition epoch_start (w : World) : World :=
  set_iter TrainData (iter_after (train_data w)) w.

(** ** One training step in closed form *)

Definition logits (X W : mat) (b : vec) : mat :=
  map (fun r => zipWith Rplus r b) (matmul X W).

Definition probabilities (X W : mat) (b : vec) : mat :=
  map softmax_row (logits X W b).

Definition ce_terms (Y y : mat) : mat :=
  zipWith (zipWith Rmult) y (map (map ln) Y).

Definition ce_loss (Y y : mat) : vec := map Ropp (map vsum (ce_terms Y y)).

(** The adjoint that reaches [y_linear] when the cross-entropy vector is
    differentiated with an all-ones head gradient. *)
Definition logits_adj (Y y : mat) : mat :=
  let g_sum := map Ropp (map (fun _ => 1) (ce_loss Y y)) in
  let g_terms := zipWith (fun gi row => map (fun _ => gi) row) g_sum (ce_terms Y y) in
  let g_log := zipWith (zipWith Rmult) g_terms y in
  let g_prob := zipWith (zipWith (fun gi x => gi / x)) g_log Y in
  zipWith softmax_adj_row Y g_prob.

(** The recorded [y_linear] of [net], the recorded cross-entropy and the
    recorded penalty. *)
Definition linear_graph (X : mat) : expr :=
  EAdd (EDot (EConst (Mat X)) (EParam W_loc)) (EParam b_loc).

Definition ce_graph (X y : mat) : expr :=
  cross_entropy (net (EParam W_loc) (EParam b_loc) (EConst (Mat X))) (EConst (Mat y)).

Definition penalty_graph : expr := l2_penalty (map EParam params).

(** The adjoint the penalty sends to a parameter [a] when the penalty as a
    whole receives the adjoint [g]. *)
Definition penalty_adj (g : R) (a : NDArray) : NDArray :=
  pow2_adj a (sum_adj (val_pow2 a) (Vec [g])).

Definition penalty_value (W : mat) (b : vec) : R :=
  0 + vsum (flatten (val_pow2 (Mat W))) + vsum (flatten (val_pow2 (Vec b))).

(** The value of the loss and the adjoints that reach [W] and [b]. *)
Definition loss_value (o : objective) (X W : mat) (b : vec) (y : mat) : NDArray :=
  match o with
  | Unregularized => Vec (ce_loss (probabilities X W b) y)
  | Regularized l2_strength =>
      Vec [vsum (ce_loss (probabilities X W b) y) + l2_strength * penalty_value W b]
  end.

Definition contributions (o : objective) (X W : mat) (b : vec) (y : mat)
    : list (loc * NDArray) :=
  let g := logits_adj (probabilities X W b) y in
  [(W_loc, Mat (matmul (transpose X) g)); (b_loc, Vec (colsum g))] ++
  match o with
  | Unregularized => []
  | Regularized l2_strength =>
      [(W_loc, penalty_adj (l2_strength * 1) (Mat W));
       (b_loc, penalty_adj (l2_strength * 1) (Vec b))]
  end.

(** What [SGD] puts in place of one parameter, and what a training step
    puts in place of one element and of the moving loss. *)
Definition sgd_param (lr : R) (q : Param) : Param :=
  {| data := nd_zipWith (fun x gi => x - lr * gi) (data q) (grad q);
     grad := grad q |}.

Definition sgd_step (x gi : R) : R := x - 1 / 1000 * gi.

Definition next_moving_loss (i : nat) (previous : R) (loss : NDArray) : R :=
  if Nat.eqb i 0
  then mean_asscalar loss
  else 99 / 100 * previous + 1 / 100 * mean_asscalar loss.

(** What the step on a batch feeds into the moving loss, for the vector
    [loss] of the cross-entropies of the batch's samples: the unregularized
    loop their mean; the regularized loop their sum plus the strength times
    the sum of the squares of all parameter elements (its loss is an array
    of one element, which is its own mean). *)
Definition loss_fed (o : objective) (W : mat) (b : vec) (loss : vec) : R :=
  match o with
  | Unregularized => vsum loss / INR (length loss)
  | Regularized l2_strength =>
      vsum loss + l2_strength * (sum_of_squares (concat W) + sum_of_squares b)
  end.

(** ** Small concrete inputs *)

(** All-zero parameters, and a batch of one all-zero image of class 0. *)
Definition W_zero : mat := repeat (repeat 0 10) 784.
Definition b_zero : vec := repeat 0 10.
Definition heap_zero : heap :=
  [ {| data := Mat W_zero; grad := Mat W_zero |};
    {| data := Vec b_zero; grad := Vec b_zero |} ].
Definition X_one : mat := [repeat 0 784].
Definition batch_one : Batch := {| batch_data := Mat X_one; batch_label := [O] |}.


(** Certain predictions for one sample of class 3. *)
Definition yhat_one : mat := [repeat 1 10].
Definition y_three : mat := [one_hot_row 10 3].

(** An iterator without batches, and one with the single batch above. *)
Definition iter_none : DataIter := steady_iter [].
Definition iter_one : DataIter := steady_iter [batch_one].

Definition world_none : World :=
  {| store := heap_zero; train_data := iter_none; test_data := iter_none;
     moving_loss := 0 |}.
Definition world_one : World :=
  {| store := heap_zero; train_data := iter_one; test_data := iter_one;
     moving_loss := 0 |}.

Definition acc_one : R :=
  INR (correctly_classified W_zero b_zero
         (samples_seen (iter_batches (get_iter TestData world_one)))) /
  INR (length (samples_seen (iter_batches (get_iter TestData world_one)))).

Definition world_one_after : World :=
  set_iter TestData (iter_after (get_iter TestData world_one)) world_one.

(** ** Vocabulary of the further properties *)

(** [r] is a value or an error of the library, not Python's division by
    zero. *)
Definition no_zero_division {A : Type} (r : result A) : Prop :=
  r <> Raise ZeroDivisionError.

(** ** Further concrete inputs *)

Definition x_zero : vec := repeat 0 784.

(** Two samples in one batch, and the same two samples in two batches. *)
Definition batch_two : Batch :=
  {| batch_data := Mat [x_zero; x_zero]; batch_label := [O; O] |}.
Definition world_joint : World :=
  {| store := heap_zero;
     train_data := steady_iter [batch_two];
     test_data := steady_iter [batch_two];
     moving_loss := 0 |}.
Definition world_split : World :=
  {| store := heap_zero;
     train_data := steady_iter [batch_one; batch_one];
     test_data := steady_iter [batch_one; batch_one];
     moving_loss := 0 |}.

(** A batch whose data cannot be cut into rows of 784, after a well-formed
    batch. *)
Definition batch_bad : Batch := {| batch_data := Vec [0; 0]; batch_label := [O] |}.
Definition world_bad : World :=
  {| store := heap_zero;
     train_data := steady_iter [batch_one; batch_bad];
     test_data := steady_iter [batch_one; batch_bad];
     moving_loss := 0 |}.

(** Three samples of classes 0, 1 and 1 in batches of two, the last batch
    padded from the start of the order: in the order 0 1 2 the padding is
    sample 0, in the order 2 1 0 it is sample 2.  An iterator that presents
    the first order in its first pass and the second order from then on. *)
Definition x_of (v : R) : vec := repeat v 784.
Definition batch_01 : Batch :=
  {| batch_data := Mat [x_of 0; x_of 1]; batch_label := [0; 1]%nat |}.
Definition batch_20 : Batch :=
  {| batch_data := Mat [x_of 2; x_of 0]; batch_label := [1; 0]%nat |}.
Definition batch_21 : Batch :=
  {| batch_data := Mat [x_of 2; x_of 1]; batch_label := [1; 1]%nat |}.
Definition batch_02 : Batch :=
  {| batch_data := Mat [x_of 0; x_of 2]; batch_label := [0; 1]%nat |}.
Definition iter_shuffled : DataIter :=
  {| iter_pass := fun k => match k with
                          | O => [batch_01; batch_20]
                          | S _ => [batch_21; batch_02]
                          end;
     iter_count := 0; iter_current := [batch_01; batch_20]; cursor := 0 |}.
Definition world_shuffled : World :=
  {| store := heap_zero; train_data := iter_shuffled; test_data := iter_shuffled;
     moving_loss := 0 |}.

(** Two batches for one pass. *)
Definition world_pair : World :=
  {| store := heap_zero;
     train_data := steady_iter [batch_one; batch_two];
     test_data := steady_iter [batch_one; batch_two];
     moving_loss := 0 |}.

(** The store of [heap_zero] with stale values in the gradient buffers. *)
Definition heap_stale : heap :=
  [ {| data := Mat W_zero; grad := Mat (repeat (repeat 1 10%nat) 784%nat) |};
    {| data := Vec b_zero; grad := Vec (repeat 1 10%nat) |} ].
Definition world_stale : World :=
  {| store := heap_stale;
     train_data := steady_iter [batch_one];
     test_data := steady_iter [batch_one];
     moving_loss := 0 |}.

(** * Properties *)

(** ** The embedding on small inputs *)

Example reshape_vector : reshape_rows 2 (Vec [1; 2; 3; 4]) = Ok (Mat [[1; 2]; [3; 4]]).
Proof. reflexivity. Qed.

Example reshape_indivisible : reshape_rows 3 (Vec [1; 2; 3; 4]) = Raise ValueError.
Proof. reflexivity. Qed.

Example one_hot_two : one_hot [1%nat; 0%nat] 3 = Mat [[0; 1; 0]; [1; 0; 0]].
Proof. reflexivity. Qed.

Example dot_row :
  exists m, val_dot (Mat [[1; 2]]) (Mat [[3; 4; 5]; [6; 7; 8]]) = Ok (Mat [m]) /\
            nth 0 m 0 = 15 /\ nth 2 m 0 = 21.
Proof. eexists. split; [reflexivity|]. simpl. split; lra. Qed.

Example dot_mismatch :
  val_dot (Mat [[1; 2; 3]]) (Mat [[3; 4; 5]; [6; 7; 8]]) = Raise MXNetError.
Proof. reflexivity. Qed.

Example transpose_three : transpose [[1; 2]; [3; 4]; [5; 6]] = [[1; 3; 5]; [2; 4; 6]].
Proof. reflexivity. Qed.

Example argmax_first_of_ties : argmax_row [1; 3; 2; 3] = 1%nat.
Proof.
  simpl. destruct (Rlt_dec 1 3); [|lra]. destruct (Rlt_dec 3 2); [lra|].
  destruct (Rlt_dec 3 3); [lra|]. reflexivity.
Qed.

Example count_two_of_three : count_equal [1; 2; 3]%nat [1; 0; 3]%nat = Ok 2%nat.
Proof. reflexivity. Qed.

Example count_broadcast : count_equal [1; 2; 1]%nat [1%nat] = Ok 2%nat.
Proof. reflexivity. Qed.

Example reset_next_pass :
  iter_current (iter_reset iter_shuffled) = [batch_01; batch_20] /\
  iter_current (iter_reset (iter_reset iter_shuffled)) = [batch_21; batch_02].
Proof. split; reflexivity. Qed.

Example iterate_after_the_end :
  fst (iterate TrainData (seek TrainData 1 world_one)) = [].
Proof. reflexivity. Qed.

Example SGD_one_vector :
  exists h' a b,
    SGD [0%nat] (1 / 2) [ {| data := Vec [1; 2]; grad := Vec [2; 4] |} ] = Ok h' /\
    h' = [ {| data := Vec [a; b]; grad := Vec [2; 4] |} ] /\ a = 0 /\ b = 0.
Proof.
  eexists. eexists. eexists. split; [reflexivity|]. split; [reflexivity|].
  split; lra.
Qed.

(** ** Lists of reals *)

Lemma rect_Forall (c : nat) (m : mat) :
  rect c m = true <-> Forall (fun r => length r = c) m.
Proof.
  unfold rect. rewrite forallb_forall, Forall_forall.
  split; intros Hm r Hr.
  - apply Nat.eqb_eq. now apply Hm.
  - apply Nat.eqb_eq. now apply Hm.
Qed.

Lemma zipWith_length {A B C : Type} (f : A -> B -> C) (u : list A) (v : list B) :
  length u = length v -> length (zipWith f u v) = length u.
Proof.
  revert v. induction u as [|x u IH]; intros [|y v] Hl; simpl in *; try easy.
  f_equal. apply IH. lia.
Qed.

Lemma vzip_ok (f : R -> R -> R) (u v : vec) :
  length u = length v -> vzip f u v = Ok (zipWith f u v).
Proof.
  revert v. induction u as [|x u IH]; intros [|y v] Hl; simpl in *; try easy.
  rewrite IH by lia. reflexivity.
Qed.

Lemma vzip_inv (f : R -> R -> R) (u v w : vec) :
  vzip f u v = Ok w -> length u = length v /\ w = zipWith f u v.
Proof.
  revert v w. induction u as [|x u IH]; intros [|y v] w Hz; simpl in *; try easy.
  - now inversion Hz.
  - destruct (vzip f u v) as [t|] eqn:Ht; simpl in Hz; try easy.
    inversion Hz; subst. destruct (IH _ _ Ht) as [Hl ->]. split; auto.
Qed.

Lemma mzip_ok (f : R -> R -> R) (a b : mat) (c : nat) :
  length a = length b -> rect c a = true -> rect c b = true ->
  mzip f a b = Ok (zipWith (zipWith f) a b).
Proof.
  revert b. induction a as [|r a IH]; intros [|s b] Hl Ha Hb; simpl in *; try easy.
  apply andb_prop in Ha as [Hr Ha]. apply andb_prop in Hb as [Hs Hb].
  apply Nat.eqb_eq in Hr, Hs.
  rewrite vzip_ok by lia. simpl. rewrite IH by (auto; lia). reflexivity.
Qed.

Lemma rows_zip_ok (f : R -> R -> R) (a : mat) (v : vec) :
  rect (length v) a = true ->
  rows_zip f a v = Ok (map (fun r => zipWith f r v) a).
Proof.
  induction a as [|r a IH]; intros Ha; simpl in *; try easy.
  apply andb_prop in Ha as [Hr Ha]. apply Nat.eqb_eq in Hr.
  rewrite vzip_ok by lia. simpl. rewrite IH by auto. reflexivity.
Qed.


Lemma nth_map_lt {A B : Type} (f : A -> B) (l : list A) (j : nat) (d : B) (d' : A) :
  (j < length l)%nat -> nth j (map f l) d = f (nth j l d').
Proof.
  revert j. induction l as [|x l IH]; intros [|j] Hj; simpl in *; try lia; auto.
  apply IH. lia.
Qed.


Lemma vecmat_length (c : nat) (x : vec) (B : mat) :
  rect c B = true -> length (vecmat c x B) = c.
Proof.
  revert B. induction x as [|xk x IH]; intros [|row B] HB; simpl in *;
    try apply repeat_length.
  apply andb_prop in HB as [Hr HB]. apply Nat.eqb_eq in Hr.
  unfold vadd, vscale. rewrite zipWith_length; rewrite length_map; auto.
  now rewrite IH.
Qed.

Lemma Rsum_S (n : nat) (f : nat -> R) :
  Rsum (S n) f = f O + Rsum n (fun k => f (S k)).
Proof.
  unfold Rsum. simpl. f_equal. rewrite <- seq_shift, map_map. reflexivity.
Qed.

Lemma Rsum_ext (n : nat) (f g : nat -> R) :
  (forall k, (k < n)%nat -> f k = g k) -> Rsum n f = Rsum n g.
Proof.
  intros Hfg. unfold Rsum. f_equal. apply map_ext_in.
  intros k Hk. apply in_seq in Hk. apply Hfg. lia.
Qed.

Lemma vsum_Rsum (l : vec) : vsum l = Rsum (length l) (fun k => nth k l 0).
Proof.
  induction l as [|x l IH]; [reflexivity|].
  simpl length. rewrite Rsum_S. simpl. now rewrite IH.
Qed.


(** ** Softmax *)



Lemma exp32_exact (x : R) : - 104 <= x -> exp32 x = exp x.
Proof. intros Hx. unfold exp32. destruct (Rlt_dec x (- 104)); [lra|reflexivity]. Qed.


Lemma exp32_0 : exp32 0 = 1.
Proof. rewrite exp32_exact by lra. apply exp_0. Qed.







Lemma softmax_row_length (r : vec) : length (softmax_row r) = length r.
Proof. unfold softmax_row. now rewrite !length_map. Qed.







(** ** The model *)

Lemma ncols_rect (c : nat) (m : mat) : m <> [] -> rect c m = true -> ncols m = c.
Proof.
  destruct m as [|r m]; [easy|]. simpl. intros _ Hm.
  apply andb_prop in Hm as [Hr _]. now apply Nat.eqb_eq.
Qed.

Lemma rect_map {A : Type} (c : nat) (f : A -> vec) (m : list A) :
  (forall r, In r m -> length (f r) = c) -> rect c (map f m) = true.
Proof.
  intros Hf. apply rect_Forall, Forall_forall. intros r Hr.
  apply in_map_iff in Hr as (x & <- & Hx). now apply Hf.
Qed.

Lemma net_value (X W : mat) (b : vec) :
  W <> [] -> rect (length W) X = true -> rect (length b) W = true ->
  net (Ok (Mat W)) (Ok (Vec b)) (Ok (Mat X)) = Ok (Mat (net_rows X W b)).
Proof.
  intros HW HX HWb. unfold net. simpl.
  rewrite (ncols_rect _ _ HW HWb), HX, HWb. simpl.
  rewrite rows_zip_ok.
  - simpl. unfold net_rows, vadd. now rewrite !map_map.
  - apply rect_map. intros r _. now apply vecmat_length.
Qed.














(** ** Cross-entropy *)

Lemma nth_zipWith {A B C : Type} (f : A -> B -> C) (u : list A) (v : list B)
    (i : nat) (d : C) (du : A) (dv : B) :
  (i < length u)%nat -> (i < length v)%nat ->
  nth i (zipWith f u v) d = f (nth i u du) (nth i v dv).
Proof.
  revert v i. induction u as [|x u IH]; intros [|y v] [|i] Hu Hv; simpl in *;
    try lia; auto.
  apply IH; lia.
Qed.

Lemma zipWith_length_min {A B C : Type} (f : A -> B -> C) (u : list A) (v : list B) :
  length (zipWith f u v) = Nat.min (length u) (length v).
Proof.
  revert v. induction u as [|x u IH]; intros [|y v]; simpl; auto.
Qed.

Lemma Rsum_single (n l : nat) (f : nat -> R) :
  (l < n)%nat -> Rsum n (fun j => (if Nat.eqb j l then 1 else 0) * f j) = f l.
Proof.
  revert l f. induction n as [|n IH]; intros l f Hl; [lia|].
  rewrite Rsum_S. destruct l as [|l].
  - simpl. rewrite (Rsum_ext n _ (fun _ => 0)).
    + unfold Rsum. assert (Hz : forall s, vsum (map (fun _ : nat => 0) s) = 0).
      { induction s; simpl; lra. }
      rewrite Hz. lra.
    + intros k _. simpl. lra.
  - cbn [Nat.eqb]. rewrite (IH l (fun j => f (S j))) by lia. lra.
Qed.

Lemma one_hot_row_sum (depth l : nat) (row r : vec) :
  one_hot_at depth row l -> length r = depth ->
  vsum (zipWith Rmult row r) = nth l r 0.
Proof.
  intros (Hlen & Hl & Hrow) Hr.
  rewrite vsum_Rsum, zipWith_length by lia. rewrite Hlen.
  rewrite <- (Rsum_single depth l (fun j => nth j r 0)) by assumption.
  apply Rsum_ext. intros j Hj.
  rewrite (nth_zipWith Rmult row r j 0 0 0) by lia.
  now rewrite Hrow.
Qed.

Lemma Forall2_length_eq {A B : Type} (P : A -> B -> Prop) (u : list A) (v : list B) :
  Forall2 P u v -> length u = length v.
Proof. induction 1; simpl; auto. Qed.

Lemma Forall2_nth {A B : Type} (P : A -> B -> Prop) (u : list A) (v : list B)
    (i : nat) (du : A) (dv : B) :
  Forall2 P u v -> (i < length u)%nat -> P (nth i u du) (nth i v dv).
Proof.
  intros HF. revert i. induction HF; intros [|i] Hi; simpl in *; try lia; auto.
  apply IHHF. lia.
Qed.

(** C2.  For predictions [yhat] of shape N x 10 with entries in (0,1] and a
    one-hot label matrix [y] of the same shape, [cross_entropy] returns a
    vector of length N whose entry [i] is the negative logarithm of the
    probability [yhat] gives to the true class of sample [i]. *)
Theorem cross_entropy_true_class (yhat y : mat) (label : list nat) :
  rect 10 yhat = true ->
  (forall i j, (i < length yhat)%nat -> (j < 10)%nat -> 0 < entry yhat i j <= 1) ->
  length y = length yhat ->
  Forall2 (one_hot_at 10) y label ->
  exists loss : vec,
    cross_entropy (Ok (Mat yhat)) (Ok (Mat y)) = Ok (Vec loss) /\
    length loss = length yhat /\
    forall i, (i < length yhat)%nat ->
      nth i loss 0 = - ln (entry yhat i (nth i label O)).
Proof.
  intros Hyhat _ Hlen Hy.
  assert (Hrect : rect 10 y = true).
  { apply rect_Forall, Forall_forall. intros r Hr.
    apply In_nth with (d := []) in Hr as (i & Hi & <-).
    now destruct (Forall2_nth _ _ _ i [] O Hy Hi). }
  exists (map Ropp (map vsum (zipWith (zipWith Rmult) y (map (map ln) yhat)))).
  assert (Hln : rect 10 (map (map ln) yhat) = true).
  { apply rect_map. intros r Hr. rewrite length_map.
    apply rect_Forall in Hyhat. rewrite Forall_forall in Hyhat. now apply Hyhat. }
  split; [|split].
  - unfold cross_entropy. simpl.
    rewrite (mzip_ok Rmult y _ 10) by (rewrite ?length_map; auto).
    reflexivity.
  - rewrite !length_map, zipWith_length; rewrite ?length_map; auto.
  - intros i Hi.
    assert (Hi' : (i < length (zipWith (zipWith Rmult) y (map (map ln) yhat)))%nat).
    { rewrite zipWith_length; rewrite ?length_map; lia. }
    rewrite (nth_map_lt Ropp _ i 0 0) by (now rewrite length_map).
    rewrite (nth_map_lt vsum _ i 0 []) by assumption.
    rewrite (nth_zipWith _ y _ i _ [] []) by (rewrite ?length_map; lia).
    rewrite (nth_map_lt (map ln) yhat i _ []) by assumption.
    assert (Hrow : length (nth i yhat []) = 10%nat).
    { apply rect_Forall in Hyhat. rewrite Forall_forall in Hyhat.
      now apply Hyhat, nth_In. }
    assert (Hoh : one_hot_at 10 (nth i y []) (nth i label O)).
    { apply Forall2_nth; [assumption|lia]. }
    rewrite (one_hot_row_sum 10 (nth i label O)) by (rewrite ?length_map; auto).
    f_equal. unfold entry.
    destruct Hoh as (_ & Hl & _).
    now rewrite (nth_map_lt ln _ _ 0 0) by lia.
Qed.

Lemma cross_entropy_true_class_witness :
  exists loss : vec,
    cross_entropy (Ok (Mat yhat_one)) (Ok (Mat y_three)) = Ok (Vec loss) /\
    length loss = length yhat_one /\
    forall i, (i < length yhat_one)%nat ->
      nth i loss 0 = - ln (entry yhat_one i (nth i [3%nat] O)).
Proof.
  apply (cross_entropy_true_class yhat_one y_three [3%nat]).
  - reflexivity.
  - intros i j Hi Hj. simpl in Hi.
    assert (i = O) by lia. subst i.
    do 10 (destruct j as [|j]; [unfold entry; simpl; lra|]). lia.
  - reflexivity.
  - constructor; [|constructor].
    split; [reflexivity|]. split; [lia|].
    intros j Hj.
    do 10 (destruct j as [|j]; [reflexivity|]). lia.
Defined.

(** ** The L2 penalty *)

Lemma vsum_app (u v : vec) : vsum (u ++ v) = vsum u + vsum v.
Proof. induction u as [|x u IH]; simpl; [lra|]. rewrite IH. lra. Qed.

Lemma flatten_nd_map (f : R -> R) (a : NDArray) :
  flatten (nd_map f a) = map f (flatten a).
Proof.
  destruct a as [v|m]; simpl; [reflexivity|]. now rewrite concat_map.
Qed.

Lemma sum_of_squares_nonneg (l : list R) : 0 <= sum_of_squares l.
Proof.
  unfold sum_of_squares. induction l as [|x l IH]; simpl; [lra|].
  pose proof (pow2_ge_0 x). simpl in *. lra.
Qed.

Lemma l2_penalty_from (ps : list NDArray) (a : R) :
  fold_left (fun penalty param => nd_add penalty (nd_sum (nd_pow2 param)))
    (map Ok ps) (Ok (Vec [a]))
  = Ok (Vec [a + sum_of_squares (elements ps)]).
Proof.
  revert a. induction ps as [|p ps IH]; intros a.
  - simpl. unfold sum_of_squares. simpl. do 3 f_equal. lra.
  - cbn [map fold_left]. unfold nd_add at 2, nd_sum at 2, nd_pow2 at 2. simpl.
    rewrite IH. do 3 f_equal.
    unfold elements, sum_of_squares, val_pow2. simpl.
    rewrite flatten_nd_map, map_app, vsum_app. lra.
Qed.

(** C4.  For every parameter set, in particular a weight matrix together
    with a bias vector, [l2_penalty] returns one scalar (an array of shape
    (1,)): the sum of the squares of all elements of all parameters.  It is
    not negative. *)
Theorem l2_penalty_sum_of_squares (ps : list NDArray) (W : mat) (b : vec) :
  l2_penalty (map Ok ps) = Ok (Vec [sum_of_squares (elements ps)]) /\
  0 <= sum_of_squares (elements ps) /\
  l2_penalty [Ok (Mat W); Ok (Vec b)] =
    Ok (Vec [sum_of_squares (concat W) + sum_of_squares b]).
Proof.
  assert (Hgen : forall qs,
            l2_penalty (map Ok qs) = Ok (Vec [sum_of_squares (elements qs)])).
  { intros qs. unfold l2_penalty. simpl nd_zeros1. unfold val_zeros1.
    rewrite l2_penalty_from. do 3 f_equal. lra. }
  split; [|split].
  - apply Hgen.
  - apply sum_of_squares_nonneg.
  - change [Ok (Mat W); Ok (Vec b)] with (map (@Ok NDArray) [Mat W; Vec b]).
    rewrite (Hgen [Mat W; Vec b]). do 3 f_equal.
    unfold elements, sum_of_squares. simpl.
    rewrite app_nil_r, map_app, vsum_app. reflexivity.
Qed.

(** ** Reshaping a batch *)

Lemma chunks_rows (k fuel : nat) (l : list R) :
  k <> O -> (length l <= fuel)%nat -> (length l mod k = 0)%nat ->
  Forall (fun r => length r = k) (chunks fuel k l).
Proof.
  intros Hk. revert l. induction fuel as [|fuel IH]; intros l Hf Hm; simpl.
  - constructor.
  - destruct l as [|x l]; [constructor|].
    apply Nat.Div0.mod_divides in Hm as [c Hc].
    assert (Hc1 : c <> O) by (intros ->; simpl in Hc; nia).
    assert (Hge : (k <= length (x :: l))%nat) by (simpl in *; nia).
    constructor.
    + rewrite length_firstn. lia.
    + apply IH.
      * rewrite length_skipn. cbn [length] in *. lia.
      * rewrite length_skipn. apply Nat.Div0.mod_divides.
        exists (c - 1)%nat. cbn [length] in *. nia.
Qed.

Lemma reshape_rows_inv (k : nat) (a a' : NDArray) :
  reshape_rows k a = Ok a' ->
  exists X : mat, a' = Mat X /\ X <> [] /\ rect k X = true.
Proof.
  unfold reshape_rows. intros Hr.
  destruct (Nat.eqb (length (flatten a)) 0) eqn:H0; [discriminate|].
  destruct (Nat.eqb (length (flatten a) mod k) 0) eqn:Hm; [|discriminate].
  simpl in Hr. inversion Hr; subst. clear Hr.
  apply Nat.eqb_neq in H0. apply Nat.eqb_eq in Hm.
  assert (Hk : k <> O).
  { intros ->. simpl in Hm. lia. }
  eexists. split; [reflexivity|]. split.
  - destruct (flatten a) as [|x l]; [easy|]. simpl. discriminate.
  - apply rect_Forall. now apply chunks_rows.
Qed.

(** ** Evaluation *)

Lemma count_equal_map (f : vec -> nat) (X : mat) (label : list nat) :
  length (filter (fun pl => Nat.eqb (fst pl) (snd pl)) (combine (map f X) label)) =
  length (filter (fun xl => Nat.eqb (f (fst xl)) (snd xl)) (combine X label)).
Proof.
  revert label. induction X as [|x X IH]; intros [|l label]; simpl; auto.
  destruct (Nat.eqb (f x) l); simpl; now rewrite IH.
Qed.

Lemma filter_length_le {A : Type} (f : A -> bool) (l : list A) :
  (length (filter f l) <= length l)%nat.
Proof.
  induction l as [|x l IH]; simpl; [lia|]. destruct (f x); simpl; lia.
Qed.

Section Evaluate.
Variables (W : mat) (b : vec).
Hypothesis W_shape : length W = 784%nat.
Hypothesis W_rect : rect 10 W = true.
Hypothesis b_shape : length b = 10%nat.

Lemma net_global_value (h : heap) (X : mat) :
  param_data h W_loc = Ok (Mat W) -> param_data h b_loc = Ok (Vec b) ->
  rect 784 X = true ->
  net_global (Mat X) h = Ok (Mat (net_rows X W b), h).
Proof.
  intros HhW Hhb HX. unfold net_global. rewrite HhW, Hhb, net_value.
  - reflexivity.
  - destruct W; [discriminate|easy].
  - now rewrite W_shape.
  - now rewrite b_shape.
Qed.

Lemma accuracy_loop_run (h : heap) (batches : list Batch) (numerator denominator : nat) :
  param_data h W_loc = Ok (Mat W) -> param_data h b_loc = Ok (Vec b) ->
  forallb batch_ok batches = true ->
  accuracy_loop net_global batches numerator denominator h =
  Ok ((numerator + correctly_classified W b (samples_seen batches))%nat,
      (denominator + length (samples_seen batches))%nat, h).
Proof.
  intros HhW Hhb. revert numerator denominator.
  induction batches as [|batch rest IH]; intros numerator denominator Hok.
  - simpl. unfold correctly_classified, samples_seen. simpl.
    now rewrite !Nat.add_0_r.
  - simpl in Hok. apply andb_prop in Hok as [Hb Hrest].
    unfold batch_ok in Hb. cbn [accuracy_loop].
    unfold samples_seen. cbn [map concat]. unfold batch_samples at 1 3.
    destruct (reshape_rows 784 (batch_data batch)) as [a|] eqn:Hr; [|discriminate].
    destruct (reshape_rows_inv _ _ _ Hr) as (X & -> & HXne & HX).
    simpl in Hb. apply Nat.eqb_eq in Hb.
    cbn [rbind]. rewrite net_global_value by assumption.
    cbn [rbind val_argmax]. unfold count_equal.
    assert (Hlen : length (map argmax_row (net_rows X W b)) =
                   length (batch_label batch)).
    { unfold net_rows. now rewrite !length_map. }
    rewrite Hlen, Nat.eqb_refl. cbn [rbind shape0].
    rewrite IH by assumption. do 2 f_equal.
    f_equal.
    + unfold correctly_classified. rewrite filter_app, length_app.
      unfold net_rows. rewrite map_map.
      rewrite (count_equal_map
                 (fun x => argmax_row (softmax_row (vadd (vecmat (length b) x W) b)))).
      unfold predict. fold (samples_seen rest). lia.
    + rewrite length_app, length_combine. fold (samples_seen rest). lia.
Qed.
End Evaluate.

Lemma evaluate_accuracy_unfold (r : iter_ref) (net : callable) (w : World) :
  evaluate_accuracy r net w =
  ('(numerator, denominator, h) <-
     accuracy_loop net (iter_batches (get_iter r w)) 0 0 (store w) ;;
   if Nat.eqb denominator 0
   then Raise ZeroDivisionError
   else Ok (INR numerator / INR denominator,
            set_store h (set_iter r (iter_after (get_iter r w)) w))).
Proof. destruct r; reflexivity. Qed.

Lemma net_global_frame (X : NDArray) (h : heap) (y : NDArray) (h' : heap) :
  net_global X h = Ok (y, h') -> h' = h.
Proof.
  unfold net_global. intros Hn.
  destruct (net (param_data h W_loc) (param_data h b_loc) (Ok X)); simpl in Hn;
    now inversion Hn.
Qed.

(** Whatever model is passed in: if it leaves the store alone, so does the
    evaluation loop. *)
Lemma accuracy_loop_frame (net : callable) :
  (forall X h y h', net X h = Ok (y, h') -> h' = h) ->
  forall batches numerator denominator h n d h',
    accuracy_loop net batches numerator denominator h = Ok (n, d, h') -> h' = h.
Proof.
  intros Hnet. induction batches as [|batch rest IH];
    intros numerator denominator h n d h' Hrun; simpl in Hrun.
  - now inversion Hrun.
  - destruct (reshape_rows 784 (batch_data batch)) as [data|]; simpl in Hrun;
      [|discriminate].
    destruct (net data h) as [[output h1]|] eqn:Hn; simpl in Hrun; [|discriminate].
    apply Hnet in Hn. subst h1.
    destruct (val_argmax output) as [predictions|]; simpl in Hrun; [|discriminate].
    destruct (count_equal predictions (batch_label batch)) as [correct|];
      simpl in Hrun; [|discriminate].
    now apply IH in Hrun.
Qed.

Lemma evaluate_accuracy_inv (r : iter_ref) (w w' : World) (a : R) :
  evaluate_accuracy r net_global w = Ok (a, w') ->
  w' = set_iter r (iter_after (get_iter r w)) w.
Proof.
  rewrite evaluate_accuracy_unfold. intros Hrun.
  destruct (accuracy_loop net_global (iter_batches (get_iter r w)) 0 0 (store w))
    as [[[n d] h]|] eqn:Hloop; simpl in Hrun; [|discriminate].
  apply (accuracy_loop_frame net_global net_global_frame) in Hloop. subst h.
  destruct (Nat.eqb d 0); [discriminate|].
  inversion Hrun; subst. destruct r; reflexivity.
Qed.

Lemma samples_seen_nonempty (batches : list Batch) :
  batches <> [] -> forallb batch_ok batches = true ->
  (0 < length (samples_seen batches))%nat.
Proof.
  destruct batches as [|batch rest]; [easy|]. intros _ Hok.
  simpl in Hok. apply andb_prop in Hok as [Hb _].
  unfold samples_seen. cbn [map concat]. rewrite length_app.
  unfold batch_ok in Hb. unfold batch_samples.
  destruct (reshape_rows 784 (batch_data batch)) as [a|] eqn:Hr; [|discriminate].
  destruct (reshape_rows_inv _ _ _ Hr) as (X & -> & HXne & _).
  simpl in Hb. apply Nat.eqb_eq in Hb.
  rewrite length_combine, <- Hb, Nat.min_id.
  destruct X; [easy|simpl; lia].
Qed.

(** What one call computes on a well-formed iterator. *)
Lemma evaluate_accuracy_run (r : iter_ref) (w : World) (W : mat) (b : vec) :
  param_data (store w) W_loc = Ok (Mat W) ->
  param_data (store w) b_loc = Ok (Vec b) ->
  length W = 784%nat -> rect 10 W = true -> length b = 10%nat ->
  iter_batches (get_iter r w) <> [] ->
  forallb batch_ok (iter_batches (get_iter r w)) = true ->
  evaluate_accuracy r net_global w =
  Ok (INR (correctly_classified W b (samples_seen (iter_batches (get_iter r w)))) /
      INR (length (samples_seen (iter_batches (get_iter r w)))),
      set_iter r (iter_after (get_iter r w)) w).
Proof.
  intros HhW Hhb HlW HW Hb Hne Hok.
  rewrite evaluate_accuracy_unfold.
  rewrite (accuracy_loop_run W b HlW HW Hb) by assumption.
  cbn [rbind Nat.add].
  pose proof (samples_seen_nonempty _ Hne Hok) as Hpos.
  destruct (Nat.eqb_spec (length (samples_seen (iter_batches (get_iter r w)))) 0);
    [lia|].
  destruct r; reflexivity.
Qed.

(** C3, as the code has it.  For an iterator that presents at least one
    batch (every batch well formed: rows of 784 values, one label per row)
    and parameters of shape 784 x 10 and 10, [evaluate_accuracy] returns
    exactly the number of presented samples whose predicted class (the
    position of the largest model output) equals the label, divided by the
    number of presented samples; the value lies between 0 and 1. *)
Theorem evaluate_accuracy_fraction (r : iter_ref) (w : World) (W : mat) (b : vec) :
  param_data (store w) W_loc = Ok (Mat W) ->
  param_data (store w) b_loc = Ok (Vec b) ->
  length W = 784%nat -> rect 10 W = true -> length b = 10%nat ->
  iter_batches (get_iter r w) <> [] ->
  forallb batch_ok (iter_batches (get_iter r w)) = true ->
  exists (a : R) (w' : World),
    evaluate_accuracy r net_global w = Ok (a, w') /\
    a = INR (correctly_classified W b (samples_seen (iter_batches (get_iter r w)))) /
        INR (length (samples_seen (iter_batches (get_iter r w)))) /\
    0 <= a <= 1.
Proof.
  intros HhW Hhb HlW HW Hb Hne Hok.
  eexists. eexists. split; [|split].
  - now apply (evaluate_accuracy_run r w W b).
  - reflexivity.
  - pose proof (samples_seen_nonempty _ Hne Hok) as Hpos.
    pose proof (filter_length_le
      (fun xl => Nat.eqb (predict W b (fst xl)) (snd xl))
      (samples_seen (iter_batches (get_iter r w)))) as Hle.
    fold (correctly_classified W b (samples_seen (iter_batches (get_iter r w)))) in Hle.
    apply lt_INR in Hpos. apply le_INR in Hle. simpl in Hpos.
    pose proof (pos_INR (correctly_classified W b
      (samples_seen (iter_batches (get_iter r w))))) as H0.
    split.
    + apply Rmult_le_pos; [assumption|]. left. now apply Rinv_0_lt_compat.
    + apply Rmult_le_reg_r with
        (r := INR (length (samples_seen (iter_batches (get_iter r w)))));
        [assumption|].
      unfold Rdiv. rewrite Rmult_assoc, Rinv_l by lra. lra.
Qed.

(** C3 as stated fails for an iterator that presents no batch: the
    denominator is still [0.] at the division and no value is returned. *)
Lemma evaluate_accuracy_no_batches :
  evaluate_accuracy TestData net_global world_none = Raise ZeroDivisionError /\
  ~ exists (a : R) (w' : World),
      evaluate_accuracy TestData net_global world_none = Ok (a, w') /\ 0 <= a <= 1.
Proof.
  assert (Hraise : evaluate_accuracy TestData net_global world_none
                   = Raise ZeroDivisionError) by reflexivity.
  split; [exact Hraise|].
  intros (a & w' & Hrun & _). rewrite Hraise in Hrun. discriminate.
Qed.

Lemma evaluate_accuracy_fraction_witness :
  exists (a : R) (w' : World),
    evaluate_accuracy TestData net_global world_one = Ok (a, w') /\
    a = INR (correctly_classified W_zero b_zero
               (samples_seen (iter_batches (get_iter TestData world_one)))) /
        INR (length (samples_seen (iter_batches (get_iter TestData world_one)))) /\
    0 <= a <= 1.
Proof.
  apply (evaluate_accuracy_fraction TestData world_one W_zero b_zero);
    try reflexivity.
  discriminate.
Defined.

(** C8.  A call of [evaluate_accuracy] on the notebook's model leaves the
    parameter objects as they were: the store after the call (data and
    gradient buffers of [W] and [b]) is the store before it. *)
Theorem evaluate_accuracy_frame (r : iter_ref) (w w' : World) (a : R) :
  evaluate_accuracy r net_global w = Ok (a, w') -> store w' = store w.
Proof.
  intros Hrun. apply evaluate_accuracy_inv in Hrun. subst w'.
  destruct r; reflexivity.
Qed.

Lemma evaluate_accuracy_frame_witness :
  store (set_iter TestData (iter_after (get_iter TestData world_one)) world_one)
  = store world_one.
Proof.
  eapply (evaluate_accuracy_frame TestData world_one).
  apply (evaluate_accuracy_run TestData world_one W_zero b_zero);
    try reflexivity.
  discriminate.
Defined.

Lemma evaluate_accuracy_seek (r : iter_ref) (net : callable) (c : nat) (w : World) :
  evaluate_accuracy r net (seek r c w) = evaluate_accuracy r net w.
Proof. destruct r; reflexivity. Qed.

Lemma evaluate_accuracy_same_batches (r : iter_ref) (net : callable)
    (w1 w2 w1' : World) (a : R) :
  store w2 = store w1 ->
  iter_batches (get_iter r w2) = iter_batches (get_iter r w1) ->
  evaluate_accuracy r net w1 = Ok (a, w1') ->
  exists w2', evaluate_accuracy r net w2 = Ok (a, w2').
Proof.
  intros Hs Hb. rewrite !evaluate_accuracy_unfold, Hs, Hb.
  destruct (accuracy_loop net (iter_batches (get_iter r w1)) 0 0 (store w1))
    as [[[n d] h]|]; cbn [rbind]; [|discriminate].
  destruct (Nat.eqb d 0); [discriminate|].
  intros Hrun. inversion Hrun. eexists. reflexivity.
Qed.

Lemma Permutation_filter_length {A : Type} (f : A -> bool) (l l' : list A) :
  Permutation l l' -> length (filter f l) = length (filter f l').
Proof.
  induction 1 as [|x l l' _ IH|x y l|l l' l'' _ IH1 _ IH2]; simpl.
  - reflexivity.
  - destruct (f x); simpl; now rewrite IH.
  - destruct (f x), (f y); reflexivity.
  - now rewrite IH1.
Qed.

(** Two calls on iterators whose passes present the same samples up to
    order, under the same parameters. *)
Lemma evaluate_accuracy_permuted (r1 r2 : iter_ref) (w1 w2 : World)
    (W : mat) (b : vec) :
  params_shaped (store w1) W b -> params_shaped (store w2) W b ->
  iter_ok (get_iter r1 w1) -> iter_ok (get_iter r2 w2) ->
  Permutation (samples_seen (iter_batches (get_iter r1 w1)))
              (samples_seen (iter_batches (get_iter r2 w2))) ->
  exists (a : R) (w1' w2' : World),
    evaluate_accuracy r1 net_global w1 = Ok (a, w1') /\
    evaluate_accuracy r2 net_global w2 = Ok (a, w2').
Proof.
  intros (HW1 & Hb1 & [HlW HW] & Hb) (HW2 & Hb2 & _ & _) [Hne1 Hok1] [Hne2 Hok2] Hperm.
  eexists. eexists. eexists. split.
  - now apply (evaluate_accuracy_run r1 w1 W b).
  - rewrite (evaluate_accuracy_run r2 w2 W b) by assumption.
    unfold correctly_classified.
    rewrite (Permutation_filter_length _ _ _ Hperm).
    rewrite (Permutation_length Hperm). reflexivity.
Qed.

(** C10.  [evaluate_accuracy] resets the iterator first, so the position
    the iterator is at when the call is made does not matter.  A second
    call right after the first (same iterator, parameters untouched)
    returns the same value when its pass presents the same batches, and,
    for parameters of the notebook's shapes and well-formed passes, when
    its pass presents the same samples up to their order. *)
Theorem evaluate_accuracy_repeatable (r : iter_ref) (c : nat) (w w' : World) (a : R) :
  evaluate_accuracy r net_global w = Ok (a, w') ->
  evaluate_accuracy r net_global (seek r c w) = Ok (a, w') /\
  (iter_batches (get_iter r w') = iter_batches (get_iter r w) ->
   exists w'', evaluate_accuracy r net_global w' = Ok (a, w'')) /\
  (shaped (store w) -> iter_ok (get_iter r w) -> iter_ok (get_iter r w') ->
   Permutation (samples_seen (iter_batches (get_iter r w)))
               (samples_seen (iter_batches (get_iter r w'))) ->
   exists w'', evaluate_accuracy r net_global w' = Ok (a, w'')).
Proof.
  intros Hrun.
  pose proof (evaluate_accuracy_inv _ _ _ _ Hrun) as Hw'.
  assert (Hstore : store w' = store w) by (subst w'; destruct r; reflexivity).
  split; [|split].
  - now rewrite evaluate_accuracy_seek.
  - intros Hsame. now apply (evaluate_accuracy_same_batches r net_global w w' w').
  - intros (W & b & Hs) Hok Hok' Hperm.
    assert (Hs' : params_shaped (store w') W b) by (now rewrite Hstore).
    destruct (evaluate_accuracy_permuted r r w w' W b Hs Hs' Hok Hok' Hperm)
      as (a0 & w1 & w2 & Hrun1 & Hrun2).
    rewrite Hrun in Hrun1. inversion Hrun1; subst a0 w1.
    exists w2. exact Hrun2.
Qed.

Lemma evaluate_accuracy_repeatable_witness :
  evaluate_accuracy TestData net_global (seek TestData 5 world_one)
    = Ok (acc_one, world_one_after) /\
  (iter_batches (get_iter TestData world_one_after)
     = iter_batches (get_iter TestData world_one) ->
   exists w'', evaluate_accuracy TestData net_global world_one_after
               = Ok (acc_one, w'')) /\
  (shaped (store world_one) -> iter_ok (get_iter TestData world_one) ->
   iter_ok (get_iter TestData world_one_after) ->
   Permutation (samples_seen (iter_batches (get_iter TestData world_one)))
               (samples_seen (iter_batches (get_iter TestData world_one_after))) ->
   exists w'', evaluate_accuracy TestData net_global world_one_after
               = Ok (acc_one, w'')).
Proof.
  apply (evaluate_accuracy_repeatable TestData 5 world_one).
  apply (evaluate_accuracy_run TestData world_one W_zero b_zero);
    try reflexivity.
  discriminate.
Defined.

(** With all-zero parameters every sample gets the same ten probabilities
    and is predicted to be of class 0. *)
Lemma vecmat_W_zero (x : vec) (n : nat) :
  vecmat 10 x (repeat (repeat 0 10%nat) n) = repeat 0 10%nat.
Proof.
  revert n. induction x as [|xk x IH]; intros [|n]; try reflexivity.
  cbn [repeat vecmat]. change (repeat 0 10%nat :: repeat (repeat 0 10%nat) n)
    with (repeat (repeat 0 10%nat) (S n)).
  cbn [repeat vecmat]. rewrite IH. unfold vadd, vscale. cbn.
  repeat (f_equal; try lra).
Qed.

Lemma softmax_row_zero : softmax_row (repeat 0 10%nat) = repeat (1 / 10) 10%nat.
Proof.
  unfold softmax_row.
  assert (Hmax : vmax (repeat 0 10%nat) = 0).
  { cbn. repeat (rewrite (Rmax_left 0 0) by lra). reflexivity. }
  rewrite Hmax. cbn [repeat map].
  replace (0 - 0) with 0 by lra. rewrite exp32_0.
  cbn [vsum fold_right]. repeat (f_equal; try lra).
Qed.

Lemma net_rows_zero (X : mat) :
  net_rows X W_zero b_zero = map (fun _ => repeat (1 / 10) 10%nat) X.
Proof.
  unfold net_rows. apply map_ext. intros x.
  change (length b_zero) with 10%nat. unfold W_zero.
  rewrite vecmat_W_zero.
  replace (vadd (repeat 0 10%nat) b_zero) with (repeat 0 10%nat).
  - apply softmax_row_zero.
  - unfold vadd, b_zero. cbn. repeat (f_equal; try lra).
Qed.

Lemma predict_zero (x : vec) : predict W_zero b_zero x = 0%nat.
Proof.
  unfold predict. change (length b_zero) with 10%nat. unfold W_zero.
  rewrite vecmat_W_zero.
  replace (vadd (repeat 0 10%nat) b_zero) with (repeat 0 10%nat).
  - rewrite softmax_row_zero. cbn.
    repeat (destruct (Rlt_dec (1 / 10) (1 / 10)) as [Hlt|_]; [lra|]).
    reflexivity.
  - unfold vadd, b_zero. cbn. repeat (f_equal; try lra).
Qed.

Lemma correctly_classified_zero (s : list (vec * nat)) :
  correctly_classified W_zero b_zero s =
  length (filter (fun xl => Nat.eqb 0 (snd xl)) s).
Proof.
  unfold correctly_classified. f_equal. apply filter_ext.
  intros xl. now rewrite predict_zero.
Qed.

(** C10 as stated fails for an iterator whose [reset()] reshuffles: the
    second pass pads its last batch with another sample than the first, and
    the second call returns another value, with the parameters untouched. *)
Lemma evaluate_accuracy_reshuffled :
  exists (a1 a2 : R) (w1 w2 : World),
    evaluate_accuracy TestData net_global world_shuffled = Ok (a1, w1) /\
    evaluate_accuracy TestData net_global w1 = Ok (a2, w2) /\
    store w1 = store world_shuffled /\ a1 <> a2.
Proof.
  eexists. eexists. eexists. eexists. split; [|split; [|split]].
  - apply (evaluate_accuracy_run TestData world_shuffled W_zero b_zero);
      try reflexivity.
    discriminate.
  - apply (evaluate_accuracy_run TestData _ W_zero b_zero); try reflexivity.
    discriminate.
  - reflexivity.
  - rewrite !correctly_classified_zero.
    change (INR 2 / INR 4 <> INR 1 / INR 4).
    rewrite !INR_IZR_INZ. simpl. lra.
Qed.

(** ** Shapes *)

Lemma is_mat_rows (n c : nat) (m : mat) (r : vec) :
  is_mat n c m -> In r m -> length r = c.
Proof.
  intros [_ Hm] Hr. apply rect_Forall in Hm. rewrite Forall_forall in Hm. auto.
Qed.

Lemma is_mat_cons (n c : nat) (r : vec) (m : mat) :
  is_mat (S n) c (r :: m) <-> length r = c /\ is_mat n c m.
Proof.
  unfold is_mat. simpl. rewrite andb_true_iff, Nat.eqb_eq. intuition lia.
Qed.

Lemma is_mat_map {A : Type} (n c : nat) (f : A -> vec) (m : list A) :
  length m = n -> (forall r, In r m -> length (f r) = c) -> is_mat n c (map f m).
Proof.
  intros Hl Hf. split; [now rewrite length_map|]. now apply rect_map.
Qed.

Lemma is_mat_zipWith (n c : nat) (f : R -> R -> R) (A B : mat) :
  is_mat n c A -> is_mat n c B -> is_mat n c (zipWith (zipWith f) A B).
Proof.
  revert n B. induction A as [|r A IH]; intros n [|s B] [HlA HA] [HlB HB];
    simpl in *; subst n; try discriminate.
  - split; reflexivity.
  - apply is_mat_cons. apply andb_prop in HA as [Hr HA].
    apply andb_prop in HB as [Hs HB]. apply Nat.eqb_eq in Hr, Hs.
    split.
    + rewrite zipWith_length; lia.
    + apply IH; split; auto; lia.
Qed.

Lemma is_mat_zipWith_rows (n c : nat) (f : vec -> vec -> vec) (A B : mat) :
  (forall r s, length r = c -> length s = c -> length (f r s) = c) ->
  is_mat n c A -> is_mat n c B -> is_mat n c (zipWith f A B).
Proof.
  intros Hf. revert n B. induction A as [|r A IH]; intros n [|s B] [HlA HA] [HlB HB];
    simpl in *; subst n; try discriminate.
  - split; reflexivity.
  - apply is_mat_cons. apply andb_prop in HA as [Hr HA].
    apply andb_prop in HB as [Hs HB]. apply Nat.eqb_eq in Hr, Hs.
    split.
    + now apply Hf.
    + apply IH; split; auto; lia.
Qed.

Lemma is_mat_matmul (n c : nat) (A B : mat) :
  B <> [] -> length A = n -> rect c B = true -> is_mat n c (matmul A B).
Proof.
  intros HB Hl Hr. unfold matmul. apply is_mat_map; [assumption|].
  intros r _. rewrite (ncols_rect c B HB Hr). now apply vecmat_length.
Qed.

Lemma is_mat_transpose (n c : nat) (A : mat) :
  A <> [] -> is_mat n c A -> is_mat c n (transpose A).
Proof.
  intros HA [Hl Hr]. unfold transpose. rewrite (ncols_rect c A HA Hr). split.
  - now rewrite length_map, length_seq.
  - apply rect_map. intros k _. now rewrite length_map.
Qed.

Lemma colsum_length (n c : nat) (G : mat) :
  G <> [] -> is_mat n c G -> length (colsum G) = c.
Proof.
  intros HG [Hl Hr]. unfold colsum. rewrite (ncols_rect c G HG Hr).
  clear HG Hl. induction G as [|g G IH]; simpl.
  - apply repeat_length.
  - simpl in Hr. apply andb_prop in Hr as [Hg Hr]. apply Nat.eqb_eq in Hg.
    unfold vadd. rewrite zipWith_length; [assumption|].
    rewrite Hg. symmetry. now apply IH.
Qed.

Lemma is_mat_nonempty (n c : nat) (m : mat) : is_mat (S n) c m -> m <> [].
Proof. intros [Hl _]. destruct m; [discriminate|easy]. Qed.

(** ** One training step: forward pass *)

Section Forward.
Variables (env : loc -> result NDArray) (W : mat) (b : vec) (X y : mat) (n : nat).
Hypothesis env_W : env W_loc = Ok (Mat W).
Hypothesis env_b : env b_loc = Ok (Vec b).
Hypothesis W_shape : is_mat 784 10 W.
Hypothesis b_shape : length b = 10%nat.
Hypothesis X_shape : is_mat (S n) 784 X.
Hypothesis y_shape : is_mat (S n) 10 y.

Lemma W_nonempty : W <> [].
Proof. exact (is_mat_nonempty _ _ _ W_shape). Qed.

Lemma logits_shape : is_mat (S n) 10 (logits X W b).
Proof.
  assert (Hmm : is_mat (S n) 10 (matmul X W)).
  { apply is_mat_matmul; [apply W_nonempty|apply X_shape|apply W_shape]. }
  unfold logits. apply is_mat_map; [apply Hmm|].
  intros r Hr. pose proof (is_mat_rows _ _ _ _ Hmm Hr) as Hlen.
  rewrite zipWith_length; lia.
Qed.

Lemma probabilities_shape : is_mat (S n) 10 (probabilities X W b).
Proof.
  unfold probabilities. apply is_mat_map; [apply logits_shape|].
  intros r Hr. rewrite softmax_row_length.
  exact (is_mat_rows _ _ _ _ logits_shape Hr).
Qed.

Lemma eval_dot :
  eval env (EDot (EConst (Mat X)) (EParam W_loc)) = Ok (Mat (matmul X W)).
Proof.
  cbn [eval nd_dot value_ops]. rewrite env_W.
  destruct W_shape as [HlW HW], X_shape as [HlX HX].
  cbn [bind2 rbind val_dot]. unfold matmul.
  rewrite (ncols_rect 10 W W_nonempty HW), HlW, HX, HW. reflexivity.
Qed.

Lemma eval_logits : eval env (linear_graph X) = Ok (Mat (logits X W b)).
Proof.
  unfold linear_graph. cbn [eval nd_add nd_dot value_ops].
  rewrite env_W, env_b.
  destruct W_shape as [HlW HW], X_shape as [HlX HX].
  cbn [bind2 rbind val_dot]. unfold logits, matmul.
  rewrite (ncols_rect 10 W W_nonempty HW), HlW, HX, HW.
  cbn [andb bind2 rbind val_add].
  rewrite rows_zip_ok; [reflexivity|].
  rewrite b_shape. apply rect_map. intros r _. now apply vecmat_length.
Qed.

Lemma eval_probabilities :
  eval env (ESoftmax (linear_graph X)) = Ok (Mat (probabilities X W b)).
Proof.
  change (eval env (ESoftmax (linear_graph X)))
    with (nd_softmax (eval env (linear_graph X))).
  rewrite eval_logits. reflexivity.
Qed.

Lemma eval_log :
  eval env (ELog (ESoftmax (linear_graph X)))
  = Ok (Mat (map (map ln) (probabilities X W b))).
Proof.
  change (eval env (ELog (ESoftmax (linear_graph X))))
    with (nd_log (eval env (ESoftmax (linear_graph X)))).
  rewrite eval_probabilities. reflexivity.
Qed.

Lemma eval_terms :
  eval env (EMul (EConst (Mat y)) (ELog (ESoftmax (linear_graph X))))
  = Ok (Mat (ce_terms (probabilities X W b) y)).
Proof.
  change (eval env (EMul (EConst (Mat y)) (ELog (ESoftmax (linear_graph X)))))
    with (nd_mul (Ok (Mat y)) (eval env (ELog (ESoftmax (linear_graph X))))).
  rewrite eval_log. cbn [nd_mul value_ops bind2 rbind val_mul].
  rewrite (mzip_ok Rmult y (map (map ln) (probabilities X W b)) 10).
  - reflexivity.
  - rewrite length_map.
    destruct y_shape as [-> _], probabilities_shape as [-> _]. reflexivity.
  - apply y_shape.
  - apply rect_map. intros r Hr. rewrite length_map.
    exact (is_mat_rows _ _ _ _ probabilities_shape Hr).
Qed.

Lemma eval_ce :
  eval env (ce_graph X y) = Ok (Vec (ce_loss (probabilities X W b) y)).
Proof.
  change (eval env (ce_graph X y))
    with (nd_neg (nd_sum_exclude0
            (eval env (EMul (EConst (Mat y)) (ELog (ESoftmax (linear_graph X))))))).
  rewrite eval_terms. reflexivity.
Qed.

Lemma backward_ce :
  backward_from env (ce_graph X y)
    (Vec (map (fun _ => 1) (ce_loss (probabilities X W b) y)))
  = Ok [(W_loc, Mat (matmul (transpose X) (logits_adj (probabilities X W b) y)));
        (b_loc, Vec (colsum (logits_adj (probabilities X W b) y)))].
Proof.
  change (ce_graph X y)
    with (ENeg (ESumExclude0
            (EMul (EConst (Mat y)) (ELog (ESoftmax (linear_graph X)))))).
  cbn [backward_from].
  rewrite eval_terms, eval_log, eval_probabilities.
  unfold linear_graph. cbn [backward_from]. rewrite eval_dot.
  cbn [eval rbind]. rewrite env_W, env_b. cbn [rbind].
  reflexivity.
Qed.
End Forward.

(** ** One training step: the penalty and the gradients *)

Section Penalty.
Variables (env : loc -> result NDArray) (W : mat) (b : vec).
Hypothesis env_W : env W_loc = Ok (Mat W).
Hypothesis env_b : env b_loc = Ok (Vec b).

Lemma eval_penalty : eval env penalty_graph = Ok (Vec [penalty_value W b]).
Proof.
  cbv [penalty_graph l2_penalty params map fold_left nd_add nd_sum nd_pow2
       nd_zeros1 graph_ops].
  cbn [eval]. rewrite env_W, env_b. reflexivity.
Qed.

Lemma backward_penalty (g : R) :
  backward_from env penalty_graph (Vec [g]) =
  Ok [(W_loc, penalty_adj g (Mat W)); (b_loc, penalty_adj g (Vec b))].
Proof.
  cbv [penalty_graph l2_penalty params map fold_left nd_add nd_sum nd_pow2
       nd_zeros1 graph_ops].
  cbn [backward_from eval]. rewrite env_W, env_b. reflexivity.
Qed.
End Penalty.

Section Backward.
Variables (env : loc -> result NDArray) (W : mat) (b : vec) (X y : mat) (n : nat).
Hypothesis env_W : env W_loc = Ok (Mat W).
Hypothesis env_b : env b_loc = Ok (Vec b).
Hypothesis W_shape : is_mat 784 10 W.
Hypothesis b_shape : length b = 10%nat.
Hypothesis X_shape : is_mat (S n) 784 X.
Hypothesis y_shape : is_mat (S n) 10 y.

Lemma eval_loss (o : objective) :
  eval env (loss_graph o (Mat X) (Mat y)) = Ok (loss_value o X W b y).
Proof.
  destruct o as [|l2_strength].
  - apply (eval_ce env W b X y n); assumption.
  - change (eval env (loss_graph (Regularized l2_strength) (Mat X) (Mat y)))
      with (nd_add (nd_sum (eval env (ce_graph X y)))
                   (nd_smul l2_strength (eval env penalty_graph))).
    rewrite (eval_ce env W b X y n), (eval_penalty env W b) by assumption.
    reflexivity.
Qed.

Lemma backward_loss (o : objective) :
  backward_from env (loss_graph o (Mat X) (Mat y)) (ones_like (loss_value o X W b y))
  = Ok (contributions o X W b y).
Proof.
  destruct o as [|l2_strength].
  - apply (backward_ce env W b X y n); assumption.
  - change (loss_graph (Regularized l2_strength) (Mat X) (Mat y))
      with (EAdd (ESum (ce_graph X y)) (ESmul l2_strength penalty_graph)).
    cbn [backward_from].
    change (eval env (ESum (ce_graph X y))) with (nd_sum (eval env (ce_graph X y))).
    change (eval env (ESmul l2_strength penalty_graph))
      with (nd_smul l2_strength (eval env penalty_graph)).
    rewrite (eval_ce env W b X y n), (eval_penalty env W b) by assumption.
    cbn [nd_sum nd_smul value_ops lift1 rbind].
    change (sum_adj (Vec (ce_loss (probabilities X W b) y)) _)
      with (Vec (map (fun _ : R => 1) (ce_loss (probabilities X W b) y))).
    change (val_smul l2_strength (add_adj _ _ _)) with (Vec [l2_strength * 1]).
    rewrite (backward_ce env W b X y n), (backward_penalty env W b) by assumption.
    reflexivity.
Qed.
End Backward.

(** *** Shapes of the gradients *)

Lemma is_mat_map_map (n c : nat) (f : R -> R) (m : mat) :
  is_mat n c m -> is_mat n c (map (map f) m).
Proof.
  intros Hm. apply is_mat_map; [apply Hm|].
  intros r Hr. rewrite length_map. exact (is_mat_rows _ _ _ _ Hm Hr).
Qed.

Lemma is_mat_spread (n c : nat) (g : vec) (m : mat) :
  length g = n -> is_mat n c m ->
  is_mat n c (zipWith (fun gi row => map (fun _ : R => gi) row) g m).
Proof.
  revert n m. induction g as [|gi g IH]; intros n [|r m] Hg [Hl Hm];
    simpl in *; subst n; try discriminate.
  - split; reflexivity.
  - apply andb_prop in Hm as [Hr Hm]. apply Nat.eqb_eq in Hr.
    apply is_mat_cons. split; [now rewrite length_map|].
    apply IH; [lia|]. split; [lia|assumption].
Qed.

Lemma one_hot_shape (label : list nat) (depth : nat) :
  is_mat (length label) depth (map (one_hot_row depth) label).
Proof.
  apply is_mat_map; [reflexivity|].
  intros l _. unfold one_hot_row. now rewrite length_map, length_seq.
Qed.

Lemma softmax_adj_row_length (s g : vec) (c : nat) :
  length s = c -> length g = c -> length (softmax_adj_row s g) = c.
Proof.
  intros Hs Hg. unfold softmax_adj_row. rewrite zipWith_length; lia.
Qed.

Lemma zipWith_zero_r (f : R -> R -> R) (c : R) (g w : vec) :
  (forall x, f x c = 0) -> length g = length w ->
  zipWith Rplus g (zipWith f w (map (fun _ => c) (map (fun x => x ^ 2) w))) = g.
Proof.
  intros Hf. revert w. induction g as [|x g IH]; intros [|z w] Hl;
    simpl in *; try discriminate; auto.
  rewrite Hf, IH by lia. f_equal. lra.
Qed.

Lemma mat_zipWith_zero_r (f : R -> R -> R) (c : R) (G W : mat) (n k : nat) :
  (forall x, f x c = 0) -> is_mat n k G -> is_mat n k W ->
  zipWith (zipWith Rplus) G
    (zipWith (zipWith f) W (map (map (fun _ => c)) (map (map (fun x => x ^ 2)) W)))
  = G.
Proof.
  intros Hf. revert n W. induction G as [|g G IH]; intros n [|r W] [HlG HG] [HlW HW];
    simpl in *; subst n; try discriminate; auto.
  apply andb_prop in HG as [Hg HG]. apply andb_prop in HW as [Hr HW].
  apply Nat.eqb_eq in Hg, Hr.
  rewrite zipWith_zero_r by (auto; lia). f_equal.
  apply (IH (length G)); split; auto; lia.
Qed.

Section Gradients.
Variables (W : mat) (b : vec) (X y : mat) (n : nat).
Hypothesis W_shape : is_mat 784 10 W.
Hypothesis b_shape : length b = 10%nat.
Hypothesis X_shape : is_mat (S n) 784 X.
Hypothesis y_shape : is_mat (S n) 10 y.

Lemma ce_terms_shape : is_mat (S n) 10 (ce_terms (probabilities X W b) y).
Proof.
  unfold ce_terms. apply is_mat_zipWith; [assumption|].
  apply is_mat_map_map. now apply (probabilities_shape W b X n).
Qed.

Lemma logits_adj_shape : is_mat (S n) 10 (logits_adj (probabilities X W b) y).
Proof.
  pose proof (probabilities_shape W b X n W_shape b_shape X_shape) as HY.
  pose proof ce_terms_shape as HT.
  unfold logits_adj.
  apply is_mat_zipWith_rows;
    [intros r s; apply softmax_adj_row_length|assumption|].
  apply is_mat_zipWith; [|assumption].
  apply is_mat_zipWith; [|assumption].
  apply is_mat_spread; [|assumption].
  unfold ce_loss. rewrite !length_map. apply HT.
Qed.

Lemma grad_W_shape :
  is_mat 784 10 (matmul (transpose X) (logits_adj (probabilities X W b) y)).
Proof.
  pose proof logits_adj_shape as HG.
  apply is_mat_matmul.
  - exact (is_mat_nonempty _ _ _ HG).
  - apply (is_mat_transpose (S n) 784 X); [|assumption].
    exact (is_mat_nonempty _ _ _ X_shape).
  - apply HG.
Qed.

Lemma grad_b_shape : length (colsum (logits_adj (probabilities X W b) y)) = 10%nat.
Proof.
  pose proof logits_adj_shape as HG.
  apply (colsum_length (S n)); [|assumption].
  exact (is_mat_nonempty _ _ _ HG).
Qed.

(** With strength 0 the penalty adds nothing to any gradient. *)
Lemma zero_strength_gradients (p : loc) :
  grad_of p (contributions (Regularized 0) X W b y) =
  grad_of p (contributions Unregularized X W b y).
Proof.
  destruct p as [|[|p]]; cbn [contributions app grad_of Nat.eqb W_loc b_loc];
    try reflexivity.
  - f_equal. cbn [penalty_adj pow2_adj sum_adj val_pow2 nd_map nd_zipWith flatten hd].
    f_equal. apply (mat_zipWith_zero_r _ _ _ _ 784 10);
      [intros x; lra|apply grad_W_shape|assumption].
  - f_equal. cbn [penalty_adj pow2_adj sum_adj val_pow2 nd_map nd_zipWith flatten hd].
    f_equal. apply zipWith_zero_r; [intros x; lra|].
    now rewrite grad_b_shape.
Qed.

(** Each parameter receives a gradient of its own shape, and nothing else
    in the store receives one. *)
Lemma gradients_shaped (o : objective) :
  exists (G : mat) (g : vec),
    grad_of W_loc (contributions o X W b y) = Some (Mat G) /\ is_mat 784 10 G /\
    grad_of b_loc (contributions o X W b y) = Some (Vec g) /\ length g = 10%nat /\
    forall p, (2 <= p)%nat -> grad_of p (contributions o X W b y) = None.
Proof.
  destruct o as [|l2_strength];
    cbn [contributions app grad_of Nat.eqb W_loc b_loc penalty_adj pow2_adj sum_adj
         val_pow2 nd_map nd_zipWith flatten hd].
  - eexists. eexists. split; [reflexivity|]. split; [apply grad_W_shape|].
    split; [reflexivity|]. split; [apply grad_b_shape|].
    intros [|[|p]] Hp; try lia. reflexivity.
  - eexists. eexists. split; [reflexivity|]. split.
    { apply is_mat_zipWith; [apply grad_W_shape|].
      apply is_mat_zipWith; [assumption|].
      now apply is_mat_map_map, is_mat_map_map. }
    split; [reflexivity|]. split.
    { rewrite zipWith_length; [apply grad_b_shape|].
      rewrite grad_b_shape, zipWith_length; rewrite ?length_map; lia. }
    intros [|[|p]] Hp; try lia. reflexivity.
Qed.
End Gradients.

(** ** The store: [backward] and [SGD] *)

Lemma update_length {A : Type} (i : nat) (x : A) (l : list A) :
  length (update i x l) = length l.
Proof.
  revert i. induction l as [|y l IH]; intros [|i]; simpl; auto.
Qed.

Lemma nth_error_update_same {A : Type} (i : nat) (x y : A) (l : list A) :
  nth_error l i = Some y -> nth_error (update i x l) i = Some x.
Proof.
  revert i. induction l as [|z l IH]; intros [|i] Hi; simpl in *;
    try discriminate; auto.
Qed.

Lemma nth_error_update_other {A : Type} (i j : nat) (x : A) (l : list A) :
  i <> j -> nth_error (update i x l) j = nth_error l j.
Proof.
  revert i j. induction l as [|z l IH]; intros [|i] [|j] Hij; simpl;
    try reflexivity; try lia.
  apply IH. lia.
Qed.

Lemma nth_error_write_grads (contribs : list (loc * NDArray)) (k p : nat) (h : heap) :
  nth_error (write_grads contribs k h) p =
  option_map (fun q => match grad_of (k + p)%nat contribs with
                       | Some g => {| data := data q; grad := g |}
                       | None => q
                       end) (nth_error h p).
Proof.
  revert k p. induction h as [|q h IH]; intros k [|p]; simpl; auto.
  - now rewrite Nat.add_0_r.
  - rewrite IH. now rewrite Nat.add_succ_r.
Qed.

Lemma write_grads_ext (c1 c2 : list (loc * NDArray)) (k : nat) (h : heap) :
  (forall p, grad_of p c1 = grad_of p c2) ->
  write_grads c1 k h = write_grads c2 k h.
Proof.
  intros Hc. revert k. induction h as [|q h IH]; intros k; simpl; [reflexivity|].
  now rewrite Hc, IH.
Qed.

Lemma zipWith_map_r {A B C D : Type} (f : A -> C -> D) (k : B -> C)
    (u : list A) (v : list B) :
  zipWith f u (map k v) = zipWith (fun x y => f x (k y)) u v.
Proof.
  revert v. induction u as [|x u IH]; intros [|z v]; simpl; auto.
  now rewrite IH.
Qed.

Lemma val_sub_smul (lr : R) (a g : NDArray) :
  same_shape a g ->
  val_sub a (val_smul lr g) = Ok (nd_zipWith (fun x gi => x - lr * gi) a g).
Proof.
  destruct a as [u|A], g as [v|G]; simpl; try easy.
  - intros Hl. rewrite vzip_ok by (now rewrite length_map). simpl.
    now rewrite zipWith_map_r.
  - intros HF. induction HF as [|r s A G Hrs HF IH]; [reflexivity|].
    simpl. rewrite vzip_ok by (now rewrite length_map). simpl.
    destruct (mzip Rminus A (map (map (Rmult lr)) G)) as [m|]; simpl in *;
      [|discriminate].
    inversion IH; subst. now rewrite zipWith_map_r.
Qed.

Lemma is_mat_same_shape (n c : nat) (A G : mat) :
  is_mat n c A -> is_mat n c G -> same_shape (Mat A) (Mat G).
Proof.
  simpl. revert n G. induction A as [|r A IH]; intros n [|s G] [HlA HA] [HlG HG];
    simpl in *; subst n; try discriminate; constructor.
  - apply andb_prop in HA as [Hr _]. apply andb_prop in HG as [Hs _].
    apply Nat.eqb_eq in Hr, Hs. lia.
  - apply andb_prop in HA as [_ HA]. apply andb_prop in HG as [_ HG].
    apply (IH (length A)); split; auto; lia.
Qed.

(** [SGD] on a list of distinct parameter objects whose gradient buffers
    have the parameters' shapes. *)
Lemma SGD_run (ps : list loc) (lr : R) (h : heap) :
  NoDup ps ->
  (forall p, In p ps ->
     exists q, nth_error h p = Some q /\ same_shape (data q) (grad q)) ->
  exists h' : heap,
    SGD ps lr h = Ok h' /\ length h' = length h /\
    (forall p q, In p ps -> nth_error h p = Some q ->
       nth_error h' p = Some (sgd_param lr q)) /\
    (forall p, ~ In p ps -> nth_error h' p = nth_error h p).
Proof.
  revert h. induction ps as [|p ps IH]; intros h Hnd Hps.
  - exists h. simpl. repeat split; auto. intros p q [].
  - inversion Hnd as [|p0 ps0 Hnotin Hnd']; subst.
    destruct (Hps p (or_introl eq_refl)) as (q & Hq & Hshape).
    set (h1 := update p (sgd_param lr q) h).
    assert (Hother : forall p', p <> p' -> nth_error h1 p' = nth_error h p').
    { intros p' Hne. unfold h1. now apply nth_error_update_other. }
    destruct (IH h1 Hnd') as (h' & Hrun & Hlen & Hin & Hout).
    { intros p' Hp'. destruct (Hps p' (or_intror Hp')) as (q' & Hq' & Hs').
      exists q'. split; [|assumption].
      rewrite Hother; [assumption|]. intros ->. contradiction. }
    exists h'. split; [|split; [|split]].
    + cbn [SGD]. unfold load. rewrite Hq. cbn [rbind].
      rewrite val_sub_smul by assumption. cbn [rbind]. exact Hrun.
    + rewrite Hlen. unfold h1. apply update_length.
    + intros p' q' [->|Hp'] Hq'.
      * rewrite Hout by assumption. unfold h1.
        rewrite Hq in Hq'. inversion Hq'; subst.
        eapply nth_error_update_same; eassumption.
      * apply Hin; [assumption|]. rewrite Hother; [assumption|].
        intros ->. contradiction.
    + intros p' Hp'. rewrite Hout by (intros Hc; apply Hp'; now right).
      apply Hother. intros ->. apply Hp'. now left.
Qed.

(** ** One training step as a whole *)

Lemma param_data_inv (h : heap) (p : loc) (a : NDArray) :
  param_data h p = Ok a -> exists q, nth_error h p = Some q /\ data q = a.
Proof.
  unfold param_data, load, rmap. destruct (nth_error h p) as [q|]; simpl;
    [|discriminate].
  intros Hq. inversion Hq. now exists q.
Qed.

Lemma batch_ok_inv (batch : Batch) :
  batch_ok batch = true ->
  exists (X : mat) (n : nat),
    reshape_rows 784 (batch_data batch) = Ok (Mat X) /\
    is_mat (S n) 784 X /\ length (batch_label batch) = S n.
Proof.
  unfold batch_ok. intros Hb.
  destruct (reshape_rows 784 (batch_data batch)) as [a|] eqn:Hr; [|discriminate].
  destruct (reshape_rows_inv _ _ _ Hr) as (X & -> & HXne & HX).
  simpl in Hb. apply Nat.eqb_eq in Hb.
  destruct X as [|x X]; [easy|].
  exists (x :: X), (length X). repeat split; auto.
Qed.

Lemma train_batch_run (o : objective) (i : nat) (batch : Batch) (w : World)
    (W : mat) (b : vec) :
  params_shaped (store w) W b -> batch_ok batch = true ->
  exists (X G : mat) (g : vec) (h' : heap),
    reshape_rows 784 (batch_data batch) = Ok (Mat X) /\
    grad_of W_loc
      (contributions o X W b (map (one_hot_row 10) (batch_label batch))) = Some (Mat G) /\
    grad_of b_loc
      (contributions o X W b (map (one_hot_row 10) (batch_label batch))) = Some (Vec g) /\
    SGD params (1 / 1000)
      (write_grads (contributions o X W b (map (one_hot_row 10) (batch_label batch)))
         0%nat (store w)) = Ok h' /\
    params_shaped h' (zipWith (zipWith sgd_step) W G) (zipWith sgd_step b g) /\
    train_batch o i batch w =
    Ok (set_moving_loss
          (next_moving_loss i (moving_loss w)
             (loss_value o X W b (map (one_hot_row 10) (batch_label batch))))
          (set_store h' w)).
Proof.
  intros (HhW & Hhb & HW & Hb) Hok.
  destruct (batch_ok_inv batch Hok) as (X & n & Hr & HX & Hlabel).
  set (y := map (one_hot_row 10) (batch_label batch)).
  assert (Hy : is_mat (S n) 10 y).
  { unfold y. rewrite <- Hlabel. apply one_hot_shape. }
  destruct (gradients_shaped W b X y n HW Hb HX Hy o)
    as (G & g & HgW & HG & Hgb & Hg & Hnone).
  set (c := contributions o X W b y) in *.
  destruct (param_data_inv _ _ _ HhW) as (qW & HqW & HdW).
  destruct (param_data_inv _ _ _ Hhb) as (qb & Hqb & Hdb).
  assert (H0 : nth_error (write_grads c 0%nat (store w)) W_loc
               = Some {| data := Mat W; grad := Mat G |}).
  { rewrite nth_error_write_grads, HqW. cbn [option_map Nat.add].
    now rewrite HgW, HdW. }
  assert (H1 : nth_error (write_grads c 0%nat (store w)) b_loc
               = Some {| data := Vec b; grad := Vec g |}).
  { rewrite nth_error_write_grads, Hqb. cbn [option_map Nat.add].
    now rewrite Hgb, Hdb. }
  destruct (SGD_run params (1 / 1000) (write_grads c 0%nat (store w)))
    as (h' & Hsgd & Hlen & Hin & Hout).
  { unfold params, W_loc, b_loc. repeat constructor; simpl; intuition lia. }
  { intros p [<-|[<-|[]]].
    - eexists. split; [exact H0|]. apply (is_mat_same_shape 784 10); assumption.
    - eexists. split; [exact H1|]. simpl. lia. }
  exists X, G, g, h'.
  split; [assumption|]. split; [assumption|]. split; [assumption|].
  split; [assumption|]. split.
  - pose proof (Hin W_loc _ (or_introl eq_refl) H0) as HW'.
    pose proof (Hin b_loc _ (or_intror (or_introl eq_refl)) H1) as Hb'.
    unfold params_shaped, param_data, load, rmap. rewrite HW', Hb'.
    split; [reflexivity|]. split; [reflexivity|]. split.
    + now apply is_mat_zipWith.
    + rewrite zipWith_length; lia.
  - unfold train_batch. rewrite Hr. cbn [rbind].
    change (one_hot (batch_label batch) 10) with (Mat y).
    rewrite (eval_loss (param_data (store w)) W b X y n) by assumption.
    cbn [rbind]. unfold backward.
    rewrite (backward_loss (param_data (store w)) W b X y n) by assumption.
    cbn [rbind]. fold c. rewrite Hsgd. reflexivity.
Qed.

Lemma train_batch_inv (o : objective) (i : nat) (batch : Batch) (w w' : World) :
  train_batch o i batch w = Ok w' ->
  exists (data loss : NDArray) (h_grad h' : heap),
    reshape_rows 784 (batch_data batch) = Ok data /\
    eval (param_data (store w)) (loss_graph o data (one_hot (batch_label batch) 10))
      = Ok loss /\
    backward (loss_graph o data (one_hot (batch_label batch) 10)) loss (store w)
      = Ok h_grad /\
    SGD params (1 / 1000) h_grad = Ok h' /\
    w' = set_moving_loss (next_moving_loss i (moving_loss w) loss) (set_store h' w).
Proof.
  unfold train_batch. intros Hrun.
  destruct (reshape_rows 784 (batch_data batch)) as [data|]; [|discriminate].
  cbn [rbind] in Hrun.
  destruct (eval (param_data (store w))
              (loss_graph o data (one_hot (batch_label batch) 10))) as [loss|] eqn:He;
    [|discriminate].
  cbn [rbind] in Hrun.
  destruct (backward (loss_graph o data (one_hot (batch_label batch) 10)) loss (store w))
    as [h_grad|] eqn:Hb; [|discriminate].
  cbn [rbind] in Hrun.
  destruct (SGD params (1 / 1000) h_grad) as [h'|] eqn:Hsgd; [|discriminate].
  cbn [rbind] in Hrun. inversion Hrun.
  exists data, loss, h_grad, h'. repeat split; auto.
Qed.

Lemma train_batches_app (o : objective) (i : nat) (bs1 bs2 : list Batch) (w : World) :
  train_batches o i (bs1 ++ bs2) w =
  (w1 <- train_batches o i bs1 w ;; train_batches o (i + length bs1) bs2 w1).
Proof.
  revert i w. induction bs1 as [|batch bs1 IH]; intros i w; simpl.
  - now rewrite Nat.add_0_r.
  - destruct (train_batch o i batch w) as [w1|]; simpl; [|reflexivity].
    rewrite IH. now rewrite Nat.add_succ_r.
Qed.

Lemma vzip_map_inv (f h : R -> R -> R) (k : R -> R) (u v w : vec) :
  (forall x y, f x (k y) = h x y) ->
  vzip f u (map k v) = Ok w -> w = zipWith h u v.
Proof.
  intros Hfk Hz. apply vzip_inv in Hz as [_ ->].
  rewrite zipWith_map_r. clear -Hfk. revert v.
  induction u as [|x u IH]; intros [|y v]; simpl; auto.
  now rewrite Hfk, IH.
Qed.

Lemma mzip_map_inv (f h : R -> R -> R) (k : R -> R) (A G M : mat) :
  (forall x y, f x (k y) = h x y) ->
  mzip f A (map (map k) G) = Ok M -> M = zipWith (zipWith h) A G.
Proof.
  intros Hfk. revert G M. induction A as [|r A IH]; intros [|s G] M Hz;
    simpl in Hz; try discriminate.
  - now inversion Hz.
  - destruct (vzip f r (map k s)) as [t|] eqn:Ht; [|discriminate].
    cbn [rbind] in Hz.
    destruct (mzip f A (map (map k) G)) as [m|] eqn:Hm; [|discriminate].
    cbn [rbind] in Hz. inversion Hz; subst. simpl.
    now rewrite (vzip_map_inv f h k r s t Hfk Ht), (IH G m Hm).
Qed.

Lemma val_sub_smul_inv (lr : R) (a g v : NDArray) :
  val_sub a (val_smul lr g) = Ok v ->
  v = nd_zipWith (fun x gi => x - lr * gi) a g.
Proof.
  destruct a as [u|A], g as [s|G]; simpl; try discriminate.
  - destruct (vzip Rminus u (map (Rmult lr) s)) as [t|] eqn:Ht; [|discriminate].
    cbn [rbind]. intros Hv. inversion Hv. f_equal.
    now apply (vzip_map_inv Rminus _ (Rmult lr) u s t).
  - destruct (mzip Rminus A (map (map (Rmult lr)) G)) as [m|] eqn:Hm; [|discriminate].
    cbn [rbind]. intros Hv. inversion Hv. f_equal.
    now apply (mzip_map_inv Rminus _ (Rmult lr) A G m).
Qed.

(** Whenever [SGD] returns, it has replaced the data of every listed
    object by data - lr * grad and has left everything else alone. *)
Lemma SGD_inv (ps : list loc) (lr : R) (h h' : heap) :
  NoDup ps -> SGD ps lr h = Ok h' ->
  (forall p q, In p ps -> nth_error h p = Some q ->
     nth_error h' p = Some (sgd_param lr q)) /\
  (forall p, ~ In p ps -> nth_error h' p = nth_error h p).
Proof.
  revert h. induction ps as [|p ps IH]; intros h Hnd Hrun.
  - simpl in Hrun. inversion Hrun; subst. split; [intros p q []|reflexivity].
  - inversion Hnd as [|p0 ps0 Hnotin Hnd']; subst.
    cbn [SGD] in Hrun. unfold load in Hrun.
    destruct (nth_error h p) as [q|] eqn:Hq; [|discriminate].
    cbn [rbind] in Hrun.
    destruct (val_sub (data q) (val_smul lr (grad q))) as [v|] eqn:Hv; [|discriminate].
    cbn [rbind] in Hrun. apply val_sub_smul_inv in Hv. subst v.
    fold (sgd_param lr q) in Hrun.
    destruct (IH _ Hnd' Hrun) as [Hin Hout].
    split.
    + intros p' q' [->|Hp'] Hq'.
      * rewrite Hout by assumption. rewrite Hq in Hq'. inversion Hq'; subst.
        eapply nth_error_update_same; eassumption.
      * apply Hin; [assumption|].
        rewrite nth_error_update_other; [assumption|]. intros ->. contradiction.
    + intros p' Hp'. rewrite Hout by (intros Hc; apply Hp'; now right).
      apply nth_error_update_other. intros ->. apply Hp'. now left.
Qed.

Lemma NoDup_params : NoDup params.
Proof.
  unfold params, W_loc, b_loc. repeat constructor; simpl; intuition lia.
Qed.

(** ** The loops run to completion on well-formed worlds *)

Lemma train_batches_ok (o : objective) (batches : list Batch) (i : nat) (w : World) :
  shaped (store w) -> forallb batch_ok batches = true ->
  exists w', train_batches o i batches w = Ok w' /\ shaped (store w') /\
             train_data w' = train_data w /\ test_data w' = test_data w.
Proof.
  revert i w. induction batches as [|batch rest IH]; intros i w Hs Hok.
  - exists w. simpl. auto.
  - simpl in Hok. apply andb_prop in Hok as [Hb Hrest].
    destruct Hs as (W & b & Hs).
    destruct (train_batch_run o i batch w W b Hs Hb)
      as (X & G & g & h' & _ & _ & _ & _ & Hs' & Hrun).
    destruct (IH (S i)
                (set_moving_loss
                   (next_moving_loss i (moving_loss w)
                      (loss_value o X W b (map (one_hot_row 10) (batch_label batch))))
                   (set_store h' w)))
      as (w' & Hrun' & Hs'' & Htrain & Htest);
      [eexists; eexists; exact Hs'|exact Hrest|].
    exists w'. cbn [train_batches]. rewrite Hrun. cbn [rbind].
    split; [exact Hrun'|]. split; [assumption|].
    now rewrite Htrain, Htest.
Qed.

Lemma evaluate_accuracy_ok (r : iter_ref) (w : World) :
  shaped (store w) -> iter_ok (get_iter r w) ->
  exists a, evaluate_accuracy r net_global w
            = Ok (a, set_iter r (iter_after (get_iter r w)) w).
Proof.
  intros (W & b & HhW & Hhb & [HlW HW] & Hb) [Hne Hok].
  eexists. now apply (evaluate_accuracy_run r w W b).
Qed.

Lemma train_epoch_unfold (o : objective) (e : nat) (w : World) :
  train_epoch o e w =
  (w <- train_batches o 0 (iter_batches (train_data w)) (epoch_start w) ;;
   '(test_accuracy, w) <- evaluate_accuracy TestData net_global w ;;
   '(train_accuracy, w) <- evaluate_accuracy TrainData net_global w ;;
   Ok (if Nat.eqb (e mod 100) 99
       then [{| epoch := e + 1; loss_shown := moving_loss w;
                train_acc := train_accuracy; test_acc := test_accuracy |}]
       else [],
       w)).
Proof. reflexivity. Qed.

Lemma iter_sound_ok (it : DataIter) : iter_sound it -> iter_ok it.
Proof. intros Hit. apply (Hit (iter_count it)). lia. Qed.

Lemma iter_sound_after (it : DataIter) : iter_sound it -> iter_sound (iter_after it).
Proof. intros Hit k Hk. apply (Hit k). simpl in Hk. lia. Qed.

Lemma steady_iter_sound (batches : list Batch) :
  batches <> [] -> forallb batch_ok batches = true ->
  iter_sound (steady_iter batches).
Proof. intros Hne Hok k _. split; assumption. Qed.

Lemma train_epoch_ok (o : objective) (e : nat) (w : World) :
  world_sound w ->
  exists shown w',
    train_epoch o e w = Ok (shown, w') /\ world_sound w' /\
    train_data w' = iter_after (iter_after (train_data w)) /\
    test_data w' = iter_after (test_data w).
Proof.
  intros (Hs & Ht & Hv).
  destruct (iter_sound_ok _ Ht) as [Htne Htok].
  pose proof (iter_sound_after _ Ht) as Ht1.
  rewrite train_epoch_unfold.
  destruct (train_batches_ok o (iter_batches (train_data w)) 0 (epoch_start w))
    as (w1 & Hrun & Hs1 & Htrain1 & Htest1); [exact Hs|exact Htok|].
  rewrite Hrun. cbn [rbind].
  destruct (evaluate_accuracy_ok TestData w1) as (a1 & Ha1);
    [exact Hs1|simpl; rewrite Htest1; now apply iter_sound_ok|].
  rewrite Ha1. cbn [rbind].
  set (w2 := set_iter TestData (iter_after (get_iter TestData w1)) w1) in *.
  destruct (evaluate_accuracy_ok TrainData w2) as (a2 & Ha2);
    [exact Hs1|simpl; rewrite Htrain1; now apply iter_sound_ok|].
  rewrite Ha2. cbn [rbind].
  eexists. eexists. split; [reflexivity|].
  cbn [train_data test_data store set_iter get_iter w2].
  rewrite Htrain1, Htest1. cbn [train_data test_data epoch_start set_iter].
  split; [|split; reflexivity].
  split; [exact Hs1|]. split; now repeat apply iter_sound_after.
Qed.

Lemma train_epochs_ok (o : objective) (count e : nat) (w : World) :
  world_sound w ->
  exists shown w',
    train_epochs o e count w = Ok (shown, w') /\ world_sound w' /\
    iter_pass (train_data w') = iter_pass (train_data w) /\
    iter_count (train_data w') = (iter_count (train_data w) + 2 * count)%nat /\
    iter_pass (test_data w') = iter_pass (test_data w) /\
    iter_count (test_data w') = (iter_count (test_data w) + count)%nat.
Proof.
  revert e w. induction count as [|count IH]; intros e w Hw.
  - exists [], w. simpl. rewrite !Nat.add_0_r. auto 7.
  - destruct (train_epoch_ok o e w Hw) as (shown & w1 & Hrun & Hw1 & Ht1 & Hv1).
    destruct (IH (S e) w1 Hw1)
      as (later & w2 & Hrun' & Hw2 & Htp & Htc & Hvp & Hvc).
    exists (shown ++ later), w2. cbn [train_epochs].
    rewrite Hrun. cbn [rbind]. rewrite Hrun'. cbn [rbind].
    split; [reflexivity|]. split; [exact Hw2|].
    rewrite Htp, Htc, Hvp, Hvc, Ht1, Hv1. cbn.
    repeat split; lia.
Qed.

(** Both training cells run through all their epochs; an epoch starts two
    passes of the training iterator and one of the test iterator. *)
Lemma train_ok (o : objective) (epochs : nat) (w : World) :
  world_sound w ->
  exists shown w',
    train o epochs w = Ok (shown, w') /\ world_sound w' /\
    iter_pass (train_data w') = iter_pass (train_data w) /\
    iter_count (train_data w') = (iter_count (train_data w) + 2 * epochs)%nat /\
    iter_pass (test_data w') = iter_pass (test_data w) /\
    iter_count (test_data w') = (iter_count (test_data w) + epochs)%nat.
Proof.
  intros Hw. unfold train.
  apply (train_epochs_ok o epochs 0 (set_moving_loss 0 w)).
  destruct Hw as (Hs & Ht & Hv). split; [exact Hs|]. split; [exact Ht|exact Hv].
Qed.

(** ** The recorded gradient is the textbook one

    For one-hot labels and predicted probabilities none of which is zero,
    the adjoint that reaches the logits is the predicted probabilities
    minus the labels, and the adjoint the penalty sends to a parameter is
    twice the parameter, scaled. *)

Lemma logits_adj_rows (Y y : mat) :
  logits_adj Y y =
  zipWith (fun s yr =>
             softmax_adj_row s
               (zipWith (fun gi x => gi / x)
                  (zipWith Rmult (map (fun _ => - (1)) (zipWith Rmult yr (map ln s))) yr)
                  s)) Y y.
Proof.
  unfold logits_adj, ce_loss, ce_terms.
  revert y. induction Y as [|s Y IH]; intros [|yr y]; simpl; try reflexivity.
  f_equal. apply IH.
Qed.

Lemma inner_div_cancel (u s : vec) :
  length u = length s -> Forall (fun x => x <> 0) s ->
  inner (zipWith (fun gi x => gi / x) u s) s = vsum u.
Proof.
  unfold inner. revert s. induction u as [|a u IH]; intros [|x s] Hl Hs;
    simpl in *; try discriminate; auto.
  inversion Hs; subst. rewrite IH by (auto; lia). field. assumption.
Qed.

Lemma vsum_neg_scale (t yr : vec) :
  length t = length yr ->
  vsum (zipWith Rmult (map (fun _ => - (1)) t) yr) = - vsum yr.
Proof.
  revert yr. induction t as [|a t IH]; intros [|b yr] Hl; simpl in *;
    try discriminate; [lra|].
  rewrite IH by lia. lra.
Qed.

Lemma softmax_adj_pointwise (s yr t : vec) :
  length yr = length s -> length t = length s -> Forall (fun x => x <> 0) s ->
  zipWith (fun sj gj => sj * (gj - - (1))) s
    (zipWith (fun gi x => gi / x) (zipWith Rmult (map (fun _ => - (1)) t) yr) s)
  = zipWith Rminus s yr.
Proof.
  revert yr t. induction s as [|x s IH]; intros [|b yr] [|a t] Hl Ht Hs;
    simpl in *; try discriminate; try reflexivity.
  inversion Hs; subst. f_equal.
  - field. assumption.
  - apply IH; auto.
Qed.

Lemma softmax_adj_row_one_hot (s yr : vec) :
  length yr = length s -> Forall (fun x => x <> 0) s -> vsum yr = 1 ->
  softmax_adj_row s
    (zipWith (fun gi x => gi / x)
       (zipWith Rmult (map (fun _ => - (1)) (zipWith Rmult yr (map ln s))) yr) s)
  = zipWith Rminus s yr.
Proof.
  intros Hl Hs Hsum. unfold softmax_adj_row.
  assert (Ht : length (zipWith Rmult yr (map ln s)) = length yr).
  { rewrite zipWith_length; rewrite ?length_map; auto. }
  rewrite inner_div_cancel;
    [|rewrite zipWith_length; rewrite ?length_map; lia|assumption].
  rewrite vsum_neg_scale, Hsum by assumption.
  apply softmax_adj_pointwise; auto. lia.
Qed.

Lemma vsum_one_hot_row (depth l : nat) :
  (l < depth)%nat -> vsum (one_hot_row depth l) = 1.
Proof.
  intros Hl. unfold one_hot_row.
  change (vsum (map (fun j => if Nat.eqb j l then 1 else 0) (seq 0 depth)))
    with (Rsum depth (fun j => if Nat.eqb j l then 1 else 0)).
  transitivity (Rsum depth (fun j => (if Nat.eqb j l then 1 else 0) * 1)).
  - apply Rsum_ext. intros j _. destruct (Nat.eqb j l); lra.
  - exact (Rsum_single depth l (fun _ => 1) Hl).
Qed.

Lemma logits_adj_closed_form (X W : mat) (b : vec) (label : list nat) (n : nat) :
  is_mat 784 10 W -> length b = 10%nat -> is_mat (S n) 784 X ->
  length label = S n -> Forall (fun l => (l < 10)%nat) label ->
  Forall (Forall (fun p => p <> 0)) (probabilities X W b) ->
  logits_adj (probabilities X W b) (map (one_hot_row 10) label) =
  zipWith (zipWith Rminus) (probabilities X W b) (map (one_hot_row 10) label).
Proof.
  intros HW Hb HX Hlabel Hrange Hall. rewrite logits_adj_rows.
  pose proof (probabilities_shape W b X n HW Hb HX) as HY.
  assert (Hrows : forall s, In s (probabilities X W b) ->
            length s = 10%nat /\ Forall (fun x => x <> 0) s).
  { intros s Hs. split; [exact (is_mat_rows _ _ _ _ HY Hs)|].
    rewrite Forall_forall in Hall. now apply Hall. }
  clear HY. revert Hrows. generalize (probabilities X W b) as Y.
  clear Hlabel. induction label as [|l label IH]; intros [|s Y] Hrows;
    try reflexivity.
  inversion Hrange; subst. cbn [map zipWith]. f_equal.
  - destruct (Hrows s (or_introl eq_refl)) as [Hs Hnz].
    apply softmax_adj_row_one_hot.
    + unfold one_hot_row. rewrite length_map, length_seq. lia.
    + exact Hnz.
    + now apply vsum_one_hot_row.
  - apply IH; auto. intros s' Hs'. apply Hrows. now right.
Qed.

Lemma penalty_adj_closed_form (g : R) (a : NDArray) :
  penalty_adj g a = nd_map (fun x => 2 * x * g) a.
Proof.
  assert (Hv : forall v : vec,
    zipWith (fun x gi => 2 * x * gi) v (map (fun _ => g) (map (fun x => x ^ 2) v))
    = map (fun x => 2 * x * g) v).
  { induction v as [|x v IH]; cbn [map zipWith]; [reflexivity|]. now rewrite IH. }
  destruct a as [v|m]; unfold penalty_adj;
    cbn [pow2_adj sum_adj val_pow2 nd_map nd_zipWith flatten hd]; f_equal.
  - apply Hv.
  - induction m as [|r m IH]; cbn [map zipWith]; [reflexivity|].
    now rewrite Hv, IH.
Qed.

Lemma params_shaped_zero : params_shaped (store world_one) W_zero b_zero.
Proof.
  split; [reflexivity|]. split; [reflexivity|]. split; [|reflexivity].
  split; reflexivity.
Qed.

Lemma world_ok_one : world_ok world_one.
Proof.
  split; [exists W_zero, b_zero; exact params_shaped_zero|].
  split; (split; [discriminate|reflexivity]).
Qed.

Lemma world_sound_one : world_sound world_one.
Proof.
  split; [exists W_zero, b_zero; exact params_shaped_zero|].
  split; (apply steady_iter_sound; [discriminate|reflexivity]).
Qed.

(** ** The training loops *)

(** C5.  On one batch and one starting store (parameters of the notebook's
    shapes, a well-formed batch), a step of the regularized loop with
    strength 0 and a step of the unregularized loop both succeed and leave
    the same store: the same gradients in the buffers, the same updated [W]
    and [b]. *)
Theorem zero_strength_same_update (i : nat) (batch : Batch) (w : World)
    (W : mat) (b : vec) :
  params_shaped (store w) W b -> batch_ok batch = true ->
  exists w_reg w_unreg : World,
    train_batch (Regularized 0) i batch w = Ok w_reg /\
    train_batch Unregularized i batch w = Ok w_unreg /\
    store w_reg = store w_unreg.
Proof.
  intros Hs Hok.
  destruct (batch_ok_inv batch Hok) as (X & n & Hr & HX & Hlabel).
  destruct (train_batch_run (Regularized 0) i batch w W b Hs Hok)
    as (X1 & G1 & g1 & h1 & Hr1 & _ & _ & Hsgd1 & _ & Hrun1).
  destruct (train_batch_run Unregularized i batch w W b Hs Hok)
    as (X2 & G2 & g2 & h2 & Hr2 & _ & _ & Hsgd2 & _ & Hrun2).
  rewrite Hr in Hr1, Hr2. inversion Hr1. inversion Hr2. subst X1 X2.
  destruct Hs as (_ & _ & HW & Hb).
  rewrite (write_grads_ext _
             (contributions Unregularized X W b
                (map (one_hot_row 10) (batch_label batch)))) in Hsgd1.
  - rewrite Hsgd2 in Hsgd1. inversion Hsgd1. subst h1.
    eexists. eexists. split; [exact Hrun1|]. split; [exact Hrun2|]. reflexivity.
  - apply (zero_strength_gradients W b X _ n); try assumption.
    rewrite <- Hlabel. apply one_hot_shape.
Qed.

Lemma zero_strength_same_update_witness :
  exists w_reg w_unreg : World,
    train_batch (Regularized 0) 0 batch_one world_one = Ok w_reg /\
    train_batch Unregularized 0 batch_one world_one = Ok w_unreg /\
    store w_reg = store w_unreg.
Proof.
  apply (zero_strength_same_update 0 batch_one world_one W_zero b_zero).
  - exact params_shaped_zero.
  - reflexivity.
Defined.

(** C6.  [SGD] on a list of distinct parameter objects, each with a
    gradient buffer of its own shape, returns and has replaced the data of
    every listed object by data - lr * gradient, element by element; the
    gradient buffers and all other objects are as before.  Every batch step
    of either loop, whatever the batch number, ends by calling it on
    [params] with the learning rate 0.001, on the store that [backward] has
    just filled with this batch's gradients, and the result is the store the
    step leaves. *)
Theorem SGD_update (ps : list loc) (lr : R) (h : heap)
    (o : objective) (i : nat) (batch : Batch) (w w' : World) :
  NoDup ps ->
  (forall p, In p ps ->
     exists q, nth_error h p = Some q /\ same_shape (data q) (grad q)) ->
  train_batch o i batch w = Ok w' ->
  (exists h' : heap,
     SGD ps lr h = Ok h' /\ length h' = length h /\
     (forall p q, In p ps -> nth_error h p = Some q ->
        nth_error h' p = Some (sgd_param lr q)) /\
     (forall p, ~ In p ps -> nth_error h' p = nth_error h p)) /\
  (exists (data loss : NDArray) (h_grad : heap),
     reshape_rows 784 (batch_data batch) = Ok data /\
     eval (param_data (store w)) (loss_graph o data (one_hot (batch_label batch) 10))
       = Ok loss /\
     backward (loss_graph o data (one_hot (batch_label batch) 10)) loss (store w)
       = Ok h_grad /\
     SGD params (1 / 1000) h_grad = Ok (store w') /\
     (forall p q, In p params -> nth_error h_grad p = Some q ->
        nth_error (store w') p = Some (sgd_param (1 / 1000) q)) /\
     (forall p, ~ In p params -> nth_error (store w') p = nth_error h_grad p)).
Proof.
  intros Hnd Hshape Hrun. split.
  - now apply SGD_run.
  - destruct (train_batch_inv o i batch w w' Hrun)
      as (data & loss & h_grad & h' & Hr & He & Hb & Hsgd & ->).
    exists data, loss, h_grad.
    destruct (SGD_inv params (1 / 1000) h_grad h' NoDup_params Hsgd) as [Hin Hout].
    repeat split; assumption.
Qed.

Lemma SGD_update_witness :
  exists w' : World,
    train_batch Unregularized 0 batch_one world_one = Ok w' /\
    (exists h' : heap,
       SGD params (1 / 2) heap_zero = Ok h' /\ length h' = length heap_zero /\
       (forall p q, In p params -> nth_error heap_zero p = Some q ->
          nth_error h' p = Some (sgd_param (1 / 2) q)) /\
       (forall p, ~ In p params -> nth_error h' p = nth_error heap_zero p)) /\
    (exists (data loss : NDArray) (h_grad : heap),
       reshape_rows 784 (batch_data batch_one) = Ok data /\
       eval (param_data (store world_one))
         (loss_graph Unregularized data (one_hot (batch_label batch_one) 10))
         = Ok loss /\
       backward (loss_graph Unregularized data (one_hot (batch_label batch_one) 10))
         loss (store world_one) = Ok h_grad /\
       SGD params (1 / 1000) h_grad = Ok (store w') /\
       (forall p q, In p params -> nth_error h_grad p = Some q ->
          nth_error (store w') p = Some (sgd_param (1 / 1000) q)) /\
       (forall p, ~ In p params -> nth_error (store w') p = nth_error h_grad p)).
Proof.
  destruct (train_batch_run Unregularized 0 batch_one world_one W_zero b_zero
              params_shaped_zero eq_refl)
    as (X & G & g & h' & _ & _ & _ & _ & _ & Hrun).
  eexists. split; [exact Hrun|].
  apply (SGD_update params (1 / 2) heap_zero Unregularized 0 batch_one world_one).
  - exact NoDup_params.
  - intros p [<-|[<-|[]]].
    + eexists. split; [reflexivity|].
      apply (is_mat_same_shape 784 10); split; reflexivity.
    + eexists. split; [reflexivity|]. reflexivity.
  - exact Hrun.
Defined.

Lemma probabilities_net_rows (X W : mat) (b : vec) :
  is_mat 784 10 W -> length b = 10%nat ->
  probabilities X W b = net_rows X W b.
Proof.
  intros [HlW HW] Hb. unfold probabilities, logits, matmul, net_rows.
  rewrite !map_map. rewrite (ncols_rect 10 W), Hb; [reflexivity| |assumption].
  destruct W; [discriminate|easy].
Qed.

Lemma cross_entropy_value (Y y : mat) (n : nat) :
  is_mat n 10 Y -> is_mat n 10 y ->
  cross_entropy (Ok (Mat Y)) (Ok (Mat y)) = Ok (Vec (ce_loss Y y)).
Proof.
  intros [HlY HY] [Hly Hy]. unfold cross_entropy. simpl.
  rewrite (mzip_ok Rmult y _ 10).
  - reflexivity.
  - rewrite length_map. lia.
  - assumption.
  - apply rect_map. intros r Hr. rewrite length_map.
    apply rect_Forall in HY. rewrite Forall_forall in HY. now apply HY.
Qed.

Lemma penalty_value_squares (W : mat) (b : vec) :
  penalty_value W b = sum_of_squares (concat W) + sum_of_squares b.
Proof.
  unfold penalty_value, val_pow2. rewrite !flatten_nd_map.
  unfold sum_of_squares. cbn [flatten]. ring.
Qed.

(** One step, with the loss named by what the notebook's own functions
    return on the parameters the step starts from. *)
Lemma train_batch_fed (o : objective) (i : nat) (batch : Batch) (w : World)
    (W : mat) (b : vec) :
  params_shaped (store w) W b -> batch_ok batch = true ->
  exists (X : mat) (loss : vec) (w' : World),
    reshape_rows 784 (batch_data batch) = Ok (Mat X) /\
    cross_entropy (net (Ok (Mat W)) (Ok (Vec b)) (Ok (Mat X)))
                  (Ok (one_hot (batch_label batch) 10)) = Ok (Vec loss) /\
    length loss = length (batch_label batch) /\
    train_batch o i batch w = Ok w' /\
    moving_loss w' =
      (if Nat.eqb i 0
       then loss_fed o W b loss
       else 99 / 100 * moving_loss w + 1 / 100 * loss_fed o W b loss).
Proof.
  intros Hs Hb.
  destruct (train_batch_run o i batch w W b Hs Hb)
    as (X & G & g & h' & HX & _ & _ & _ & _ & Hrun).
  destruct (batch_ok_inv batch Hb) as (X0 & n & HX0 & HXs & Hlen).
  rewrite HX in HX0. inversion HX0; subst X0. clear HX0.
  destruct Hs as (_ & _ & HW & Hbl).
  set (y := map (one_hot_row 10) (batch_label batch)) in *.
  assert (Hy : is_mat (S n) 10 y).
  { rewrite <- Hlen. apply one_hot_shape. }
  pose proof (probabilities_shape W b X n HW Hbl HXs) as HY.
  assert (Hce : length (ce_loss (probabilities X W b) y) = S n).
  { unfold ce_loss. rewrite !length_map.
    apply (ce_terms_shape W b X y n HW Hbl HXs Hy). }
  exists X, (ce_loss (probabilities X W b) y). eexists.
  split; [exact HX|]. split; [|split; [|split; [exact Hrun|]]].
  - rewrite net_value.
    + rewrite <- (probabilities_net_rows X W b HW Hbl).
      unfold one_hot. fold y. now apply (cross_entropy_value _ _ (S n)).
    + destruct HW as [HlW _]. destruct W; [discriminate|easy].
    + destruct HW as [HlW _], HXs as [_ HXr]. now rewrite HlW.
    + destruct HW as [_ HWr]. now rewrite Hbl.
  - rewrite Hce. now symmetry.
  - cbn [moving_loss set_moving_loss]. unfold next_moving_loss.
    assert (Hfed : mean_asscalar (loss_value o X W b y)
                   = loss_fed o W b (ce_loss (probabilities X W b) y)).
    { destruct o as [|l2_strength]; cbn [loss_value loss_fed].
      - reflexivity.
      - unfold mean_asscalar. cbn [flatten length vsum fold_right].
        rewrite penalty_value_squares. change (INR 1) with 1.
        fold (vsum (ce_loss (probabilities X W b) y)). field. }
    now rewrite Hfed.
Qed.

(** C7.  A training cell sets the moving loss to 0 before its first epoch,
    whatever it was.  In every epoch of either loop the batches of the
    training pass are numbered from 0, and the step on the batch at position
    [k] leaves the moving loss at what this batch feeds in if [k] is 0, and
    at 0.99 times the moving loss left by the step before plus 0.01 times
    what this batch feeds in otherwise.  With [loss] the vector that
    [cross_entropy(net(data), one_hot(label))] returns for the parameters
    the step starts from, the unregularized loop feeds in the mean of
    [loss], and the regularized loop the sum of [loss] plus the strength
    times the sum of the squares of all parameter elements.  The evaluation
    at the end of the epoch does not change the moving loss. *)
Theorem moving_loss_rule (o : objective) (e : nat) (w : World)
    (bs : list Batch) (batch : Batch) (rest : list Batch) :
  shaped (store w) ->
  iter_batches (train_data w) = bs ++ batch :: rest ->
  forallb batch_ok (bs ++ [batch]) = true ->
  (forall epochs m, train o epochs (set_moving_loss m w) = train o epochs w) /\
  train o 0 w = Ok ([], set_moving_loss 0 w) /\
  exists (w_prev w_next : World) (W X : mat) (b loss : vec),
    train_batches o 0 bs (epoch_start w) = Ok w_prev /\
    params_shaped (store w_prev) W b /\
    reshape_rows 784 (batch_data batch) = Ok (Mat X) /\
    cross_entropy (net (Ok (Mat W)) (Ok (Vec b)) (Ok (Mat X)))
                  (Ok (one_hot (batch_label batch) 10)) = Ok (Vec loss) /\
    length loss = length (batch_label batch) /\
    train_batch o (length bs) batch w_prev = Ok w_next /\
    moving_loss w_next =
      (if Nat.eqb (length bs) 0
       then loss_fed o W b loss
       else 99 / 100 * moving_loss w_prev + 1 / 100 * loss_fed o W b loss) /\
    (forall shown w_end, rest = [] -> train_epoch o e w = Ok (shown, w_end) ->
       moving_loss w_end = moving_loss w_next).
Proof.
  intros Hs Hbs Hok. split; [reflexivity|]. split; [reflexivity|].
  rewrite forallb_app in Hok. apply andb_prop in Hok as [Hokbs Hokb].
  cbn [forallb] in Hokb. rewrite andb_true_r in Hokb.
  destruct (train_batches_ok o bs 0 (epoch_start w)) as (w_prev & Hprev & Hs1 & _);
    [exact Hs|exact Hokbs|].
  destruct Hs1 as (W & b & Hs1).
  destruct (train_batch_fed o (length bs) batch w_prev W b Hs1 Hokb)
    as (X & loss & w_next & HX & Hce & Hlen & Hnext & Hml).
  exists w_prev, w_next, W, X, b, loss.
  repeat (split; [assumption|]).
  intros shown w_end -> Hrun.
  rewrite train_epoch_unfold, Hbs, train_batches_app, Hprev in Hrun.
  cbn [rbind train_batches Nat.add] in Hrun. rewrite Hnext in Hrun.
  cbn [rbind] in Hrun.
  destruct (evaluate_accuracy TestData net_global w_next) as [[a1 w1]|] eqn:H1;
    [|discriminate].
  cbn [rbind] in Hrun.
  destruct (evaluate_accuracy TrainData net_global w1) as [[a2 w2]|] eqn:H2;
    [|discriminate].
  cbn [rbind] in Hrun. inversion Hrun; subst.
  apply evaluate_accuracy_inv in H1, H2. subst. reflexivity.
Qed.

Lemma moving_loss_rule_witness :
  (forall epochs m,
     train (Regularized (1 / 10)) epochs (set_moving_loss m world_pair)
     = train (Regularized (1 / 10)) epochs world_pair) /\
  train (Regularized (1 / 10)) 0 world_pair = Ok ([], set_moving_loss 0 world_pair) /\
  exists (w_prev w_next : World) (W X : mat) (b loss : vec),
    train_batches (Regularized (1 / 10)) 0 [batch_one] (epoch_start world_pair)
      = Ok w_prev /\
    params_shaped (store w_prev) W b /\
    reshape_rows 784 (batch_data batch_two) = Ok (Mat X) /\
    cross_entropy (net (Ok (Mat W)) (Ok (Vec b)) (Ok (Mat X)))
                  (Ok (one_hot (batch_label batch_two) 10)) = Ok (Vec loss) /\
    length loss = length (batch_label batch_two) /\
    train_batch (Regularized (1 / 10)) (length [batch_one]) batch_two w_prev
      = Ok w_next /\
    moving_loss w_next =
      (if Nat.eqb (length [batch_one]) 0
       then loss_fed (Regularized (1 / 10)) W b loss
       else 99 / 100 * moving_loss w_prev
            + 1 / 100 * loss_fed (Regularized (1 / 10)) W b loss) /\
    (forall shown w_end, @nil Batch = [] ->
       train_epoch (Regularized (1 / 10)) 7 world_pair = Ok (shown, w_end) ->
       moving_loss w_end = moving_loss w_next).
Proof.
  apply (moving_loss_rule (Regularized (1 / 10)) 7 world_pair
           [batch_one] batch_two []).
  - exists W_zero, b_zero. exact params_shaped_zero.
  - reflexivity.
  - reflexivity.
Defined.

Lemma concat_zeros (c n : nat) : concat (repeat (repeat 0 c) n) = repeat 0 (n * c).
Proof.
  induction n as [|n IH]; [reflexivity|]. cbn [repeat concat Nat.mul].
  now rewrite IH, repeat_app.
Qed.

Lemma sum_of_squares_zeros (n : nat) : sum_of_squares (repeat 0 n) = 0.
Proof.
  unfold sum_of_squares. induction n as [|n IH]; cbn [repeat map vsum fold_right].
  - reflexivity.
  - unfold vsum in IH. rewrite IH. ring.
Qed.

(** C7 as stated fails in the regularized loop: on a batch of two samples
    the step at position 0 leaves the moving loss at the sum of the two
    cross-entropies (plus the penalty, here 0), not at their mean. *)
Lemma moving_loss_regularized_sum :
  exists (loss : vec) (w' : World),
    cross_entropy (net (Ok (Mat W_zero)) (Ok (Vec b_zero)) (Ok (Mat [x_zero; x_zero])))
                  (Ok (one_hot (batch_label batch_two) 10)) = Ok (Vec loss) /\
    train_batch (Regularized (1 / 10)) 0 batch_two world_joint = Ok w' /\
    moving_loss w' <> vsum loss / INR (length loss).
Proof.
  destruct (train_batch_fed (Regularized (1 / 10)) 0 batch_two world_joint
              W_zero b_zero params_shaped_zero eq_refl)
    as (X & loss & w' & HX & Hce & Hlen & Hrun & Hml).
  assert (HXeq : X = [x_zero; x_zero]).
  { assert (Hr : reshape_rows 784 (batch_data batch_two) = Ok (Mat [x_zero; x_zero]))
      by reflexivity.
    rewrite Hr in HX. now inversion HX. }
  subst X. exists loss, w'. split; [exact Hce|]. split; [exact Hrun|].
  rewrite Hml. cbn [Nat.eqb loss_fed].
  unfold W_zero at 1. rewrite concat_zeros. unfold b_zero at 1.
  rewrite !sum_of_squares_zeros.
  assert (Hloss : loss = [- ln (1 / 10); - ln (1 / 10)]).
  { rewrite net_value in Hce; try reflexivity; [|discriminate].
    rewrite net_rows_zero in Hce. cbn in Hce. inversion Hce as [Hl].
    repeat (f_equal; try lra). }
  rewrite Hloss. cbn [vsum fold_right length].
  assert (Hln : ln (1 / 10) < 0).
  { rewrite <- ln_1. apply ln_increasing; lra. }
  change (INR 2) with (1 + 1). lra.
Qed.

(** * Further properties of the code *)

(** ** The model: shapes and predictions *)

(** X1.  With parameters of the notebook's shapes, [net] on a non-empty
    batch of rows of length [c] returns the row-wise softmax of [X . W + b]
    when [c] is 784 and raises the library's shape error otherwise: images
    must have been flattened to 784 columns before they are fed to [net].
    The store is returned as it was. *)
Theorem net_row_length (h : heap) (X W : mat) (b : vec) (n c : nat) :
  params_shaped h W b -> is_mat n c X -> n <> O ->
  net_global (Mat X) h =
  if Nat.eqb c 784 then Ok (Mat (net_rows X W b), h) else Raise MXNetError.
Proof.
  intros (HhW & Hhb & [HlW HW] & Hb) [HlX HX] Hn.
  destruct (Nat.eqb_spec c 784) as [->|Hc].
  - now apply (net_global_value W b HlW HW Hb).
  - unfold net_global, net. rewrite HhW, Hhb.
    cbn [nd_softmax nd_add nd_dot value_ops bind1 bind2 rbind val_dot].
    assert (Hbad : rect (length W) X = false).
    { destruct X as [|x X]; [simpl in HlX; lia|]. simpl in HX |- *.
      apply andb_prop in HX as [Hx _]. apply Nat.eqb_eq in Hx.
      rewrite HlW. destruct (Nat.eqb_spec (length x) 784); [lia|reflexivity]. }
    rewrite Hbad. reflexivity.
Qed.

Lemma net_row_length_witness :
  net_global (Mat X_one) heap_zero =
  if Nat.eqb 784 784 then Ok (Mat (net_rows X_one W_zero b_zero), heap_zero)
  else Raise MXNetError.
Proof.
  apply (net_row_length heap_zero X_one W_zero b_zero 1 784).
  - exact params_shaped_zero.
  - split; reflexivity.
  - discriminate.
Defined.

Lemma app_nth_last (pre : vec) (x : R) : nth (length pre) (pre ++ [x]) 0 = x.
Proof. rewrite app_nth2 by lia. now rewrite Nat.sub_diag. Qed.

Lemma argmax_from_spec (l pre : vec) (best_i : nat) (best : R) :
  (best_i < length pre)%nat -> nth best_i pre 0 = best ->
  (forall j, (j < length pre)%nat -> nth j pre 0 <= best) ->
  (forall j, (j < best_i)%nat -> nth j pre 0 < best) ->
  (argmax_from best_i best (length pre) l < length (pre ++ l))%nat /\
  (forall j, (j < length (pre ++ l))%nat ->
     nth j (pre ++ l) 0 <= nth (argmax_from best_i best (length pre) l) (pre ++ l) 0) /\
  (forall j, (j < argmax_from best_i best (length pre) l)%nat ->
     nth j (pre ++ l) 0 < nth (argmax_from best_i best (length pre) l) (pre ++ l) 0).
Proof.
  revert pre best_i best. induction l as [|x l IH]; intros pre best_i best Hi Hb Hle Hlt.
  - simpl. rewrite app_nil_r. rewrite Hb. repeat split; auto.
  - assert (Hlen : length (pre ++ [x]) = S (length pre))
      by (rewrite length_app; simpl; lia).
    assert (Happ : pre ++ x :: l = (pre ++ [x]) ++ l)
      by (rewrite <- app_assoc; reflexivity).
    cbn [argmax_from]. rewrite Happ, <- Hlen.
    destruct (Rlt_dec best x) as [Hx|Hx].
    + apply IH.
      * lia.
      * apply app_nth_last.
      * intros j Hj. rewrite Hlen in Hj.
        destruct (Nat.eq_dec j (length pre)) as [->|Hne].
        -- rewrite app_nth_last. lra.
        -- rewrite app_nth1 by lia. specialize (Hle j ltac:(lia)). lra.
      * intros j Hj. rewrite app_nth1 by lia. specialize (Hle j Hj). lra.
    + apply IH.
      * lia.
      * rewrite app_nth1 by lia. exact Hb.
      * intros j Hj. rewrite Hlen in Hj.
        destruct (Nat.eq_dec j (length pre)) as [->|Hne].
        -- rewrite app_nth_last. lra.
        -- rewrite app_nth1 by lia. apply Hle. lia.
      * intros j Hj. rewrite app_nth1 by lia. now apply Hlt.
Qed.

Lemma argmax_row_spec (r : vec) :
  r <> [] ->
  (argmax_row r < length r)%nat /\
  (forall j, (j < length r)%nat -> nth j r 0 <= nth (argmax_row r) r 0) /\
  (forall j, (j < argmax_row r)%nat -> nth j r 0 < nth (argmax_row r) r 0).
Proof.
  destruct r as [|x l]; [easy|intros _].
  apply (argmax_from_spec l [x] 0 x); simpl.
  - lia.
  - reflexivity.
  - intros [|j] Hj; [lra|lia].
  - intros j Hj. lia.
Qed.

(** X4.  For parameters whose [W] has as many columns as [b] has entries
    (at least one), the predicted class of any sample is a valid class
    index, no class has a larger probability, and every class before it has
    a strictly smaller one: ties go to the lowest index. *)
Theorem predict_first_maximum (W : mat) (b x : vec) :
  b <> [] -> rect (length b) W = true ->
  (predict W b x < length b)%nat /\
  (forall j, (j < length b)%nat ->
     nth j (softmax_row (vadd (vecmat (length b) x W) b)) 0 <=
     nth (predict W b x) (softmax_row (vadd (vecmat (length b) x W) b)) 0) /\
  (forall j, (j < predict W b x)%nat ->
     nth j (softmax_row (vadd (vecmat (length b) x W) b)) 0 <
     nth (predict W b x) (softmax_row (vadd (vecmat (length b) x W) b)) 0).
Proof.
  intros Hb HW. unfold predict.
  assert (Hlen : length (softmax_row (vadd (vecmat (length b) x W) b)) = length b).
  { rewrite softmax_row_length. unfold vadd.
    rewrite zipWith_length; now rewrite vecmat_length. }
  destruct (argmax_row_spec (softmax_row (vadd (vecmat (length b) x W) b)))
    as (Hk & Hmax & Hfirst).
  { intros Hnil. rewrite Hnil in Hlen. destruct b; [easy|discriminate]. }
  rewrite Hlen in Hk, Hmax. repeat split; assumption.
Qed.

Lemma predict_first_maximum_witness :
  (predict W_zero b_zero x_zero < length b_zero)%nat /\
  (forall j, (j < length b_zero)%nat ->
     nth j (softmax_row (vadd (vecmat (length b_zero) x_zero W_zero) b_zero)) 0 <=
     nth (predict W_zero b_zero x_zero)
       (softmax_row (vadd (vecmat (length b_zero) x_zero W_zero) b_zero)) 0) /\
  (forall j, (j < predict W_zero b_zero x_zero)%nat ->
     nth j (softmax_row (vadd (vecmat (length b_zero) x_zero W_zero) b_zero)) 0 <
     nth (predict W_zero b_zero x_zero)
       (softmax_row (vadd (vecmat (length b_zero) x_zero W_zero) b_zero)) 0).
Proof.
  apply (predict_first_maximum W_zero b_zero x_zero).
  - discriminate.
  - reflexivity.
Defined.

(** ** Evaluation: exceptions and order of presentation *)

Lemma no_zero_division_bind {A B : Type} (r : result A) (f : A -> result B) :
  no_zero_division r -> (forall a, no_zero_division (f a)) ->
  no_zero_division (rbind r f).
Proof.
  intros Hr Hf. destruct r as [a|e]; simpl; [apply Hf|].
  intros He. apply Hr. inversion He. reflexivity.
Qed.

Lemma no_zero_division_Ok {A : Type} (a : A) : no_zero_division (Ok a).
Proof. discriminate. Qed.

Lemma vzip_no_zero_division (f : R -> R -> R) (u v : vec) :
  no_zero_division (vzip f u v).
Proof.
  revert v. induction u as [|x u IH]; intros [|y v]; simpl; try discriminate.
  apply no_zero_division_bind; [apply IH|]. intros a. discriminate.
Qed.

Lemma mzip_no_zero_division (f : R -> R -> R) (a b : mat) :
  no_zero_division (mzip f a b).
Proof.
  revert b. induction a as [|r a IH]; intros [|s b]; simpl; try discriminate.
  apply no_zero_division_bind; [apply vzip_no_zero_division|]. intros t.
  apply no_zero_division_bind; [apply IH|]. intros m. discriminate.
Qed.

Lemma rows_zip_no_zero_division (f : R -> R -> R) (a : mat) (v : vec) :
  no_zero_division (rows_zip f a v).
Proof.
  induction a as [|r a IH]; simpl; [discriminate|].
  apply no_zero_division_bind; [apply vzip_no_zero_division|]. intros t.
  apply no_zero_division_bind; [apply IH|]. intros m. discriminate.
Qed.

Lemma val_dot_no_zero_division (a b : NDArray) : no_zero_division (val_dot a b).
Proof.
  destruct a as [u|A], b as [v|B]; simpl; try discriminate.
  destruct (rect (length B) A && rect (ncols B) B); discriminate.
Qed.

Lemma val_add_no_zero_division (a b : NDArray) : no_zero_division (val_add a b).
Proof.
  destruct a as [u|A], b as [v|B]; simpl;
    (apply no_zero_division_bind;
     [first [apply vzip_no_zero_division|apply mzip_no_zero_division
            |apply rows_zip_no_zero_division]
     |intros m; discriminate]).
Qed.

Lemma net_global_no_zero_division (X : NDArray) (h : heap) :
  no_zero_division (net_global X h).
Proof.
  unfold net_global, net.
  cbn [nd_softmax nd_add nd_dot value_ops bind1 bind2].
  apply no_zero_division_bind; [|intros a; discriminate].
  apply no_zero_division_bind; [|intros [v|A]; discriminate].
  apply no_zero_division_bind.
  - apply no_zero_division_bind; [discriminate|]. intros x.
    apply no_zero_division_bind; [|intros y; apply val_dot_no_zero_division].
    unfold param_data, load, rmap. destruct (nth_error h W_loc); discriminate.
  - intros x. apply no_zero_division_bind; [|intros y; apply val_add_no_zero_division].
    unfold param_data, load, rmap. destruct (nth_error h b_loc); discriminate.
Qed.

Lemma count_equal_no_zero_division (p l : list nat) :
  no_zero_division (count_equal p l).
Proof.
  unfold count_equal. destruct (Nat.eqb (length p) (length l)); [discriminate|].
  destruct p as [|p0 [|p1 p]], l as [|l0 [|l1 l]]; discriminate.
Qed.

Lemma accuracy_loop_no_zero_division (batches : list Batch) (n d : nat) (h : heap) :
  no_zero_division (accuracy_loop net_global batches n d h).
Proof.
  revert n d h. induction batches as [|batch rest IH]; intros n d h.
  - discriminate.
  - cbn [accuracy_loop].
    apply no_zero_division_bind.
    { unfold reshape_rows.
      destruct (Nat.eqb (length (flatten (batch_data batch))) 0
                || negb (Nat.eqb (length (flatten (batch_data batch)) mod 784) 0));
        discriminate. }
    intros data.
    apply no_zero_division_bind; [apply net_global_no_zero_division|].
    intros [output h'].
    apply no_zero_division_bind; [destruct output; discriminate|].
    intros predictions.
    apply no_zero_division_bind; [apply count_equal_no_zero_division|].
    intros correct. apply IH.
Qed.

(** Every processed batch adds at least one sample to the denominator. *)
Lemma accuracy_loop_denominator (net : callable) (batches : list Batch)
    (n d : nat) (h : heap) (n' d' : nat) (h' : heap) :
  accuracy_loop net batches n d h = Ok (n', d', h') ->
  (d + length batches <= d')%nat.
Proof.
  revert n d h. induction batches as [|batch rest IH]; intros n d h Hrun;
    cbn [accuracy_loop] in Hrun.
  - inversion Hrun; subst. simpl. lia.
  - destruct (reshape_rows 784 (batch_data batch)) as [data|] eqn:Hr; [|discriminate].
    cbn [rbind] in Hrun.
    destruct (net data h) as [[output h1]|]; [|discriminate].
    cbn [rbind] in Hrun.
    destruct (val_argmax output) as [predictions|]; [|discriminate].
    cbn [rbind] in Hrun.
    destruct (count_equal predictions (batch_label batch)) as [correct|];
      [|discriminate].
    cbn [rbind] in Hrun. apply IH in Hrun.
    destruct (reshape_rows_inv _ _ _ Hr) as (X & -> & HX & _).
    destruct X; [easy|]. simpl in *. lia.
Qed.

(** X5.  [evaluate_accuracy] on the notebook's model raises
    [ZeroDivisionError] exactly when the pass it starts presents no batch,
    wherever the cursor stands and whatever the parameters are. *)
Theorem evaluate_accuracy_zero_division (r : iter_ref) (w : World) :
  evaluate_accuracy r net_global w = Raise ZeroDivisionError <->
  iter_batches (get_iter r w) = [].
Proof.
  rewrite evaluate_accuracy_unfold.
  pose proof (accuracy_loop_no_zero_division (iter_batches (get_iter r w)) 0 0 (store w))
    as Herr.
  destruct (accuracy_loop net_global (iter_batches (get_iter r w)) 0 0 (store w))
    as [[[n d] h]|e0] eqn:Hloop; cbn [rbind].
  - pose proof (accuracy_loop_denominator _ _ _ _ _ _ _ _ Hloop) as Hd.
    destruct (Nat.eqb_spec d 0) as [->|Hne].
    + split; [intros _|reflexivity].
      destruct (iter_batches (get_iter r w)); [reflexivity|simpl in Hd; lia].
    + split; [discriminate|]. intros Hnil. rewrite Hnil in Hloop.
      simpl in Hloop. inversion Hloop. subst. contradiction.
  - split.
    + intros He. inversion He. subst e0. now contradiction Herr.
    + intros Hnil. rewrite Hnil in Hloop. discriminate.
Qed.

(** X7.  The value of [evaluate_accuracy] depends only on which samples are
    presented, not on their order nor on how they are cut into batches: two
    iterators whose presented samples are permutations of each other get the
    same accuracy under the same parameters. *)
Theorem evaluate_accuracy_order (r1 r2 : iter_ref) (w1 w2 : World)
    (W : mat) (b : vec) :
  params_shaped (store w1) W b -> params_shaped (store w2) W b ->
  iter_ok (get_iter r1 w1) -> iter_ok (get_iter r2 w2) ->
  Permutation (samples_seen (iter_batches (get_iter r1 w1)))
              (samples_seen (iter_batches (get_iter r2 w2))) ->
  exists (a : R) (w1' w2' : World),
    evaluate_accuracy r1 net_global w1 = Ok (a, w1') /\
    evaluate_accuracy r2 net_global w2 = Ok (a, w2').
Proof.
  intros (HW1 & Hb1 & [HlW HW] & Hb) (HW2 & Hb2 & _ & _) [Hne1 Hok1] [Hne2 Hok2] Hperm.
  eexists. eexists. eexists. split.
  - now apply (evaluate_accuracy_run r1 w1 W b).
  - rewrite (evaluate_accuracy_run r2 w2 W b) by assumption.
    unfold correctly_classified.
    rewrite (Permutation_filter_length _ _ _ Hperm).
    rewrite (Permutation_length Hperm). reflexivity.
Qed.

Lemma evaluate_accuracy_order_witness :
  exists (a : R) (w1' w2' : World),
    evaluate_accuracy TestData net_global world_joint = Ok (a, w1') /\
    evaluate_accuracy TrainData net_global world_split = Ok (a, w2').
Proof.
  apply (evaluate_accuracy_order TestData TrainData world_joint world_split
           W_zero b_zero).
  - exact params_shaped_zero.
  - exact params_shaped_zero.
  - split; [discriminate|reflexivity].
  - split; [discriminate|reflexivity].
  - apply Permutation_refl.
Defined.

Lemma accuracy_loop_app (net : callable) (bs1 bs2 : list Batch) (n d : nat) (h : heap) :
  accuracy_loop net (bs1 ++ bs2) n d h =
  ('(n1, d1, h1) <- accuracy_loop net bs1 n d h ;; accuracy_loop net bs2 n1 d1 h1).
Proof.
  revert n d h. induction bs1 as [|batch bs1 IH]; intros n d h; [reflexivity|].
  cbn [app accuracy_loop].
  destruct (reshape_rows 784 (batch_data batch)) as [data|]; cbn [rbind];
    [|reflexivity].
  destruct (net data h) as [[output h1]|]; cbn [rbind]; [|reflexivity].
  destruct (val_argmax output) as [predictions|]; cbn [rbind]; [|reflexivity].
  destruct (count_equal predictions (batch_label batch)) as [correct|];
    cbn [rbind]; [|reflexivity].
  apply IH.
Qed.

(** X8.  With parameters of the notebook's shapes, an iterator that,
    after any number of well-formed batches, presents a batch whose data do
    not hold a multiple of 784 values makes [evaluate_accuracy] fail in
    [reshape]: the call returns no accuracy, not even over the batches
    before the faulty one. *)
Theorem evaluate_accuracy_bad_size (r : iter_ref) (w : World)
    (good : list Batch) (bad : Batch) (rest : list Batch) :
  shaped (store w) ->
  iter_batches (get_iter r w) = good ++ bad :: rest ->
  forallb batch_ok good = true ->
  (length (flatten (batch_data bad)) mod 784 <> 0)%nat ->
  forall (a : R) (w' : World), evaluate_accuracy r net_global w <> Ok (a, w').
Proof.
  intros (W & b & HhW & Hhb & [HlW HW] & Hb) Hbs Hgood Hbad a w'.
  rewrite evaluate_accuracy_unfold, Hbs, accuracy_loop_app.
  rewrite (accuracy_loop_run W b HlW HW Hb) by assumption.
  cbn [rbind accuracy_loop]. unfold reshape_rows.
  destruct (Nat.eqb_spec (length (flatten (batch_data bad)) mod 784) 0) as [H0|H0];
    [contradiction|].
  rewrite orb_true_r. cbn [negb rbind]. discriminate.
Qed.

Lemma evaluate_accuracy_bad_size_witness :
  ~ exists (a : R) (w' : World),
      evaluate_accuracy TestData net_global world_bad = Ok (a, w').
Proof.
  intros (a & w' & Hrun). revert Hrun.
  apply (evaluate_accuracy_bad_size TestData world_bad [batch_one] batch_bad []).
  - exists W_zero, b_zero. exact params_shaped_zero.
  - reflexivity.
  - reflexivity.
  - simpl. discriminate.
Defined.

Lemma filter_length_all {A : Type} (f : A -> bool) (l : list A) :
  length (filter f l) = length l <-> Forall (fun x => f x = true) l.
Proof.
  induction l as [|x l IH]; simpl.
  - split; constructor.
  - pose proof (filter_length_le f l) as Hle. destruct (f x) eqn:Hx; simpl.
    + split.
      * intros Hl. constructor; [assumption|]. apply IH. lia.
      * intros HF. inversion HF; subst. f_equal. now apply IH.
    + split; [lia|]. intros HF. inversion HF; subst. congruence.
Qed.

Lemma filter_length_none {A : Type} (f : A -> bool) (l : list A) :
  length (filter f l) = O <-> Forall (fun x => f x = false) l.
Proof.
  induction l as [|x l IH]; simpl.
  - split; constructor.
  - destruct (f x) eqn:Hx; simpl.
    + split; [discriminate|]. intros HF. inversion HF; subst. congruence.
    + split.
      * intros Hl. constructor; [assumption|]. now apply IH.
      * intros HF. inversion HF; subst. now apply IH.
Qed.

(** X9.  On a well-formed iterator the returned accuracy is 1 exactly when
    the predicted class of every presented sample is its label, and 0
    exactly when that is so for none of them. *)
Theorem evaluate_accuracy_extremes (r : iter_ref) (w : World) (W : mat) (b : vec) :
  params_shaped (store w) W b -> iter_ok (get_iter r w) ->
  exists (a : R) (w' : World),
    evaluate_accuracy r net_global w = Ok (a, w') /\
    (a = 1 <-> Forall (fun xl => predict W b (fst xl) = snd xl)
                 (samples_seen (iter_batches (get_iter r w)))) /\
    (a = 0 <-> Forall (fun xl => predict W b (fst xl) <> snd xl)
                 (samples_seen (iter_batches (get_iter r w)))).
Proof.
  intros (HhW & Hhb & [HlW HW] & Hb) [Hne Hok].
  eexists. eexists. split; [now apply (evaluate_accuracy_run r w W b)|].
  set (s := samples_seen (iter_batches (get_iter r w))).
  pose proof (samples_seen_nonempty _ Hne Hok) as Hpos. fold s in Hpos.
  assert (Hn : INR (length s) <> 0).
  { apply not_0_INR. lia. }
  assert (Hdiv : forall c : nat,
             (INR c / INR (length s) = 1 <-> c = length s) /\
             (INR c / INR (length s) = 0 <-> c = O)).
  { intros c. split; split.
    - intros Ha. apply INR_eq.
      apply Rmult_eq_reg_r with (r := / INR (length s));
        [|now apply Rinv_neq_0_compat].
      unfold Rdiv in Ha. rewrite Ha. now field.
    - intros ->. now field.
    - intros Ha. apply INR_eq.
      apply Rmult_eq_reg_r with (r := / INR (length s));
        [|now apply Rinv_neq_0_compat].
      unfold Rdiv in Ha. rewrite Ha. simpl. ring.
    - intros ->. simpl. now field. }
  unfold correctly_classified. fold s. split.
  - rewrite (proj1 (Hdiv _)), filter_length_all. split; apply Forall_impl;
      intros xl; apply Nat.eqb_eq.
  - rewrite (proj2 (Hdiv _)), filter_length_none. split; apply Forall_impl;
      intros xl; apply Nat.eqb_neq.
Qed.

Lemma evaluate_accuracy_extremes_witness :
  exists (a : R) (w' : World),
    evaluate_accuracy TestData net_global world_one = Ok (a, w') /\
    (a = 1 <-> Forall (fun xl => predict W_zero b_zero (fst xl) = snd xl)
                 (samples_seen (iter_batches (get_iter TestData world_one)))) /\
    (a = 0 <-> Forall (fun xl => predict W_zero b_zero (fst xl) <> snd xl)
                 (samples_seen (iter_batches (get_iter TestData world_one)))).
Proof.
  apply (evaluate_accuracy_extremes TestData world_one W_zero b_zero).
  - exact params_shaped_zero.
  - split; [discriminate|reflexivity].
Defined.

(** ** [SGD] called more than once *)

Lemma zipWith_twice {A B : Type} (f g k : A -> B -> A) (u : list A) (v : list B) :
  (forall x y, g (f x y) y = k x y) ->
  zipWith g (zipWith f u v) v = zipWith k u v.
Proof.
  intros Hk. revert v. induction u as [|x u IH]; intros [|y v]; simpl;
    try reflexivity.
  now rewrite Hk, IH.
Qed.

Lemma sgd_param_twice (lr1 lr2 : R) (q : Param) :
  sgd_param lr2 (sgd_param lr1 q) = sgd_param (lr1 + lr2) q.
Proof.
  unfold sgd_param. cbn [data grad]. f_equal.
  destruct (data q) as [u|A], (grad q) as [v|G]; cbn [nd_zipWith];
    try reflexivity; f_equal.
  - apply zipWith_twice. intros x y. lra.
  - apply zipWith_twice. intros r s. apply zipWith_twice. intros x y. lra.
Qed.

Lemma same_shape_sgd_param (lr : R) (q : Param) :
  same_shape (data q) (grad q) -> same_shape (data (sgd_param lr q)) (grad q).
Proof.
  unfold sgd_param. cbn [data grad].
  destruct (data q) as [u|A], (grad q) as [v|G]; cbn [nd_zipWith same_shape];
    try easy.
  - intros Hl. now rewrite zipWith_length.
  - intros HF. induction HF as [|r s A G Hrs HF IH]; simpl; constructor.
    + now rewrite zipWith_length.
    + exact IH.
Qed.

Lemma SGD_app (ps1 ps2 : list loc) (lr : R) (h : heap) :
  SGD (ps1 ++ ps2) lr h = (h1 <- SGD ps1 lr h ;; SGD ps2 lr h1).
Proof.
  revert h. induction ps1 as [|p ps1 IH]; intros h; [reflexivity|].
  cbn [app SGD]. destruct (load h p) as [q|]; cbn [rbind]; [|reflexivity].
  destruct (val_sub (data q) (val_smul lr (grad q))); cbn [rbind]; [|reflexivity].
  apply IH.
Qed.

(** X10.  [SGD] reads the gradient buffers without clearing them: on
    distinct objects with gradients of their shapes, a second call right
    after the first steps along the same gradients again, so that the two
    calls amount to one call with the sum of the learning rates; and a list
    that names every object twice amounts to a doubled learning rate. *)
Theorem SGD_again (ps : list loc) (lr1 lr2 : R) (h : heap) :
  NoDup ps ->
  (forall p, In p ps ->
     exists q, nth_error h p = Some q /\ same_shape (data q) (grad q)) ->
  (exists h1 h2 : heap,
     SGD ps lr1 h = Ok h1 /\ SGD ps lr2 h1 = Ok h2 /\
     SGD ps (lr1 + lr2) h = Ok h2) /\
  SGD (ps ++ ps) lr1 h = SGD ps (2 * lr1) h.
Proof.
  intros Hnd Hps.
  assert (Hgen : forall la lb, exists h1 h2 : heap,
             SGD ps la h = Ok h1 /\ SGD ps lb h1 = Ok h2 /\
             SGD ps (la + lb) h = Ok h2).
  { intros la lb.
    destruct (SGD_run ps la h Hnd Hps) as (h1 & Hrun1 & Hlen1 & Hin1 & Hout1).
    assert (Hps1 : forall p, In p ps ->
              exists q, nth_error h1 p = Some q /\ same_shape (data q) (grad q)).
    { intros p Hp. destruct (Hps p Hp) as (q & Hq & Hs).
      exists (sgd_param la q). split; [now apply Hin1|].
      exact (same_shape_sgd_param la q Hs). }
    destruct (SGD_run ps lb h1 Hnd Hps1) as (h2 & Hrun2 & Hlen2 & Hin2 & Hout2).
    destruct (SGD_run ps (la + lb) h Hnd Hps) as (h12 & Hrun & Hlen & Hin & Hout).
    exists h1, h2. split; [assumption|]. split; [assumption|].
    rewrite Hrun. f_equal. apply nth_error_ext. intros p.
    destruct (in_dec Nat.eq_dec p ps) as [Hp|Hp].
    - destruct (Hps p Hp) as (q & Hq & Hs).
      rewrite (Hin p q Hp Hq).
      rewrite (Hin2 p (sgd_param la q) Hp (Hin1 p q Hp Hq)).
      now rewrite sgd_param_twice.
    - now rewrite Hout, Hout2, Hout1. }
  split; [apply Hgen|].
  rewrite SGD_app. destruct (Hgen lr1 lr1) as (h1 & h2 & Hrun1 & Hrun2 & Hrun).
  rewrite Hrun1. cbn [rbind]. rewrite Hrun2.
  replace (2 * lr1) with (lr1 + lr1) by lra. now rewrite Hrun.
Qed.

Lemma SGD_again_witness :
  (exists h1 h2 : heap,
     SGD params (1 / 2) heap_zero = Ok h1 /\ SGD params (1 / 4) h1 = Ok h2 /\
     SGD params (1 / 2 + 1 / 4) heap_zero = Ok h2) /\
  SGD (params ++ params) (1 / 2) heap_zero = SGD params (2 * (1 / 2)) heap_zero.
Proof.
  apply (SGD_again params (1 / 2) (1 / 4) heap_zero).
  - exact NoDup_params.
  - intros p [<-|[<-|[]]]; eexists; (split; [reflexivity|]).
    + apply (is_mat_same_shape 784 10); split; reflexivity.
    + reflexivity.
Defined.

(** ** The penalty as a function of the parameter set *)

Lemma l2_penalty_value (ps : list NDArray) :
  l2_penalty (map Ok ps) = Ok (Vec [sum_of_squares (elements ps)]).
Proof.
  unfold l2_penalty. simpl nd_zeros1. unfold val_zeros1.
  rewrite l2_penalty_from. do 3 f_equal. lra.
Qed.

Lemma sum_of_squares_app (u v : list R) :
  sum_of_squares (u ++ v) = sum_of_squares u + sum_of_squares v.
Proof. unfold sum_of_squares. now rewrite map_app, vsum_app. Qed.

Lemma elements_app (ps qs : list NDArray) :
  elements (ps ++ qs) = elements ps ++ elements qs.
Proof. unfold elements. now rewrite map_app, concat_app. Qed.

Lemma sum_of_squares_elements_perm (ps qs : list NDArray) :
  Permutation ps qs ->
  sum_of_squares (elements ps) = sum_of_squares (elements qs).
Proof.
  induction 1 as [|p ps qs _ IH|p q ps|ps qs rs _ IH1 _ IH2].
  - reflexivity.
  - change (p :: ps) with ([p] ++ ps). change (p :: qs) with ([p] ++ qs).
    rewrite !elements_app, !sum_of_squares_app. now rewrite IH.
  - change (q :: p :: ps) with ([q] ++ [p] ++ ps).
    change (p :: q :: ps) with ([p] ++ [q] ++ ps).
    rewrite !elements_app, !sum_of_squares_app. lra.
  - now rewrite IH1.
Qed.

(** X12.  The penalty does not depend on the order in which the parameters
    are listed, and the penalty of two parameter sets taken together is the
    sum ([+] of the library, on arrays of shape (1,)) of their penalties. *)
Theorem l2_penalty_sets (ps qs : list NDArray) :
  (Permutation ps qs -> l2_penalty (map Ok ps) = l2_penalty (map Ok qs)) /\
  l2_penalty (map Ok (ps ++ qs)) =
    nd_add (l2_penalty (map Ok ps)) (l2_penalty (map Ok qs)).
Proof.
  split.
  - intros Hperm. rewrite !l2_penalty_value.
    now rewrite (sum_of_squares_elements_perm ps qs Hperm).
  - rewrite !l2_penalty_value. simpl.
    now rewrite elements_app, sum_of_squares_app.
Qed.

Lemma sum_of_squares_scale (c : R) (ps : list NDArray) :
  sum_of_squares (elements (map (val_smul c) ps)) =
  c ^ 2 * sum_of_squares (elements ps).
Proof.
  induction ps as [|p ps IH].
  - unfold elements, sum_of_squares. simpl. lra.
  - change (map (val_smul c) (p :: ps)) with ([val_smul c p] ++ map (val_smul c) ps).
    change (p :: ps) with ([p] ++ ps).
    rewrite !elements_app, !sum_of_squares_app, IH.
    rewrite Rmult_plus_distr_l. f_equal.
    unfold elements. cbn [map concat]. rewrite !app_nil_r.
    unfold val_smul. rewrite flatten_nd_map. unfold sum_of_squares.
    unfold vsum.
    induction (flatten p) as [|x l IHl]; cbn [map fold_right]; [ring|].
    rewrite IHl. ring.
Qed.

(** X13.  Scaling every parameter by [c] scales the penalty by [c] squared:
    halving all weights divides the penalty by four. *)
Theorem l2_penalty_scale (c : R) (ps : list NDArray) :
  l2_penalty (map Ok (map (val_smul c) ps)) =
  nd_smul (c ^ 2) (l2_penalty (map Ok ps)).
Proof.
  rewrite !l2_penalty_value. cbn [nd_smul value_ops lift1 rbind val_smul nd_map map].
  now rewrite sum_of_squares_scale.
Qed.

(** ** One training step in closed form *)

Lemma zipWith_decay {A B : Type} (f f' : A -> B -> A) (g : B -> B -> B)
    (k : A -> B) (h : A -> A -> A) (u : list A) (v : list B) :
  (forall x y, f x (g y (k x)) = h (f' x y) x) ->
  zipWith f u (zipWith g v (map k u)) = zipWith h (zipWith f' u v) u.
Proof.
  intros Hh. revert v. induction u as [|x u IH]; intros [|y v]; simpl;
    try reflexivity.
  now rewrite Hh, IH.
Qed.

(** X14.  Weight decay.  On the same batch and the same parameters, the
    step of the regularized loop with strength [l2_strength] leaves every
    parameter element where the step of the unregularized loop leaves it,
    less 0.001 * 2 * [l2_strength] times the element's value before the
    step. *)
Theorem weight_decay (l2_strength : R) (i : nat) (batch : Batch) (w : World)
    (W : mat) (b : vec) :
  params_shaped (store w) W b -> batch_ok batch = true ->
  exists (w_unreg w_reg : World) (W' : mat) (b' : vec),
    train_batch Unregularized i batch w = Ok w_unreg /\
    train_batch (Regularized l2_strength) i batch w = Ok w_reg /\
    params_shaped (store w_unreg) W' b' /\
    params_shaped (store w_reg)
      (zipWith (zipWith (fun x' x => x' - 1 / 1000 * (2 * l2_strength * x))) W' W)
      (zipWith (fun x' x => x' - 1 / 1000 * (2 * l2_strength * x)) b' b).
Proof.
  intros Hs Hb.
  destruct (train_batch_run Unregularized i batch w W b Hs Hb)
    as (X & Gu & gu & hu & HX & HGu & Hgu & _ & Hsu & Hrunu).
  destruct (train_batch_run (Regularized l2_strength) i batch w W b Hs Hb)
    as (X' & Gr & gr & hr & HX' & HGr & Hgr & _ & Hsr & Hrunr).
  rewrite HX in HX'. inversion HX'; subst X'. clear HX'.
  cbn [contributions app grad_of Nat.eqb W_loc b_loc] in HGu, Hgu, HGr, Hgr.
  rewrite penalty_adj_closed_form in HGr, Hgr.
  cbn [nd_map nd_zipWith] in HGr, Hgr.
  inversion HGu; subst Gu. inversion Hgu; subst gu.
  inversion HGr; subst Gr. inversion Hgr; subst gr.
  eexists. eexists. eexists. eexists.
  split; [exact Hrunu|]. split; [exact Hrunr|]. split; [exact Hsu|].
  cbn [store set_moving_loss set_store] in Hsr |- *.
  match goal with
  | H : params_shaped hr ?A ?B |- params_shaped hr ?A' ?B' =>
      replace A' with A; [replace B' with B; [exact H|]|]
  end.
  - apply zipWith_decay. intros x y. unfold sgd_step. lra.
  - apply zipWith_decay. intros r s. apply zipWith_decay.
    intros x y. unfold sgd_step. lra.
Qed.

Lemma weight_decay_witness :
  exists (w_unreg w_reg : World) (W' : mat) (b' : vec),
    train_batch Unregularized 0 batch_one world_one = Ok w_unreg /\
    train_batch (Regularized (1 / 10)) 0 batch_one world_one = Ok w_reg /\
    params_shaped (store w_unreg) W' b' /\
    params_shaped (store w_reg)
      (zipWith (zipWith (fun x' x => x' - 1 / 1000 * (2 * (1 / 10) * x))) W' W_zero)
      (zipWith (fun x' x => x' - 1 / 1000 * (2 * (1 / 10) * x)) b' b_zero).
Proof.
  apply (weight_decay (1 / 10) 0 batch_one world_one W_zero b_zero).
  - exact params_shaped_zero.
  - reflexivity.
Defined.

(** X15.  The unregularized step in closed form.  For a well-formed batch
    [X] with labels below 10 and predicted probabilities [Y] none of which
    is below 10^-30 (far inside the range of single precision, so that
    neither the logarithm nor the division in its derivative leaves that
    range), the step replaces [W] by [W - 0.001 * X^T . (Y - one_hot)] and
    [b] by [b - 0.001 * (column sums of Y - one_hot)]: what reverse-mode
    differentiation of the recorded operations yields is the gradient of
    softmax regression. *)
Theorem softmax_regression_step (i : nat) (batch : Batch) (w : World)
    (W X : mat) (b : vec) :
  params_shaped (store w) W b -> batch_ok batch = true ->
  reshape_rows 784 (batch_data batch) = Ok (Mat X) ->
  Forall (fun l => (l < 10)%nat) (batch_label batch) ->
  Forall (Forall (fun p => / 10 ^ 30 <= p)) (probabilities X W b) ->
  exists w' : World,
    train_batch Unregularized i batch w = Ok w' /\
    params_shaped (store w')
      (zipWith (zipWith sgd_step) W
         (matmul (transpose X)
            (zipWith (zipWith Rminus) (probabilities X W b)
               (map (one_hot_row 10) (batch_label batch)))))
      (zipWith sgd_step b
         (colsum (zipWith (zipWith Rminus) (probabilities X W b)
                    (map (one_hot_row 10) (batch_label batch))))).
Proof.
  intros Hs Hb HX Hlab Hfar.
  destruct (train_batch_run Unregularized i batch w W b Hs Hb)
    as (X1 & G & g & h' & HX1 & HG & Hg & _ & Hs' & Hrun).
  rewrite HX in HX1. inversion HX1; subst X1. clear HX1.
  destruct (batch_ok_inv batch Hb) as (X0 & n & HX0 & HXs & Hlen).
  rewrite HX in HX0. inversion HX0; subst X0. clear HX0.
  destruct Hs as (_ & _ & HW & Hbl).
  assert (Hnz : Forall (Forall (fun p => p <> 0)) (probabilities X W b)).
  { eapply Forall_impl; [|exact Hfar]. intros r Hr.
    eapply Forall_impl; [|exact Hr]. intros p Hp.
    assert (0 < / 10 ^ 30) by (apply Rinv_0_lt_compat, pow_lt; lra). lra. }
  cbn [contributions app grad_of Nat.eqb W_loc b_loc] in HG, Hg.
  rewrite (logits_adj_closed_form X W b (batch_label batch) n
             HW Hbl HXs Hlen Hlab Hnz) in HG, Hg.
  inversion HG; subst G. inversion Hg; subst g.
  eexists. split; [exact Hrun|]. exact Hs'.
Qed.

Lemma softmax_regression_step_witness :
  exists w' : World,
    train_batch Unregularized 0 batch_one world_one = Ok w' /\
    params_shaped (store w')
      (zipWith (zipWith sgd_step) W_zero
         (matmul (transpose X_one)
            (zipWith (zipWith Rminus) (probabilities X_one W_zero b_zero)
               (map (one_hot_row 10) (batch_label batch_one)))))
      (zipWith sgd_step b_zero
         (colsum (zipWith (zipWith Rminus) (probabilities X_one W_zero b_zero)
                    (map (one_hot_row 10) (batch_label batch_one))))).
Proof.
  apply (softmax_regression_step 0 batch_one world_one W_zero X_one b_zero).
  - exact params_shaped_zero.
  - reflexivity.
  - reflexivity.
  - repeat constructor.
  - rewrite probabilities_net_rows by (try split; reflexivity).
    rewrite net_rows_zero.
    assert (Hp : / 10 ^ 30 <= 1 / 10).
    { unfold Rdiv. rewrite Rmult_1_l. apply Rinv_le_contravar; [lra|].
      rewrite <- (pow_1 10) at 1. apply Rle_pow; [lra|lia]. }
    cbn [map repeat X_one]. constructor; [|constructor].
    repeat (apply Forall_cons; [exact Hp|]). apply Forall_nil.
Defined.

(** X16.  [backward] overwrites the gradient buffers, it does not add to
    them: a step depends on the store only through the values of [W] and
    [b].  From two stores that hold the same parameter values, whatever
    their gradient buffers hold, the same batch leads to the same parameter
    values, and to the same moving loss when the moving losses agreed. *)
Theorem gradients_overwritten (o : objective) (i : nat) (batch : Batch)
    (w1 w2 : World) (W : mat) (b : vec) :
  params_shaped (store w1) W b -> params_shaped (store w2) W b ->
  batch_ok batch = true ->
  exists (w1' w2' : World) (W' : mat) (b' : vec),
    train_batch o i batch w1 = Ok w1' /\ train_batch o i batch w2 = Ok w2' /\
    params_shaped (store w1') W' b' /\ params_shaped (store w2') W' b' /\
    (moving_loss w1 = moving_loss w2 -> moving_loss w1' = moving_loss w2').
Proof.
  intros Hs1 Hs2 Hb.
  destruct (train_batch_run o i batch w1 W b Hs1 Hb)
    as (X & G & g & h1 & HX & HG & Hg & _ & Hs1' & Hrun1).
  destruct (train_batch_run o i batch w2 W b Hs2 Hb)
    as (X' & G' & g' & h2 & HX' & HG' & Hg' & _ & Hs2' & Hrun2).
  rewrite HX in HX'. inversion HX'; subst X'. clear HX'.
  rewrite HG in HG'. inversion HG'; subst G'.
  rewrite Hg in Hg'. inversion Hg'; subst g'.
  eexists. eexists. eexists. eexists.
  split; [exact Hrun1|]. split; [exact Hrun2|].
  split; [exact Hs1'|]. split; [exact Hs2'|].
  cbn [moving_loss set_moving_loss]. now intros ->.
Qed.

Lemma gradients_overwritten_witness :
  exists (w1' w2' : World) (W' : mat) (b' : vec),
    train_batch (Regularized (1 / 10)) 0 batch_one world_one = Ok w1' /\
    train_batch (Regularized (1 / 10)) 0 batch_one world_stale = Ok w2' /\
    params_shaped (store w1') W' b' /\ params_shaped (store w2') W' b' /\
    (moving_loss world_one = moving_loss world_stale ->
     moving_loss w1' = moving_loss w2').
Proof.
  apply (gradients_overwritten (Regularized (1 / 10)) 0 batch_one
           world_one world_stale W_zero b_zero).
  - exact params_shaped_zero.
  - split; [reflexivity|]. split; [reflexivity|]. split; [|reflexivity].
    split; reflexivity.
  - reflexivity.
Defined.

(** ** The training loops as a whole *)

(** X17.  On parameters of the notebook's shapes and iterators all of
    whose passes to come present at least one batch and only well-formed
    ones, a training cell runs through all its epochs without an exception,
    whatever their number and whatever the regularization strength, and
    leaves parameters of the same shapes.  Every epoch starts two passes of
    the training iterator (one to train on, one to measure the training
    accuracy) and one pass of the test iterator. *)
Theorem train_completes (o : objective) (epochs : nat) (w : World) :
  world_sound w ->
  exists (shown : list report) (w' : World),
    train o epochs w = Ok (shown, w') /\ world_sound w' /\
    iter_pass (train_data w') = iter_pass (train_data w) /\
    iter_count (train_data w') = (iter_count (train_data w) + 2 * epochs)%nat /\
    iter_pass (test_data w') = iter_pass (test_data w) /\
    iter_count (test_data w') = (iter_count (test_data w) + epochs)%nat.
Proof.
  intros Hw.
  destruct (train_ok o epochs w Hw) as (shown & w' & Hrun & Hrest).
  exists shown, w'. split; [exact Hrun|exact Hrest].
Qed.

Lemma train_completes_witness :
  exists (shown : list report) (w' : World),
    train (Regularized (1 / 10)) 1000 world_one = Ok (shown, w') /\
    world_sound w' /\
    iter_pass (train_data w') = iter_pass (train_data world_one) /\
    iter_count (train_data w')
      = (iter_count (train_data world_one) + 2 * 1000)%nat /\
    iter_pass (test_data w') = iter_pass (test_data world_one) /\
    iter_count (test_data w') = (iter_count (test_data world_one) + 1000)%nat.
Proof.
  apply (train_completes (Regularized (1 / 10)) 1000 world_one).
  exact world_sound_one.
Defined.

Lemma printed_epochs_step (e : nat) (l : list nat) :
  (if Nat.eqb (e mod 100) 99 then [(e + 1)%nat] else []) ++ l =
  if Nat.eqb (S e mod 100) 0 then S e :: l else l.
Proof.
  assert (Hiff : (e mod 100 = 99 <-> S e mod 100 = 0)%nat).
  { pose proof (Nat.div_mod_eq e 100) as He.
    pose proof (Nat.div_mod_eq (S e) 100) as HSe.
    pose proof (Nat.mod_upper_bound e 100) as Hb.
    pose proof (Nat.mod_upper_bound (S e) 100) as HSb.
    lia. }
  destruct (Nat.eqb_spec (e mod 100) 99) as [H1|H1],
           (Nat.eqb_spec (S e mod 100) 0) as [H2|H2]; simpl.
  - now rewrite Nat.add_1_r.
  - apply Hiff in H1. contradiction.
  - apply Hiff in H2. contradiction.
  - reflexivity.
Qed.

Lemma train_epoch_printed (o : objective) (e : nat) (w w' : World)
    (shown : list report) :
  train_epoch o e w = Ok (shown, w') ->
  map epoch shown = if Nat.eqb (e mod 100) 99 then [(e + 1)%nat] else [].
Proof.
  rewrite train_epoch_unfold. intros Hrun.
  destruct (train_batches o 0 (iter_batches (train_data w)) (epoch_start w))
    as [w1|]; [|discriminate].
  cbn [rbind] in Hrun.
  destruct (evaluate_accuracy TestData net_global w1) as [[a1 w2]|]; [|discriminate].
  cbn [rbind] in Hrun.
  destruct (evaluate_accuracy TrainData net_global w2) as [[a2 w3]|]; [|discriminate].
  cbn [rbind] in Hrun.
  destruct (Nat.eqb (e mod 100) 99); inversion Hrun; reflexivity.
Qed.

Lemma train_epochs_printed (o : objective) (count e : nat) (w w' : World)
    (shown : list report) :
  train_epochs o e count w = Ok (shown, w') ->
  map epoch shown = filter (fun n => Nat.eqb (n mod 100) 0) (seq (S e) count).
Proof.
  revert e w shown. induction count as [|count IH]; intros e w shown Hrun.
  - simpl in Hrun. inversion Hrun. reflexivity.
  - cbn [train_epochs] in Hrun.
    destruct (train_epoch o e w) as [[first w1]|] eqn:Hfirst; [|discriminate].
    cbn [rbind] in Hrun.
    destruct (train_epochs o (S e) count w1) as [[later w2]|] eqn:Hlater;
      [|discriminate].
    cbn [rbind] in Hrun. inversion Hrun; subst.
    rewrite map_app, (train_epoch_printed _ _ _ _ _ Hfirst), (IH _ _ _ Hlater).
    cbn [seq filter]. apply printed_epochs_step.
Qed.

(** X18.  A training cell prints one line every hundredth epoch and no
    other: the epoch numbers of the printed lines are the multiples of 100
    from 1 to the number of epochs, in increasing order. *)
Theorem train_printed_epochs (o : objective) (epochs : nat) (w : World)
    (shown : list report) (w' : World) :
  world_ok w -> train o epochs w = Ok (shown, w') ->
  map epoch shown = filter (fun n => Nat.eqb (n mod 100) 0) (seq 1 epochs).
Proof.
  intros _ Hrun. unfold train in Hrun.
  exact (train_epochs_printed o epochs 0 _ _ _ Hrun).
Qed.

Lemma train_printed_epochs_witness :
  exists (shown : list report) (w' : World),
    train Unregularized 250 world_one = Ok (shown, w') /\
    map epoch shown = filter (fun n => Nat.eqb (n mod 100) 0) (seq 1 250).
Proof.
  destruct (train_ok Unregularized 250 world_one world_sound_one)
    as (shown & w' & Hrun & _).
  exists shown, w'. split; [exact Hrun|].
  exact (train_printed_epochs Unregularized 250 world_one shown w' world_ok_one Hrun).
Defined.

(** ** The moving loss across epochs *)

(** X20.  The moving loss starts afresh in every epoch: batch number 0
    assigns it without reading it, so an epoch over a training iterator
    with at least one batch prints and leaves the same values whatever the
    moving loss was before it.  It is an average over the batches of one
    epoch, not over the run. *)
Theorem moving_loss_restarts (o : objective) (e : nat) (m : R) (w : World) :
  iter_batches (train_data w) <> [] ->
  train_epoch o e (set_moving_loss m w) = train_epoch o e w.
Proof.
  intros Hne. rewrite !train_epoch_unfold.
  change (iter_batches (train_data (set_moving_loss m w)))
    with (iter_batches (train_data w)).
  destruct (iter_batches (train_data w)) as [|batch rest]; [contradiction|].
  reflexivity.
Qed.

Lemma moving_loss_restarts_witness :
  train_epoch Unregularized 0 (set_moving_loss 5 world_one)
  = train_epoch Unregularized 0 world_one.
Proof.
  apply (moving_loss_restarts Unregularized 0 5 world_one). discriminate.
Defined.

(** ** Labels outside the ten classes *)

Lemma one_hot_row_out (depth l : nat) :
  (depth <= l)%nat -> one_hot_row depth l = repeat 0 depth.
Proof.
  intros Hl. unfold one_hot_row.
  rewrite (map_ext_in _ (fun _ => 0)).
  - generalize 0%nat as s. induction depth as [|depth IH]; intros s; simpl;
      [reflexivity|]. f_equal. apply IH. lia.
  - intros j Hj. apply in_seq in Hj. destruct (Nat.eqb_spec j l); [lia|reflexivity].
Qed.

Lemma vsum_zip_zero (n : nat) (r : vec) : vsum (zipWith Rmult (repeat 0 n) r) = 0.
Proof.
  revert r. induction n as [|n IH]; intros [|x r]; simpl; try reflexivity.
  rewrite IH. lra.
Qed.

Lemma predict_below (W : mat) (b x : vec) :
  b <> [] -> rect (length b) W = true -> (predict W b x < length b)%nat.
Proof.
  intros Hb HW. unfold predict.
  set (r := vadd (vecmat (length b) x W) b).
  assert (Hr : length r = length b).
  { unfold r, vadd. rewrite zipWith_length; rewrite vecmat_length; auto. }
  assert (Hs : softmax_row r <> []).
  { intros Hnil. apply (f_equal (@length R)) in Hnil.
    rewrite softmax_row_length, Hr in Hnil. destruct b; [easy|discriminate]. }
  destruct (argmax_row_spec (softmax_row r) Hs) as [Hlt _].
  now rewrite softmax_row_length, Hr in Hlt.
Qed.

(** X21.  A label outside 0..9 is encoded by [nd.one_hot] as a row of
    zeros, without an exception.  When every predicted probability is
    positive, so that every logarithm is a number, such a sample contributes
    a cross-entropy of exactly zero; and it can never count as correctly
    classified, because the predicted class is below 10. *)
Theorem label_out_of_range (yhat : mat) (label : list nat) (W : mat) (b x : vec) :
  rect 10 yhat = true -> length label = length yhat ->
  (forall i j, (i < length yhat)%nat -> (j < 10)%nat -> 0 < entry yhat i j) ->
  length b = 10%nat -> rect 10 W = true ->
  (exists loss : vec,
     cross_entropy (Ok (Mat yhat)) (Ok (one_hot label 10)) = Ok (Vec loss) /\
     length loss = length yhat /\
     forall i, (i < length yhat)%nat -> (10 <= nth i label O)%nat ->
       nth i loss 0 = 0) /\
  (forall l, (10 <= l)%nat -> predict W b x <> l).
Proof.
  intros Hyhat Hlen _ Hb HW. split.
  - assert (Hy : is_mat (length label) 10 (map (one_hot_row 10) label))
      by apply one_hot_shape.
    assert (Hnth : forall i, (i < length label)%nat -> (10 <= nth i label O)%nat ->
              nth i (map (one_hot_row 10) label) [] = repeat 0 10%nat).
    { intros i Hi Hout. rewrite (nth_map_lt (one_hot_row 10) label i _ O) by lia.
      now apply one_hot_row_out. }
    assert (Hly : length (map (one_hot_row 10) label) = length yhat)
      by (now rewrite length_map).
    unfold one_hot. remember (map (one_hot_row 10) label) as y eqn:Ey. clear Ey.
    assert (Hln : rect 10 (map (map ln) yhat) = true).
    { apply rect_map. intros r Hr. rewrite length_map.
      apply rect_Forall in Hyhat. rewrite Forall_forall in Hyhat. now apply Hyhat. }
    exists (map Ropp (map vsum (zipWith (zipWith Rmult) y (map (map ln) yhat)))).
    split; [|split].
    + unfold cross_entropy. simpl.
      rewrite (mzip_ok Rmult y _ 10);
        [reflexivity|rewrite length_map; exact Hly|apply Hy|assumption].
    + rewrite !length_map, zipWith_length; rewrite ?length_map; exact Hly.
    + intros i Hi Hout.
      assert (Hiy : (i < length y)%nat) by (rewrite Hly; exact Hi).
      assert (Hi' : (i < length (zipWith (zipWith Rmult) y (map (map ln) yhat)))%nat).
      { rewrite zipWith_length; rewrite ?length_map; assumption. }
      rewrite (nth_map_lt Ropp _ i 0 0) by (now rewrite length_map).
      rewrite (nth_map_lt vsum _ i 0 []) by assumption.
      rewrite (nth_zipWith _ y _ i _ [] []) by (rewrite ?length_map; assumption).
      rewrite Hnth by (assumption || (rewrite Hlen; exact Hi)).
      rewrite vsum_zip_zero. lra.
  - intros l Hl Heq.
    assert (Hlt : (predict W b x < length b)%nat).
    { apply predict_below; [destruct b; [discriminate|easy]|now rewrite Hb]. }
    lia.
Qed.

Lemma label_out_of_range_witness :
  (exists loss : vec,
     cross_entropy (Ok (Mat yhat_one)) (Ok (one_hot [12%nat] 10)) = Ok (Vec loss) /\
     length loss = length yhat_one /\
     forall i, (i < length yhat_one)%nat -> (10 <= nth i [12%nat] O)%nat ->
       nth i loss 0 = 0) /\
  (forall l, (10 <= l)%nat -> predict W_zero b_zero x_zero <> l).
Proof.
  apply (label_out_of_range yhat_one [12%nat] W_zero b_zero x_zero);
    try reflexivity.
  intros i j Hi Hj. simpl in Hi.
  assert (Ei : i = O) by lia. subst i.
  unfold entry, yhat_one. cbn [nth].
  do 10 (destruct j as [|j]; [simpl; lra|]). lia.
Defined.

(** ** Reshaping *)

Lemma concat_chunks (k fuel : nat) (l : list R) :
  k <> O -> (length l <= fuel)%nat -> concat (chunks fuel k l) = l.
Proof.
  intros Hk. revert l. induction fuel as [|fuel IH]; intros l Hf.
  - destruct l; [reflexivity|simpl in Hf; lia].
  - destruct l as [|x l]; [reflexivity|].
    cbn [chunks concat]. rewrite IH.
    + apply firstn_skipn.
    + rewrite length_skipn. cbn [length] in *. lia.
Qed.

Lemma chunks_cons (fuel k : nat) (l : list R) :
  l <> [] -> chunks (S fuel) k l = firstn k l :: chunks fuel k (skipn k l).
Proof. destruct l; [contradiction|reflexivity]. Qed.

Lemma chunks_concat (k : nat) (X : mat) (fuel : nat) :
  k <> O -> rect k X = true -> (length (concat X) <= fuel)%nat ->
  chunks fuel k (concat X) = X.
Proof.
  intros Hk. revert fuel. induction X as [|r X IH]; intros fuel HX Hf.
  - destruct fuel; reflexivity.
  - simpl in HX. apply andb_prop in HX as [Hr HX]. apply Nat.eqb_eq in Hr.
    cbn [concat] in *. rewrite length_app in Hf.
    destruct fuel as [|fuel]; [lia|].
    rewrite chunks_cons by (destruct r; [simpl in Hr; lia|discriminate]).
    rewrite firstn_app, skipn_app, Hr, Nat.sub_diag.
    rewrite <- Hr at 1 3. rewrite firstn_all, skipn_all.
    cbn [firstn skipn app]. rewrite app_nil_r. f_equal.
    apply IH; [assumption|lia].
Qed.

(** X22.  [reshape((-1, k))] loses nothing and invents nothing: when it
    returns, the rows of the result, read one after the other, are the
    elements of the argument in their order; every row has [k] elements and
    there is at least one row; and reshaping the result again returns it
    unchanged. *)
Theorem reshape_rows_round_trip (k : nat) (a : NDArray) (X : mat) :
  reshape_rows k a = Ok (Mat X) ->
  concat X = flatten a /\ X <> [] /\ rect k X = true /\
  reshape_rows k (Mat X) = Ok (Mat X).
Proof.
  intros Hr.
  destruct (reshape_rows_inv k a (Mat X) Hr) as (X0 & HX0 & Hne & Hrect).
  inversion HX0; subst X0. clear HX0.
  unfold reshape_rows in Hr.
  destruct (Nat.eqb (length (flatten a)) 0) eqn:H0; [discriminate|].
  destruct (Nat.eqb (length (flatten a) mod k) 0) eqn:Hm; [|discriminate].
  simpl in Hr. injection Hr as HX.
  apply Nat.eqb_neq in H0. apply Nat.eqb_eq in Hm.
  assert (Hk : k <> O).
  { intros ->. simpl in Hm. lia. }
  assert (Hcat : concat X = flatten a).
  { rewrite <- HX. now apply concat_chunks. }
  split; [exact Hcat|]. split; [exact Hne|]. split; [exact Hrect|].
  unfold reshape_rows. cbn [flatten]. rewrite Hcat.
  apply Nat.eqb_neq in H0. apply Nat.eqb_eq in Hm. rewrite H0, Hm. simpl.
  rewrite <- Hcat. now rewrite chunks_concat.
Qed.

Lemma reshape_rows_round_trip_witness :
  concat X_one = flatten (batch_data batch_one) /\ X_one <> [] /\
  rect 784 X_one = true /\ reshape_rows 784 (Mat X_one) = Ok (Mat X_one).
Proof.
  apply (reshape_rows_round_trip 784 (batch_data batch_one) X_one).
  reflexivity.
Defined.

(** ** What a step and an epoch leave behind *)

(** X23.  A step of either loop writes the two parameter objects and
    nothing else.  After it, each of them holds its old value less 0.001
    times the gradient, and its gradient buffer still holds that gradient;
    every other object of the store and both iterators are as before. *)
Theorem train_batch_store (o : objective) (i : nat) (batch : Batch) (w : World)
    (W : mat) (b : vec) :
  params_shaped (store w) W b -> batch_ok batch = true ->
  exists (w' : World) (G : mat) (g : vec),
    train_batch o i batch w = Ok w' /\
    nth_error (store w') W_loc =
      Some {| data := Mat (zipWith (zipWith sgd_step) W G); grad := Mat G |} /\
    nth_error (store w') b_loc =
      Some {| data := Vec (zipWith sgd_step b g); grad := Vec g |} /\
    (forall p, (2 <= p)%nat -> nth_error (store w') p = nth_error (store w) p) /\
    train_data w' = train_data w /\ test_data w' = test_data w.
Proof.
  intros Hs Hb.
  destruct (train_batch_run o i batch w W b Hs Hb)
    as (X & G & g & h' & _ & HG & Hg & Hsgd & _ & Hrun).
  destruct Hs as (HhW & Hhb & _ & _).
  destruct (param_data_inv _ _ _ HhW) as (qW & HqW & HdW).
  destruct (param_data_inv _ _ _ Hhb) as (qb & Hqb & Hdb).
  destruct (SGD_inv params (1 / 1000) _ h' NoDup_params Hsgd) as [Hin Hout].
  eexists. exists G, g. split; [exact Hrun|].
  cbn [store set_moving_loss set_store train_data test_data].
  split; [|split; [|split; [|split; reflexivity]]].
  - rewrite (Hin W_loc {| data := Mat W; grad := Mat G |}).
    + reflexivity.
    + now left.
    + rewrite nth_error_write_grads, HqW. cbn [option_map Nat.add].
      rewrite HG. now rewrite HdW.
  - rewrite (Hin b_loc {| data := Vec b; grad := Vec g |}).
    + reflexivity.
    + right. now left.
    + rewrite nth_error_write_grads, Hqb. cbn [option_map Nat.add].
      rewrite Hg. now rewrite Hdb.
  - intros p Hp. rewrite Hout.
    + rewrite nth_error_write_grads. cbn [Nat.add].
      assert (Hnone : grad_of p
                (contributions o X W b (map (one_hot_row 10) (batch_label batch)))
              = None).
      { destruct p as [|[|p]]; try lia.
        destruct o; reflexivity. }
      rewrite Hnone. destruct (nth_error (store w) p); reflexivity.
    + unfold params, W_loc, b_loc. simpl. lia.
Qed.

Lemma train_batch_store_witness :
  exists (w' : World) (G : mat) (g : vec),
    train_batch (Regularized (1 / 10)) 0 batch_one world_one = Ok w' /\
    nth_error (store w') W_loc =
      Some {| data := Mat (zipWith (zipWith sgd_step) W_zero G); grad := Mat G |} /\
    nth_error (store w') b_loc =
      Some {| data := Vec (zipWith sgd_step b_zero g); grad := Vec g |} /\
    (forall p, (2 <= p)%nat ->
       nth_error (store w') p = nth_error (store world_one) p) /\
    train_data w' = train_data world_one /\ test_data w' = test_data world_one.
Proof.
  apply (train_batch_store (Regularized (1 / 10)) 0 batch_one world_one
           W_zero b_zero).
  - exact params_shaped_zero.
  - reflexivity.
Defined.

(** X24.  The line printed for an epoch describes the state the epoch
    leaves.  Its loss is the moving loss then.  Its test accuracy is the
    fraction of the samples of the test iterator's next pass that the
    parameters as they are after the epoch's last step classify correctly;
    its training accuracy is that fraction over the pass of the training
    iterator that follows the one trained on, so on other batches than the
    epoch's when the iterator reshuffles. *)
Theorem train_epoch_report (o : objective) (e : nat) (w : World) :
  world_sound w -> (e mod 100 = 99)%nat ->
  exists (r : report) (w' : World) (W : mat) (b : vec),
    train_epoch o e w = Ok ([r], w') /\
    epoch r = (e + 1)%nat /\ loss_shown r = moving_loss w' /\
    params_shaped (store w') W b /\
    test_acc r =
      INR (correctly_classified W b (samples_seen (iter_batches (test_data w)))) /
      INR (length (samples_seen (iter_batches (test_data w)))) /\
    train_acc r =
      INR (correctly_classified W b
             (samples_seen (iter_pass (train_data w) (S (iter_count (train_data w)))))) /
      INR (length
             (samples_seen (iter_pass (train_data w) (S (iter_count (train_data w)))))).
Proof.
  intros (Hs & Ht & Hv) He.
  destruct (iter_sound_ok _ Ht) as [Htne Htok].
  destruct (iter_sound_ok _ Hv) as [Hvne Hvok].
  destruct (iter_sound_ok _ (iter_sound_after _ Ht)) as [Htne' Htok'].
  rewrite train_epoch_unfold.
  destruct (train_batches_ok o (iter_batches (train_data w)) 0 (epoch_start w))
    as (w1 & Hrun & Hs1 & Htrain1 & Htest1); [exact Hs|exact Htok|].
  rewrite Hrun. cbn [rbind].
  destruct Hs1 as (W & b & HhW & Hhb & [HlW HW] & Hb).
  cbn [train_data test_data epoch_start set_iter] in Htrain1, Htest1.
  rewrite (evaluate_accuracy_run TestData w1 W b); try assumption;
    [|simpl; now rewrite Htest1|simpl; now rewrite Htest1].
  cbn [rbind].
  set (w2 := set_iter TestData (iter_after (get_iter TestData w1)) w1) in *.
  rewrite (evaluate_accuracy_run TrainData w2 W b); try assumption;
    [|simpl; now rewrite Htrain1|simpl; now rewrite Htrain1].
  cbn [rbind]. rewrite He. cbn [Nat.eqb].
  eexists. eexists. exists W, b. split; [reflexivity|].
  cbn [epoch loss_shown train_acc test_acc store set_iter get_iter w2].
  rewrite Htest1, Htrain1.
  split; [reflexivity|]. split; [reflexivity|].
  split; [repeat split; assumption|]. split; reflexivity.
Qed.

Lemma train_epoch_report_witness :
  exists (r : report) (w' : World) (W : mat) (b : vec),
    train_epoch Unregularized 99 world_one = Ok ([r], w') /\
    epoch r = (99 + 1)%nat /\ loss_shown r = moving_loss w' /\
    params_shaped (store w') W b /\
    test_acc r =
      INR (correctly_classified W b
             (samples_seen (iter_batches (test_data world_one)))) /
      INR (length (samples_seen (iter_batches (test_data world_one)))) /\
    train_acc r =
      INR (correctly_classified W b
             (samples_seen (iter_pass (train_data world_one)
                              (S (iter_count (train_data world_one)))))) /
      INR (length
             (samples_seen (iter_pass (train_data world_one)
                              (S (iter_count (train_data world_one)))))).
Proof.
  apply (train_epoch_report Unregularized 99 world_one).
  - exact world_sound_one.
  - reflexivity.
Defined.

(** X25.  The two loops report losses on different scales.  The
    unregularized loop averages the cross-entropy over the samples of a
    batch; the regularized loop sums it, so that [nd.mean] of its one-element
    loss is the loss itself.  On the same batch of N samples and the same
    parameters, where the first feeds the mean cross-entropy [L] into the
    moving loss, the second feeds N * [L] plus the strength times the sum
    of the squares of all parameter elements. *)
Theorem regularized_loss_scale (l2_strength : R) (i : nat) (batch : Batch)
    (w : World) (W : mat) (b : vec) :
  params_shaped (store w) W b -> batch_ok batch = true ->
  exists (w_unreg w_reg : World) (L : R),
    train_batch Unregularized i batch w = Ok w_unreg /\
    train_batch (Regularized l2_strength) i batch w = Ok w_reg /\
    moving_loss w_unreg =
      (if Nat.eqb i 0 then L else 99 / 100 * moving_loss w + 1 / 100 * L) /\
    moving_loss w_reg =
      (if Nat.eqb i 0
       then INR (length (batch_label batch)) * L +
            l2_strength * (sum_of_squares (concat W) + sum_of_squares b)
       else 99 / 100 * moving_loss w +
            1 / 100 * (INR (length (batch_label batch)) * L +
                       l2_strength * (sum_of_squares (concat W) + sum_of_squares b))).
Proof.
  intros Hs Hb.
  destruct (train_batch_run Unregularized i batch w W b Hs Hb)
    as (X & Gu & gu & hu & HX & _ & _ & _ & _ & Hrunu).
  destruct (train_batch_run (Regularized l2_strength) i batch w W b Hs Hb)
    as (X' & Gr & gr & hr & HX' & _ & _ & _ & _ & Hrunr).
  rewrite HX in HX'. inversion HX'; subst X'. clear HX'.
  destruct (batch_ok_inv batch Hb) as (X0 & n & HX0 & HXs & Hlen).
  rewrite HX in HX0. inversion HX0; subst X0. clear HX0.
  destruct Hs as (_ & _ & HW & Hbl).
  set (y := map (one_hot_row 10) (batch_label batch)) in *.
  assert (Hy : is_mat (S n) 10 y).
  { rewrite <- Hlen. apply one_hot_shape. }
  assert (Hce : length (ce_loss (probabilities X W b) y) = S n).
  { unfold ce_loss. rewrite !length_map.
    apply (ce_terms_shape W b X y n HW Hbl HXs Hy). }
  eexists. eexists. exists (mean_asscalar (Vec (ce_loss (probabilities X W b) y))).
  split; [exact Hrunu|]. split; [exact Hrunr|].
  cbn [moving_loss set_moving_loss]. unfold next_moving_loss.
  cbn [loss_value]. split; [reflexivity|].
  assert (Hreg : mean_asscalar
            (Vec [vsum (ce_loss (probabilities X W b) y) +
                  l2_strength * penalty_value W b])
          = INR (length (batch_label batch)) *
              mean_asscalar (Vec (ce_loss (probabilities X W b) y)) +
            l2_strength * (sum_of_squares (concat W) + sum_of_squares b)).
  { unfold mean_asscalar. cbn [flatten length vsum fold_right].
    rewrite Hce, Hlen.
    assert (Hn : INR (S n) <> 0) by (apply not_0_INR; lia).
    assert (Hp : penalty_value W b = sum_of_squares (concat W) + sum_of_squares b).
    { unfold penalty_value, val_pow2. rewrite !flatten_nd_map.
      unfold sum_of_squares. cbn [flatten]. ring. }
    rewrite Hp. change (INR 1) with 1. fold (vsum (ce_loss (probabilities X W b) y)).
    field. exact Hn. }
  rewrite Hreg. reflexivity.
Qed.

Lemma regularized_loss_scale_witness :
  exists (w_unreg w_reg : World) (L : R),
    train_batch Unregularized 0 batch_one world_one = Ok w_unreg /\
    train_batch (Regularized (1 / 10)) 0 batch_one world_one = Ok w_reg /\
    moving_loss w_unreg =
      (if Nat.eqb 0 0 then L else 99 / 100 * moving_loss world_one + 1 / 100 * L) /\
    moving_loss w_reg =
      (if Nat.eqb 0 0
       then INR (length (batch_label batch_one)) * L +
            1 / 10 * (sum_of_squares (concat W_zero) + sum_of_squares b_zero)
       else 99 / 100 * moving_loss world_one +
            1 / 100 * (INR (length (batch_label batch_one)) * L +
                       1 / 10 * (sum_of_squares (concat W_zero) + sum_of_squares b_zero))).
Proof.
  apply (regularized_loss_scale (1 / 10) 0 batch_one world_one W_zero b_zero).
  - exact params_shaped_zero.
  - reflexivity.
Defined.
